(** * go_wget: a shallow embedding of [main.go] and the properties of its
      chunked-transfer engine.

    The development follows the source file function by function:
    [calculateConcurrency], the chunk planning loop of [downloadFile],
    [checkRangeSupport], [downloadChunk], [sequentialDownload] and
    [downloadFile] itself.  Go's [int64] values are integers of [Z] with the
    two's-complement wrap-around written out; the file system, the HTTP
    transport and the progress counter are explicit state. *)

From Stdlib Require Import ZArith Lia Ascii String Strings.Byte.
From stdpp Require Import base option list gmap strings pretty.

Local Open Scope Z_scope.

(** ** 64-bit signed integers *)

Module Int64.

Definition min_signed : Z := - 2 ^ 63.
Definition max_signed : Z := 2 ^ 63 - 1.

(** The value an [int64] variable holds after Go computes [z]. *)
Definition wrap (z : Z) : Z := (z + 2 ^ 63) mod 2 ^ 64 - 2 ^ 63.

Definition in_range (z : Z) : Prop := min_signed <= z <= max_signed.

Definition add (a b : Z) : Z := wrap (a + b).
Definition sub (a b : Z) : Z := wrap (a - b).
Definition mul (a b : Z) : Z := wrap (a * b).
(** Go's [/] truncates toward zero. *)
Definition quot (a b : Z) : Z := wrap (Z.quot a b).

End Int64.

(** ** Chunks and the chunk planner *)

Record Chunk := { Start : Z; End : Z }.

(** [calculateConcurrency]: 8 above 1 GiB, otherwise 4. *)
Definition calculateConcurrency (fileSize : Z) : Z :=
  if 1024 * 1024 * 1024 <? fileSize then 8 else 4.

(** The body of [for i := 0; i < concurrency; i++], unrolled over the
    indices it visits.  [chunks[i].Start] is assigned first and then read
    back by the assignment to [chunks[i].End]. *)
Fixpoint fillChunks (chunkSize : Z) (indices : list nat) (chunks : list Chunk)
  : list Chunk :=
  match indices with
  | [] => chunks
  | i :: rest =>
      let chunks1 :=
        alter (fun c => {| Start := Int64.mul (Z.of_nat i) chunkSize;
                           End := End c |}) i chunks in
      let chunks2 :=
        alter (fun c => {| Start := Start c;
                           End := Int64.sub (Int64.add (Start c) chunkSize) 1 |})
              i chunks1 in
      fillChunks chunkSize rest chunks2
  end.

(** Lines 112-120 of [downloadFile]: [make([]Chunk, concurrency)], the
    filling loop and the final assignment to the last chunk's [End].  Every
    index used is below [concurrency], the length of the slice, so no index
    expression of this block can go out of range. *)
Definition planChunksWith (concurrency : nat) (fileSize : Z) : list Chunk :=
  let chunks := replicate concurrency {| Start := 0; End := 0 |} in
  let chunkSize := Int64.quot fileSize (Z.of_nat concurrency) in
  let chunks := fillChunks chunkSize (seq 0 concurrency) chunks in
  alter (fun c => {| Start := Start c; End := Int64.sub fileSize 1 |})
        (concurrency - 1)%nat chunks.

Definition planChunks (fileSize : Z) : list Chunk :=
  planChunksWith (Z.to_nat (calculateConcurrency fileSize)) fileSize.

(** Byte offset [p] lies in the inclusive span of [c]. *)
Definition in_chunk (p : Z) (c : Chunk) : Prop := Start c <= p <= End c.

Definition contiguous (l : list Chunk) : Prop :=
  forall i a b, l !! i = Some a -> l !! S i = Some b -> Start b = End a + 1.

Definition non_overlapping (l : list Chunk) : Prop :=
  forall i j a b p,
    l !! i = Some a -> l !! j = Some b -> in_chunk p a -> in_chunk p b -> i = j.

Definition covers (l : list Chunk) (totalSize : Z) : Prop :=
  forall p, (exists c, c ∈ l /\ in_chunk p c) <-> 0 <= p <= totalSize - 1.


(** ** Strings: the functions of [strings] and [path/filepath] the code uses *)

(** ** UTF-8 and white space *)

(** [strings.TrimSpace] works on runes, not on bytes: past the ASCII range
    it decodes the string as [unicode/utf8] does and asks [unicode.IsSpace].
    A [string] here is the byte sequence of the Go string. *)

Definition byteOf (a : ascii) : Z := Z.of_nat (nat_of_ascii a).

(** [s[i]]; no index used below is out of range. *)
Definition byteIndex (s : string) (i : Z) : Z :=
  match String.get (Z.to_nat i) s with
  | Some a => byteOf a
  | None => 0
  end.

(** [s[i:j]] *)
Definition slice_string (s : string) (i j : Z) : string :=
  String.substring (Z.to_nat i) (Z.to_nat (j - i)) s.

Definition RuneError : Z := 0xFFFD.
Definition RuneSelf : Z := 0x80.
Definition UTFMax : Z := 4.

(** The table [utf8.first]: what the first byte of a sequence says about
    it.  The low three bits are the length of the sequence, the high four
    index [acceptRanges]; [0xF0] marks an ASCII byte and [0xF1] a byte that
    starts no sequence. *)
Definition first (b : Z) : Z :=
  if b <? 0x80 then 0xF0
  else if b <? 0xC2 then 0xF1
  else if b <? 0xE0 then 0x02
  else if b =? 0xE0 then 0x13
  else if b <? 0xED then 0x03
  else if b =? 0xED then 0x23
  else if b <? 0xF0 then 0x03
  else if b =? 0xF0 then 0x34
  else if b <? 0xF4 then 0x04
  else if b =? 0xF4 then 0x44
  else 0xF1.

(** [utf8.acceptRanges]: the values the second byte may take. *)
Definition acceptRanges (i : Z) : Z * Z :=
  if i =? 1 then (0xA0, 0xBF)
  else if i =? 2 then (0x80, 0x9F)
  else if i =? 3 then (0x90, 0xBF)
  else if i =? 4 then (0x80, 0x8F)
  else (0x80, 0xBF).

(** [utf8.DecodeRuneInString]: the first rune of [s] and its width in
    bytes; [(RuneError, 1)] for a sequence that is not valid UTF-8 and
    [(RuneError, 0)] for the empty string. *)
Definition DecodeRuneInString (s : string) : Z * nat :=
  let n := Z.of_nat (String.length s) in
  if n <? 1 then (RuneError, 0%nat)
  else
    let s0 := byteIndex s 0 in
    let x := first s0 in
    if 0xF0 <=? x then ((if Z.testbit x 0 then RuneError else s0), 1%nat)
    else
      let sz := Z.land x 7 in
      let accept := acceptRanges (Z.shiftr x 4) in
      if n <? sz then (RuneError, 1%nat)
      else
        let s1 := byteIndex s 1 in
        if (s1 <? accept.1) || (accept.2 <? s1) then (RuneError, 1%nat)
        else if sz <=? 2 then
          (Z.lor (Z.shiftl (Z.land s0 0x1F) 6) (Z.land s1 0x3F), 2%nat)
        else
          let s2 := byteIndex s 2 in
          if (s2 <? 0x80) || (0xBF <? s2) then (RuneError, 1%nat)
          else if sz <=? 3 then
            (Z.lor (Z.lor (Z.shiftl (Z.land s0 0x0F) 12)
                          (Z.shiftl (Z.land s1 0x3F) 6))
                   (Z.land s2 0x3F), 3%nat)
          else
            let s3 := byteIndex s 3 in
            if (s3 <? 0x80) || (0xBF <? s3) then (RuneError, 1%nat)
            else
              (Z.lor (Z.lor (Z.lor (Z.shiftl (Z.land s0 0x07) 18)
                                   (Z.shiftl (Z.land s1 0x3F) 12))
                            (Z.shiftl (Z.land s2 0x3F) 6))
                     (Z.land s3 0x3F), 4%nat).

(** [utf8.RuneStart]: the byte is not a continuation byte. *)
Definition RuneStart (b : Z) : bool := negb (Z.land b 0xC0 =? 0x80).

(** The loop [for start--; start >= lim; start--] of
    [utf8.DecodeLastRuneInString], which stops at a byte that can start a
    rune; [rounds] is the number of indices from [start] down to [lim]. *)
Fixpoint scanBack (s : string) (rounds : nat) (start : Z) : Z :=
  match rounds with
  | O => start
  | S rounds' =>
      if RuneStart (byteIndex s start) then start
      else scanBack s rounds' (start - 1)
  end.

(** [utf8.DecodeLastRuneInString]: the last rune of [s] and its width. *)
Definition DecodeLastRuneInString (s : string) : Z * nat :=
  let end_ := Z.of_nat (String.length s) in
  if end_ =? 0 then (RuneError, 0%nat)
  else
    let r := byteIndex s (end_ - 1) in
    if r <? RuneSelf then (r, 1%nat)
    else
      let lim := Z.max 0 (end_ - UTFMax) in
      let start := scanBack s (Z.to_nat (end_ - 2 - lim + 1)) (end_ - 2) in
      let start := Z.max 0 start in
      let '(r, size) := DecodeRuneInString (slice_string s start end_) in
      if start + Z.of_nat size =? end_ then (r, size) else (RuneError, 1%nat).

(** [unicode.IsSpace]: the Latin-1 white space by cases, the rest from the
    table [White_Space]. *)
Definition IsSpace (r : Z) : bool :=
  if r <=? 0xFF then
    ((0x09 <=? r) && (r <=? 0x0D)) || (r =? 0x20) || (r =? 0x85) || (r =? 0xA0)
  else
    (r =? 0x1680) || ((0x2000 <=? r) && (r <=? 0x200A)) || (r =? 0x2028)
    || (r =? 0x2029) || (r =? 0x202F) || (r =? 0x205F) || (r =? 0x3000).

(** [strings.TrimLeftFunc]: the string from its first rune that does not
    satisfy [f] on; [skip] counts the bytes left of the rune just decoded. *)
Fixpoint trimLeftRunes (f : Z -> bool) (skip : nat) (s : string) : string :=
  match s with
  | EmptyString => EmptyString
  | String _ rest =>
      match skip with
      | S skip' => trimLeftRunes f skip' rest
      | O =>
          let '(r, size) := DecodeRuneInString s in
          if f r then trimLeftRunes f (size - 1) rest else s
      end
  end.

Definition TrimLeftFunc (s : string) (f : Z -> bool) : string :=
  trimLeftRunes f 0 s.

(** [strings.lastIndexFunc(s, f, false)]: the index of the last rune that
    does not satisfy [f], or -1; [rs] is [s[0:i]] read backwards. *)
Fixpoint lastIndexRunes (f : Z -> bool) (skip : nat) (rs : list ascii) : Z :=
  match rs with
  | [] => -1
  | _ :: rest =>
      match skip with
      | S skip' => lastIndexRunes f skip' rest
      | O =>
          let '(r, size) :=
            DecodeLastRuneInString (string_of_list_ascii (rev rs)) in
          if f r then lastIndexRunes f (size - 1) rest
          else Z.of_nat (length rs) - Z.of_nat size
      end
  end.

Definition lastIndexFunc (s : string) (f : Z -> bool) : Z :=
  lastIndexRunes f 0 (rev (list_ascii_of_string s)).

(** [strings.TrimRightFunc] *)
Definition TrimRightFunc (s : string) (f : Z -> bool) : string :=
  let i := lastIndexFunc s f in
  let i :=
    if (0 <=? i) && (RuneSelf <=? byteIndex s i) then
      i + Z.of_nat (DecodeRuneInString
                      (slice_string s i (Z.of_nat (String.length s)))).2
    else i + 1 in
  slice_string s 0 i.

(** [strings.TrimFunc] *)
Definition TrimFunc (s : string) (f : Z -> bool) : string :=
  TrimRightFunc (TrimLeftFunc s f) f.

(** The table [strings.asciiSpace]. *)
Definition asciiSpace (c : Z) : bool :=
  (c =? 0x09) || (c =? 0x0A) || (c =? 0x0B) || (c =? 0x0C) || (c =? 0x0D)
  || (c =? 0x20).

(** The second loop of [strings.TrimSpace], from the end of [s[start:]]
    (given backwards) down: ASCII white space is dropped, and at a byte past
    ASCII the rest is left to [TrimRightFunc]. *)
Fixpoint trimSpaceStop (rs : list ascii) : string :=
  match rs with
  | [] => EmptyString
  | a :: rest =>
      let c := byteOf a in
      if RuneSelf <=? c then
        TrimRightFunc (string_of_list_ascii (rev rs)) IsSpace
      else if asciiSpace c then trimSpaceStop rest
      else string_of_list_ascii (rev rs)
  end.

(** [strings.TrimSpace]: the first loop drops ASCII white space from the
    front and leaves the rest to [TrimFunc] at a byte past ASCII. *)
Fixpoint TrimSpace (s : string) : string :=
  match s with
  | EmptyString => EmptyString
  | String a rest =>
      let c := byteOf a in
      if RuneSelf <=? c then TrimFunc s IsSpace
      else if asciiSpace c then TrimSpace rest
      else trimSpaceStop (rev (list_ascii_of_string s))
  end.

Local Open Scope string_scope.

(** [strings.Split(s, sep)] for a one-byte separator: every occurrence
    splits, so the result has one more element than there are separators. *)
Fixpoint Split (s : string) (sep : ascii) : list string :=
  match s with
  | EmptyString => [EmptyString]
  | String a rest =>
      match Split rest sep with
      | [] => [String a EmptyString]
      | x :: xs => if Ascii.eqb a sep then EmptyString :: x :: xs
                   else String a x :: xs
      end
  end.

(** The text before and after the first occurrence of [sep], if any. *)
Fixpoint cut (s : string) (sep : ascii) : option (string * string) :=
  match s with
  | EmptyString => None
  | String a rest =>
      if Ascii.eqb a sep then Some (EmptyString, rest)
      else match cut rest sep with
           | Some (before, after) => Some (String a before, after)
           | None => None
           end
  end.

(** [strings.SplitN(s, sep, 2)]. *)
Definition SplitN2 (s : string) (sep : ascii) : list string :=
  match cut s sep with
  | Some (before, after) => [before; after]
  | None => [s]
  end.

(** [filepath.Base] with [/] as the separator. *)
Fixpoint stripTrailingSlashes (s : string) : string :=
  match s with
  | EmptyString => EmptyString
  | String a rest =>
      match stripTrailingSlashes rest with
      | EmptyString => if Ascii.eqb a "/" then EmptyString else String a EmptyString
      | t => String a t
      end
  end.

Fixpoint lastElement (s : string) : string :=
  match s with
  | EmptyString => EmptyString
  | String a rest =>
      match cut rest "/" with
      | Some _ => lastElement rest
      | None => if Ascii.eqb a "/" then rest else s
      end
  end.

Definition Base (path : string) : string :=
  if String.eqb path "" then "."
  else
    let p := lastElement (stripTrailingSlashes path) in
    if String.eqb p "" then "/" else p.

(** ** HTTP headers, requests and responses *)

(** [textproto.CanonicalMIMEHeaderKey]: a key made of token bytes only has
    its first letter and every letter after a hyphen in upper case and the
    others in lower case; any other key is left as it is. *)
Definition isUpper (a : ascii) : bool :=
  let n := nat_of_ascii a in ((65 <=? n) && (n <=? 90))%nat.
Definition isLower (a : ascii) : bool :=
  let n := nat_of_ascii a in ((97 <=? n) && (n <=? 122))%nat.
Definition isDigit (a : ascii) : bool :=
  let n := nat_of_ascii a in ((48 <=? n) && (n <=? 57))%nat.

Definition validHeaderFieldByte (a : ascii) : bool :=
  isUpper a || isLower a || isDigit a ||
  existsb (Ascii.eqb a)
    ["!"; "#"; "$"; "%"; "&"; "'"; "*"; "+"; "-"; "."; "^"; "_"; "`"; "|"; "~"]%char.

Fixpoint allBytes (p : ascii -> bool) (s : string) : bool :=
  match s with
  | EmptyString => true
  | String a rest => p a && allBytes p rest
  end.

Definition toUpper (a : ascii) : ascii :=
  if isLower a then ascii_of_nat (nat_of_ascii a - 32) else a.
Definition toLower (a : ascii) : ascii :=
  if isUpper a then ascii_of_nat (nat_of_ascii a + 32) else a.

Fixpoint canonicalize (upper : bool) (s : string) : string :=
  match s with
  | EmptyString => EmptyString
  | String a rest =>
      let c := if upper then toUpper a else toLower a in
      String c (canonicalize (Ascii.eqb c "-") rest)
  end.

Definition CanonicalMIMEHeaderKey (s : string) : string :=
  if allBytes validHeaderFieldByte s then canonicalize true s else s.

(** [http.Header] is [map[string][]string]. *)
Abbreviation Header := (gmap string (list string)).

(** [Header.Get]: the first value of the key, or the empty string. *)
Definition Header_Get (h : Header) (key : string) : string :=
  match h !! CanonicalMIMEHeaderKey key with
  | Some (v :: _) => v
  | _ => ""
  end.

(** [Header.Add] appends to the values the key already has. *)
Definition Header_Add (key value : string) (h : Header) : Header :=
  let k := CanonicalMIMEHeaderKey key in
  <[k := (default [] (h !! k) ++ [value])%list]> h.

(** [Header.Set] replaces them. *)
Definition Header_Set (key value : string) (h : Header) : Header :=
  <[CanonicalMIMEHeaderKey key := [value]]> h.

(** The loop both [downloadChunk] and [sequentialDownload] run over the
    [-h] string: split on commas, split each pair on its first colon, skip a
    pair without a colon, trim both halves and [Add] them. *)
Definition addPair (h : Header) (pair : string) : Header :=
  match SplitN2 pair ":" with
  | [key; value] => Header_Add (TrimSpace key) (TrimSpace value) h
  | _ => h
  end.

Definition applyHeaders (headers : string) (h : Header) : Header :=
  if String.eqb headers "" then h
  else fold_left addPair (Split headers ",") h.

(** ** Errors *)

Inductive Error : Type :=
| EOF                                  (* io.EOF *)
| ErrLib (msg : string)                (* an error made by a library or the OS *)
| ErrInvalidURL (cause : Error)        (* "无效URL: %v" *)
| ErrHead (cause : Error)              (* "HEAD请求失败: %v" *)
| ErrStatus (code : Z)                 (* "服务器返回状态码: %d" *)
| ErrCreateTmp (cause : Error)         (* "创建临时文件失败: %v" *)
| ErrChunkStatus (code : Z)            (* "无效的分块响应状态码: %d" *)
| ErrChunk (idx : nat) (cause : Error) (* "分块%d错误: %v" *)
| ErrRename (cause : Error).           (* "重命名文件失败: %v" *)

(** The text [err.Error()] gives, [%d] and [%v] expanded. *)
Fixpoint Error_string (e : Error) : string :=
  match e with
  | EOF => "EOF"
  | ErrLib msg => msg
  | ErrInvalidURL c => "无效URL: " +:+ Error_string c
  | ErrHead c => "HEAD请求失败: " +:+ Error_string c
  | ErrStatus code => "服务器返回状态码: " +:+ pretty code
  | ErrCreateTmp c => "创建临时文件失败: " +:+ Error_string c
  | ErrChunkStatus code => "无效的分块响应状态码: " +:+ pretty code
  | ErrChunk idx c =>
      "分块" +:+ pretty idx +:+ "错误: " +:+ Error_string c
  | ErrRename c => "重命名文件失败: " +:+ Error_string c
  end.

(** One call of [Body.Read(buf)]: the bytes it put in [buf] and its error.
    A body is the list of the results its successive [Read] calls give; once
    the list is used up, [Read] gives [0, io.EOF]. *)
Abbreviation ReadResult := (list byte * option Error)%type.

Record Request := {
  Method : string;
  URL : string;
  ReqHeader : Header
}.

Record Response := {
  StatusCode : Z;
  RespHeader : Header;
  ContentLength : Z;
  Body : list ReadResult
}.

Definition StatusOK : Z := 200.
Definition StatusPartialContent : Z := 206.

(** [Response.ContentLength] as net/http fills it in: the length the server
    declared, and -1 when the server declared none. *)
Definition declaredContentLength (declared : option Z) : Z :=
  match declared with
  | Some n => n
  | None => -1
  end.

(** [*url.URL]: what the code reads of it. *)
Record ParsedURL := {
  UrlString : string;   (* parsedURL.String() *)
  Path : string         (* parsedURL.Path *)
}.

Definition defaultOutputFilename : string := "index.html".

Definition getFilename (u : ParsedURL) : string :=
  let base := Base (Path u) in
  if String.eqb base "." || String.eqb base "/" then defaultOutputFilename
  else base.

(** ** The world outside the program *)

Local Open Scope list_scope.
Local Open Scope Z_scope.

(** What the libraries and the operating system answer.  The program is
    deterministic once these are fixed.  Closing a response body and the
    text of what is printed leave nothing the properties below depend on:
    the former is left out, the latter is the bare event [EvPrint]. *)
Record World := {
  (** [url.ParseRequestURI] *)
  ParseRequestURI : string -> Error + ParsedURL;
  (** the error of [http.NewRequest(method, url, nil)], if any *)
  NewRequest_err : string -> string -> option Error;
  (** [client.Do]: the transport and the server *)
  Do : Request -> Error + Response;
  (** the error of [os.Create(path)], if any *)
  Create_err : string -> option Error;
  (** the error of [os.Rename(old, new)], if any *)
  Rename_err : string -> string -> option Error;
  (** the error of [os.Remove(path)], if any *)
  Remove_err : string -> option Error;
  (** a failing [file.WriteAt(data, off)]: the number of bytes that were
      stored before the failure, and the error *)
  WriteAt_err : string -> Z -> list byte -> option (nat * Error);
  (** the same for [file.Write(data)] with the file position [pos] *)
  Write_err : string -> Z -> list byte -> option (nat * Error)
}.

(** What the program does to the outside, in the order it does it. *)
Inductive Event : Type :=
| EvDo (req : Request)
| EvPrint
| EvCreate (path : string) (err : option Error)
| EvWriteAt (path : string) (off : Z) (stored : list byte) (err : option Error)
| EvWrite (path : string) (pos : Z) (stored : list byte) (err : option Error)
| EvAdd (n : Z)
| EvGoShowProgress
| EvCancel
| EvClose (path : string)
| EvRename (old new : string) (err : option Error)
| EvRemove (path : string) (err : option Error).

(** A file is the bytes it holds by offset; an offset never written is a
    hole.  An open file is named by the path it was created at: the program
    renames or removes a file only after its last write to it.  [counter]
    is the [downloaded] variable of [downloadFile], which the fetchers share
    through a pointer. *)
Record State := {
  files : gmap string (gmap Z byte);
  counter : Z;
  trace : list Event
}.

Definition log (ev : Event) (st : State) : State :=
  {| files := files st; counter := counter st; trace := (trace st ++ [ev])%list |}.

Definition setFiles (f : gmap string (gmap Z byte)) (st : State) : State :=
  {| files := f; counter := counter st; trace := trace st |}.

Definition setCounter (c : Z) (st : State) : State :=
  {| files := files st; counter := c; trace := trace st |}.

(** [os.Create]: creates the file or truncates it. *)
Definition os_Create (w : World) (path : string) (st : State)
  : option Error * State :=
  match Create_err w path with
  | Some e => (Some e, log (EvCreate path (Some e)) st)
  | None => (None, log (EvCreate path None) (setFiles (<[path := ∅]> (files st)) st))
  end.

Definition noSuchFile : Error := ErrLib "no such file or directory".

(** [os.Rename]. *)
Definition os_Rename (w : World) (old new : string) (st : State)
  : option Error * State :=
  match Rename_err w old new with
  | Some e => (Some e, log (EvRename old new (Some e)) st)
  | None =>
      match files st !! old with
      | None => (Some noSuchFile, log (EvRename old new (Some noSuchFile)) st)
      | Some content =>
          (None, log (EvRename old new None)
                     (setFiles (<[new := content]> (delete old (files st))) st))
      end
  end.

(** [os.Remove]. *)
Definition os_Remove (w : World) (path : string) (st : State)
  : option Error * State :=
  match Remove_err w path with
  | Some e => (Some e, log (EvRemove path (Some e)) st)
  | None =>
      match files st !! path with
      | None => (Some noSuchFile, log (EvRemove path (Some noSuchFile)) st)
      | Some _ => (None, log (EvRemove path None) (setFiles (delete path (files st)) st))
      end
  end.

(** Store [data] from offset [off] on. *)
Fixpoint storeBytes (off : Z) (data : list byte) (content : gmap Z byte)
  : gmap Z byte :=
  match data with
  | [] => content
  | b :: rest => storeBytes (off + 1) rest (<[off := b]> content)
  end.

Definition negativeOffset (fd : string) : Error :=
  ErrLib ("writeat " +:+ fd +:+ ": negative offset").

(** [file.WriteAt(data, off)]: refused outright for a negative offset;
    otherwise all of [data] is stored, or the part of it the failure
    left. *)
Definition File_WriteAt (w : World) (fd : string) (data : list byte) (off : Z)
    (st : State) : option Error * State :=
  if off <? 0 then
    (Some (negativeOffset fd), log (EvWriteAt fd off [] (Some (negativeOffset fd))) st)
  else
    match WriteAt_err w fd off data with
    | Some (k, e) =>
        let stored := take k data in
        (Some e, log (EvWriteAt fd off stored (Some e))
                     (setFiles (alter (storeBytes off stored) fd (files st)) st))
    | None =>
        (None, log (EvWriteAt fd off data None)
                   (setFiles (alter (storeBytes off data) fd (files st)) st))
    end.

(** [file.Write(data)] at the file position [pos]. *)
Definition File_Write (w : World) (fd : string) (data : list byte) (pos : Z)
    (st : State) : option Error * State :=
  match Write_err w fd pos data with
  | Some (k, e) =>
      let stored := take k data in
      (Some e, log (EvWrite fd pos stored (Some e))
                   (setFiles (alter (storeBytes pos stored) fd (files st)) st))
  | None =>
      (None, log (EvWrite fd pos data None)
                 (setFiles (alter (storeBytes pos data) fd (files st)) st))
  end.

(** [atomic.AddInt64(downloaded, n)]: one indivisible step. *)
Definition atomic_AddInt64 (n : Z) (st : State) : State :=
  log (EvAdd n) (setCounter (Int64.add (counter st) n) st).

(** ** [checkRangeSupport] *)

(** The request the probe sends.  The function has no parameter for the
    [-h] string: the request carries no header.  The code drops the error of
    [http.NewRequest] here and in [downloadChunk]; the URL has passed
    [url.ParseRequestURI] by then and the request is taken to be built. *)
Definition probeRequest (url : string) : Request :=
  {| Method := "HEAD"; URL := url; ReqHeader := ∅ |}.

Definition checkRangeSupport (w : World) (url : string) (st : State)
  : (bool * Z * option Error) * State :=
  let req := probeRequest url in
  let st := log (EvDo req) st in
  match Do w req with
  | inl err => ((false, 0, Some (ErrHead err)), st)
  | inr resp =>
      if negb (StatusCode resp =? StatusOK) then
        ((false, 0, Some (ErrStatus (StatusCode resp))), st)
      else
        ((String.eqb (Header_Get (RespHeader resp) "Accept-Ranges") "bytes",
          ContentLength resp, None), st)
  end.

(** ** [downloadChunk] *)

(** [fmt.Sprintf("bytes=%d-%d", chunk.Start, chunk.End)] *)
Definition rangeValue (chunk : Chunk) : string :=
  "bytes=" +:+ pretty (Start chunk) +:+ "-" +:+ pretty (End chunk).

Definition chunkRequest (url : string) (chunk : Chunk) (headers : string)
  : Request :=
  {| Method := "GET"; URL := url;
     ReqHeader := applyHeaders headers (Header_Set "Range" (rangeValue chunk) ∅) |}.

(** The [for] loop over [resp.Body.Read(buf)].  [current] is the local
    variable of that name. *)
Fixpoint chunkLoop (w : World) (fd : string) (body : list ReadResult)
    (current : Z) (st : State) : option Error * State :=
  match body with
  | [] => (None, st)
  | (data, err) :: rest =>
      let n := Z.of_nat (length data) in
      let '(writeErr, current, st) :=
        if 0 <? n then
          match File_WriteAt w fd data current st with
          | (Some e, st) => (Some e, current, st)
          | (None, st) => (None, Int64.add current n, atomic_AddInt64 n st)
          end
        else (None, current, st) in
      match writeErr with
      | Some e => (Some e, st)
      | None =>
          match err with
          | Some EOF => (None, st)
          | Some e => (Some e, st)
          | None => chunkLoop w fd rest current st
          end
      end
  end.

Definition downloadChunk (w : World) (url : string) (chunk : Chunk)
    (fd : string) (headers : string) (st : State) : option Error * State :=
  let req := chunkRequest url chunk headers in
  let st := log (EvDo req) st in
  match Do w req with
  | inl err => (Some err, st)
  | inr resp =>
      if negb (StatusCode resp =? StatusPartialContent) then
        (Some (ErrChunkStatus (StatusCode resp)), st)
      else chunkLoop w fd (Body resp) (Start chunk) st
  end.

(** ** [sequentialDownload] *)

Definition sequentialRequest (parsedURL : ParsedURL) (headers : string)
  : Request :=
  {| Method := "GET"; URL := UrlString parsedURL;
     ReqHeader := applyHeaders headers ∅ |}.

(** The [for] loop of [sequentialDownload]; [pos] is the position of the
    file handle, [downloaded] the local variable of that name.  The loop
    has one variable [err] for both calls: [_, err = file.Write(buf[:n])]
    puts the result of the write where the result of [Read] was, so after a
    write that succeeded [err] is [nil] whatever [Read] had returned with
    the data, and the loop reads again.  The end of the list stands for a
    [Read] that returns no data and [io.EOF]. *)
Fixpoint sequentialLoop (w : World) (fd : string) (verbose : bool)
    (body : list ReadResult) (pos downloaded : Z) (st : State)
  : option Error * State :=
  match body with
  | [] => (None, st)
  | (data, err) :: rest =>
      let n := Z.of_nat (length data) in
      let '(writeFailed, err, pos, downloaded, st) :=
        if 0 <? n then
          match File_Write w fd data pos st with
          | (Some e, st) => (true, Some e, pos, downloaded, st)
          | (None, st) =>
              (false, None, pos + n, Int64.add downloaded n,
               if verbose then log EvPrint st else st)
          end
        else (false, err, pos, downloaded, st) in
      if writeFailed then (err, st)
      else
        match err with
        | Some EOF => (None, st)
        | Some e => (Some e, st)
        | None => sequentialLoop w fd verbose rest pos downloaded st
        end
  end.

Definition sequentialDownload (w : World) (parsedURL : ParsedURL)
    (filename headers : string) (verbose : bool) (st : State)
  : option Error * State :=
  match NewRequest_err w "GET" (UrlString parsedURL) with
  | Some e => (Some e, st)
  | None =>
      let req := sequentialRequest parsedURL headers in
      let st := log (EvDo req) st in
      match Do w req with
      | inl err => (Some err, st)
      | inr resp =>
          if negb (StatusCode resp =? StatusOK) then
            (Some (ErrStatus (StatusCode resp)), st)
          else
            match os_Create w filename st with
            | (Some e, st) => (Some e, st)
            | (None, st) =>
                let '(r, st) := sequentialLoop w filename verbose (Body resp) 0 0 st in
                (r, log (EvClose filename) st)
            end
      end
  end.

(** ** [downloadFile] *)

(** The fetcher goroutines, each run to its end in the order [sched] gives
    (a schedule of the program names every chunk index once).  [errChan] is
    the one-slot channel: a failing fetcher puts its error there if the slot
    is free and drops it otherwise, and calls [cancel()] either way. *)
Fixpoint runFetchers (w : World) (url fd headers : string) (chunks : list Chunk)
    (sched : list nat) (errChan : option Error) (st : State)
  : option Error * State :=
  match sched with
  | [] => (errChan, st)
  | idx :: rest =>
      match chunks !! idx with
      | None => runFetchers w url fd headers chunks rest errChan st
      | Some c =>
          match downloadChunk w url c fd headers st with
          | (Some err, st) =>
              let errChan :=
                match errChan with
                | None => Some (ErrChunk idx err)
                | Some first => Some first
                end in
              runFetchers w url fd headers chunks rest errChan (log EvCancel st)
          | (None, st) => runFetchers w url fd headers chunks rest errChan st
          end
      end
  end.

(** From [ctx, cancel := context.WithCancel(...)] to the last [return]:
    the part of [downloadFile] the deferred calls wrap.  Of [showProgress]
    only its start is kept; it reads the counter and prints. *)
Definition chunkedTransfer (w : World) (urlLink filename tmpFile headers : string)
    (verbose : bool) (fileSize : Z) (sched : list nat) (st : State)
  : option Error * State :=
  let st := setCounter 0 st in
  let chunks := planChunks fileSize in
  let st := if verbose then log EvGoShowProgress st else st in
  let '(received, st) := runFetchers w urlLink tmpFile headers chunks sched None st in
  match received with
  | Some err => (Some err, st)
  | None =>
      match os_Rename w tmpFile filename st with
      | (Some e, st) => (Some (ErrRename e), st)
      | (None, st) => (None, st)
      end
  end.

Definition downloadFile (w : World) (urlLink filename headers : string)
    (verbose : bool) (sched : list nat) (st : State) : option Error * State :=
  match ParseRequestURI w urlLink with
  | inl err => (Some (ErrInvalidURL err), st)
  | inr parsedURL =>
      let filename :=
        if String.eqb filename "" then getFilename parsedURL else filename in
      let '((supportRange, fileSize, err), st) := checkRangeSupport w urlLink st in
      match err with
      | Some e => (Some e, st)
      | None =>
          let st := log EvPrint st in
          if negb supportRange then
            sequentialDownload w parsedURL filename headers verbose st
          else
            let tmpFile := filename +:+ ".tmp" in
            match os_Create w tmpFile st with
            | (Some e, st) => (Some (ErrCreateTmp e), st)
            | (None, st) =>
                let '(r, st) :=
                  chunkedTransfer w urlLink filename tmpFile headers verbose
                                  fileSize sched st in
                (* the deferred calls, last registered first *)
                let st := log EvCancel st in
                let st := log (EvClose tmpFile) st in
                let '(_, st) := os_Remove w tmpFile st in
                (r, st)
            end
      end
  end.

(** ** Reading traces *)

(** The events a run added to the trace it started from. *)
Definition newEvents (before after : State) : list Event :=
  drop (length (trace before)) (trace after).

(** The bytes the successful [WriteAt] calls among [evs] stored. *)
Fixpoint written (evs : list Event) : Z :=
  match evs with
  | [] => 0
  | EvWriteAt _ _ stored None :: rest => Z.of_nat (length stored) + written rest
  | _ :: rest => written rest
  end.

(** Event [ev] stores a byte at offset [p] of file [fd]. *)
Definition storesAt (fd : string) (p : Z) (ev : Event) : Prop :=
  match ev with
  | EvWriteAt path off stored _ =>
      path = fd /\ off <= p < off + Z.of_nat (length stored)
  | _ => False
  end.

(** Event [ev] is a call of [os.Create] on [path]. *)
Definition createsPath (path : string) (ev : Event) : bool :=
  match ev with
  | EvCreate p _ => String.eqb p path
  | _ => false
  end.

(** The requests sent, in order. *)
Fixpoint requestsSent (evs : list Event) : list Request :=
  match evs with
  | [] => []
  | EvDo req :: rest => req :: requestsSent rest
  | _ :: rest => requestsSent rest
  end.

(** The bytes a body delivers before its first error. *)
Fixpoint delivered (body : list ReadResult) : list byte :=
  match body with
  | [] => []
  | (data, None) :: rest => (data ++ delivered rest)%list
  | (data, Some _) :: _ => data
  end.

(** [Read] fills at most the 32 KiB buffer it is given. *)
Definition bufferSize : Z := 32 * 1024.

Definition fitsBuffer (body : list ReadResult) : Prop :=
  Forall (fun r : ReadResult => Z.of_nat (length r.1) <= bufferSize) body.

(** The output name [downloadFile] settles on. *)
Definition outputName (w : World) (urlLink filename : string) : string :=
  match ParseRequestURI w urlLink with
  | inr parsedURL =>
      if String.eqb filename "" then getFilename parsedURL else filename
  | inl _ => filename
  end.

(** ** Example worlds *)

Definition emptyState : State := {| files := ∅; counter := 0; trace := [] |}.

Definition sampleContent : list byte :=
  [Byte.x30; Byte.x31; Byte.x32; Byte.x33; Byte.x34; Byte.x35; Byte.x36; Byte.x37].

Definition slice (c : Chunk) (content : list byte) : list byte :=
  take (Z.to_nat (End c - Start c + 1)) (drop (Z.to_nat (Start c)) content).

(** A server holding [content].  It answers the probe with status 200, the
    [Accept-Ranges] value [accept] (none if empty) and the declared length;
    a ranged GET for a planned chunk with 206 and [extra] bytes after the
    slice asked for, with 416 if the span is empty and with 500 if the chunk
    starts at an offset listed in [failing]; any other GET with
    [plainStatus] and the whole content. *)
Definition sampleServer (accept : string) (declared : option Z)
    (content extra : list byte) (failing : list Z) (plainStatus : Z)
    (req : Request) : Error + Response :=
  let reply status body :=
    inr {| StatusCode := status; RespHeader := ∅;
           ContentLength := Z.of_nat (length (delivered body)); Body := body |} in
  if String.eqb (Method req) "HEAD" then
    inr {| StatusCode := 200;
           RespHeader := if String.eqb accept "" then ∅
                         else {[ "Accept-Ranges" := [accept] ]};
           ContentLength := declaredContentLength declared;
           Body := [] |}
  else
    match ReqHeader req !! "Range" with
    | Some (v :: _) =>
        match find (fun c => String.eqb (rangeValue c) v)
                   (planChunks (declaredContentLength declared)) with
        | Some c =>
            if End c <? Start c then reply 416 []
            else if existsb (Z.eqb (Start c)) failing then reply 500 []
            else reply 206 [((slice c content ++ extra)%list, None)]
        | None => reply 416 []
        end
    | _ => reply plainStatus [(content, None)]
    end.

Definition sampleWorld (server : Request -> Error + Response)
    (renameErr : option Error) : World :=
  {| ParseRequestURI := fun s => inr {| UrlString := s; Path := "/file.bin" |};
     NewRequest_err := fun _ _ => None;
     Do := server;
     Create_err := fun _ => None;
     Rename_err := fun _ _ => renameErr;
     Remove_err := fun _ => None;
     WriteAt_err := fun _ _ _ => None;
     Write_err := fun _ _ _ => None |}.

(** A well-behaved server with range support. *)
Definition rangeWorld : World :=
  sampleWorld (sampleServer "bytes" (Some 8) sampleContent [] [] 200) None.

(** The same, with the second and fourth chunk request answered by 500. *)
Definition failingWorld : World :=
  sampleWorld (sampleServer "bytes" (Some 8) sampleContent [] [2; 6] 200) None.

(** The same as [rangeWorld], on a file system that refuses the rename. *)
Definition renameFailWorld : World :=
  sampleWorld (sampleServer "bytes" (Some 8) sampleContent [] [] 200)
              (Some (ErrLib "permission denied")).

(** A server without range support. *)
Definition plainWorld : World :=
  sampleWorld (sampleServer "" (Some 8) sampleContent [] [] 200) None.

(** A server without range support whose GET answers 404. *)
Definition notFoundWorld : World :=
  sampleWorld (sampleServer "" (Some 8) sampleContent [] [] 404) None.

(** A server with range support and an empty resource. *)
Definition emptyFileWorld : World :=
  sampleWorld (sampleServer "bytes" (Some 0) [] [] [] 200) None.

(** A server that declares no content length. *)
Definition noLengthWorld : World :=
  sampleWorld (sampleServer "bytes" None sampleContent [] [] 200) None.

(** A server that sends one byte more than each range asks for. *)
Definition overlongWorld : World :=
  sampleWorld (sampleServer "bytes" (Some 8) sampleContent [Byte.x21] [] 200) None.

Definition sampleURL : string := "http://example.com/file.bin".

(** ** Classes of events *)

(** [st'] continues the trace of [st] with events that all satisfy [P]. *)
Definition adds (P : Event -> Prop) (st st' : State) : Prop :=
  exists evs, trace st' = trace st ++ evs /\ Forall P evs.

(** What the sequential path may do when it writes to [filename]. *)
Definition sequentialEvent (filename : string) (ev : Event) : Prop :=
  match ev with
  | EvDo _ | EvPrint => True
  | EvCreate p _ | EvWrite p _ _ _ | EvClose p => p = filename
  | _ => False
  end.

(** What the fetchers may do when they write to [fd]. *)
Definition fetcherEvent (fd : string) (ev : Event) : Prop :=
  match ev with
  | EvDo _ | EvAdd _ | EvCancel => True
  | EvWriteAt p _ _ _ => p = fd
  | _ => False
  end.

(** The byte file [fd] holds at offset [p], if any. *)
Definition byteAt (st : State) (fd : string) (p : Z) : option byte :=
  files st !! fd ≫= fun content => content !! p.

(** The shapes the trace of the read loop of [downloadChunk] can have when
    the loop is entered with [current = cur] and no [Read] gives more than
    [bound] bytes: it is empty, or a single failed [WriteAt] at [cur], or a
    successful [WriteAt] at [cur] followed at once by the atomic add of its
    size and by the trace of the loop entered with [cur] moved on. *)
Inductive loopTrace (fd : string) (bound : Z) : Z -> list Event -> Prop :=
| loop_end cur :
    loopTrace fd bound cur []
| loop_write_failed cur stored e :
    loopTrace fd bound cur [EvWriteAt fd cur stored (Some e)]
| loop_write cur data evs :
    0 <= cur ->
    0 < Z.of_nat (length data) <= bound ->
    loopTrace fd bound (Int64.add cur (Z.of_nat (length data))) evs ->
    loopTrace fd bound cur
      (EvWriteAt fd cur data None :: EvAdd (Z.of_nat (length data)) :: evs).

(** The increments the read loop of [downloadChunk] gets out of a body:
    the data of every read that brings some, up to and including the first
    read that reports an error or [io.EOF]. *)
Fixpoint increments (body : list ReadResult) : list (list byte) :=
  match body with
  | [] => []
  | (data, err) :: rest =>
      ((if 0 <? Z.of_nat (length data) then [data] else []) ++
       match err with
       | None => increments rest
       | Some _ => []
       end)%list
  end.

(** What is to happen to them, in the words of the specification: each
    increment of [n] bytes is written at [chunkStart] plus the number of
    bytes already written for this chunk, and then the progress counter is
    increased by [n]. *)
Fixpoint incrementTrace (fd : string) (chunkStart bytesWritten : Z)
    (incs : list (list byte)) : list Event :=
  match incs with
  | [] => []
  | data :: rest =>
      let n := Z.of_nat (length data) in
      EvWriteAt fd (chunkStart + bytesWritten) data None :: EvAdd n ::
      incrementTrace fd chunkStart (bytesWritten + n) rest
  end.

(** A state in which the temporary file has just been created. *)
Definition tmpState : State :=
  {| files := {[ "file.bin.tmp" := ∅ ]}; counter := 0; trace := [] |}.

(** What the chunked transfer may do between the creation of [tmp] and the
    deferred calls. *)
Definition transferEvent (tmp filename : string) (ev : Event) : Prop :=
  match ev with
  | EvGoShowProgress => True
  | EvRename old new _ => old = tmp /\ new = filename
  | _ => fetcherEvent tmp ev
  end.

(** What the coordinator can receive from the channel: nothing, or the
    failure of a chunk. *)
Definition chunkFailure (r : option Error) : Prop :=
  match r with
  | None => True
  | Some e => exists idx cause, e = ErrChunk idx cause
  end.

(** What [downloadChunk] returns for the chunk of index [i]: the worlds of
    this model answer by the arguments of a call, so it is the same in every
    state. *)
Definition fetchOutcome (w : World) (url fd headers : string)
    (chunks : list Chunk) (i : nat) : option Error :=
  chunks !! i ≫= fun c => (downloadChunk w url c fd headers emptyState).1.

(** The failure of the first fetcher in [sched] that fails, wrapped as the
    goroutine wraps it. *)
Fixpoint firstFailure (outcome : nat -> option Error) (sched : list nat)
  : option Error :=
  match sched with
  | [] => None
  | i :: rest =>
      match outcome i with
      | Some e => Some (ErrChunk i e)
      | None => firstFailure outcome rest
      end
  end.

(** ** The goroutines of [downloadFile], step by step *)

(** Lines 128-147: the loop that starts one goroutine per chunk, the
    goroutines' code around [downloadChunk], and the coordinator's
    [wg.Wait()], [close(errChan)] and [<-errChan].  A scheduler picks which
    goroutine makes the next step; [outcome i] is what [downloadChunk]
    returns for chunk [i]. *)
Module Coordination.

(** Where the goroutine of one chunk stands. *)
Inductive FetcherPc : Type :=
| FNotStarted
| FDownload                (* inside downloadChunk *)
| FSelect (err : Error)    (* at the select, holding the wrapped error *)
| FCancel                  (* at cancel() *)
| FExit                    (* at the deferred wg.Done() *)
| FDone.

(** Where the coordinator stands. *)
Inductive MainPc : Type :=
| MAdd (i : nat)           (* at the loop test, then wg.Add(1), of chunk i *)
| MGo (i : nat)            (* at the go statement of chunk i *)
| MWait                    (* in wg.Wait() *)
| MClose                   (* at close(errChan) *)
| MReceive                 (* at <-errChan *)
| MEvaluate (err : option Error)  (* at if err != nil, the outcome in hand *)
| MPanic.                  (* the process has panicked *)

(** What a step does, for the history of a run. *)
Inductive Label : Type :=
| LAdd (i : nat)
| LGo (i : nat)
| LLoopEnd
| LReturned (i : nat) (r : option Error)
| LSent (i : nat) (e : Error)
| LDropped (i : nat) (e : Error)
| LCancel (i : nat)
| LDone (i : nat)
| LWaitOver
| LClose
| LReceived (r : option Error)
| LPanic.

(** What the goroutines share, and where each of them stands. *)
Record CState := {
  main : MainPc;
  fetchers : list FetcherPc;
  errChan : option Error;    (* the one slot of the buffered channel *)
  closed : bool;             (* errChan has been closed *)
  cancelled : bool;          (* the shared context has been cancelled *)
  wg : Z;                    (* the WaitGroup counter *)
  history : list Label
}.

(** The goroutine the scheduler picks. *)
Inductive Actor : Type :=
| Main
| Fetcher (i : nat).

Definition init (n : nat) : CState :=
  {| main := MAdd 0; fetchers := replicate n FNotStarted; errChan := None;
     closed := false; cancelled := false; wg := 0; history := [] |}.

Definition setMain (pc : MainPc) (s : CState) : CState :=
  {| main := pc; fetchers := fetchers s; errChan := errChan s;
     closed := closed s; cancelled := cancelled s; wg := wg s;
     history := history s |}.

Definition setFetcher (i : nat) (pc : FetcherPc) (s : CState) : CState :=
  {| main := main s; fetchers := <[i := pc]> (fetchers s);
     errChan := errChan s; closed := closed s; cancelled := cancelled s;
     wg := wg s; history := history s |}.

Definition record (l : Label) (s : CState) : CState :=
  {| main := main s; fetchers := fetchers s; errChan := errChan s;
     closed := closed s; cancelled := cancelled s; wg := wg s;
     history := (history s ++ [l])%list |}.

Definition mainTo (pc : MainPc) (l : Label) (s : CState) : CState :=
  record l (setMain pc s).

Definition fetcherTo (i : nat) (pc : FetcherPc) (l : Label) (s : CState)
  : CState :=
  record l (setFetcher i pc s).

Definition setWg (z : Z) (s : CState) : CState :=
  {| main := main s; fetchers := fetchers s; errChan := errChan s;
     closed := closed s; cancelled := cancelled s; wg := z;
     history := history s |}.

Definition setErrChan (c : option Error) (s : CState) : CState :=
  {| main := main s; fetchers := fetchers s; errChan := c;
     closed := closed s; cancelled := cancelled s; wg := wg s;
     history := history s |}.

Definition setClosed (s : CState) : CState :=
  {| main := main s; fetchers := fetchers s; errChan := errChan s;
     closed := true; cancelled := cancelled s; wg := wg s;
     history := history s |}.

Definition setCancelled (s : CState) : CState :=
  {| main := main s; fetchers := fetchers s; errChan := errChan s;
     closed := closed s; cancelled := true; wg := wg s;
     history := history s |}.

Definition panic (s : CState) : CState := mainTo MPanic LPanic s.

(** One step of the coordinator; [None] when it is blocked or has
    finished. *)
Definition stepMain (n : nat) (s : CState) : option CState :=
  match main s with
  | MAdd i =>
      if (i <? n)%nat then Some (mainTo (MGo i) (LAdd i) (setWg (wg s + 1) s))
      else Some (mainTo MWait LLoopEnd s)
  | MGo i => Some (fetcherTo i FDownload (LGo i) (setMain (MAdd (S i)) s))
  | MWait => if wg s =? 0 then Some (mainTo MClose LWaitOver s) else None
  | MClose => Some (mainTo MReceive LClose (setClosed s))
  | MReceive =>
      match errChan s with
      | Some e => Some (mainTo (MEvaluate (Some e)) (LReceived (Some e))
                               (setErrChan None s))
      | None => if closed s then Some (mainTo (MEvaluate None) (LReceived None) s)
                else None
      end
  | MEvaluate _ => None
  | MPanic => None
  end.

(** One step of the goroutine of chunk [i].  The [select] has a [default]
    branch: it takes the send if the slot is free and falls through
    otherwise, so it is a step in either case; a send on a closed channel
    panics, and so does a negative WaitGroup counter. *)
Definition stepFetcher (outcome : nat -> option Error) (i : nat) (s : CState)
  : option CState :=
  match main s with
  | MPanic => None
  | _ =>
    match fetchers s !! i with
    | Some FDownload =>
        match outcome i with
        | Some err =>
            Some (fetcherTo i (FSelect (ErrChunk i err)) (LReturned i (Some err)) s)
        | None => Some (fetcherTo i FExit (LReturned i None) s)
        end
    | Some (FSelect e) =>
        if closed s then Some (panic s)
        else
          match errChan s with
          | None => Some (fetcherTo i FCancel (LSent i e) (setErrChan (Some e) s))
          | Some _ => Some (fetcherTo i FCancel (LDropped i e) s)
          end
    | Some FCancel => Some (fetcherTo i FExit (LCancel i) (setCancelled s))
    | Some FExit =>
        if wg s - 1 <? 0 then Some (panic s)
        else Some (fetcherTo i FDone (LDone i) (setWg (wg s - 1) s))
    | _ => None
    end
  end.

Definition step (n : nat) (outcome : nat -> option Error) (a : Actor)
    (s : CState) : option CState :=
  match a with
  | Main => stepMain n s
  | Fetcher i => stepFetcher outcome i s
  end.

(** The run a schedule gives; [None] if the schedule picks a goroutine
    that cannot move. *)
Fixpoint exec (n : nat) (outcome : nat -> option Error) (sched : list Actor)
    (s : CState) : option CState :=
  match sched with
  | [] => Some s
  | a :: rest =>
      match step n outcome a s with
      | Some s' => exec n outcome rest s'
      | None => None
      end
  end.








(** A schedule that starts every goroutine, lets each run to its end in
    the order [order], and then lets the coordinator finish. *)
Definition spawnAll (n : nat) : list Actor := replicate (2 * n + 1) Main.
Definition runToEnd (outcome : nat -> option Error) (i : nat) : list Actor :=
  replicate (match outcome i with Some _ => 4 | None => 2 end) (Fetcher i).

Definition sequentialSchedule (n : nat) (outcome : nat -> option Error)
    (order : list nat) : list Actor :=
  (spawnAll n ++ concat (map (runToEnd outcome) order)
     ++ [Main; Main; Main])%list.


End Coordination.

(** ** [formatSize] *)

(** The [for] loop of [formatSize]: [n] is divided by 1024 until it is
    below 1024, [div] and [exp] keep count.  An [int64] has 63 value bits
    and each round takes ten of them, so [fuel] is spent only if it was too
    small to begin with: the result is [None] then. *)
Fixpoint unitLoop (fuel : nat) (n div : Z) (exp : nat) : option (Z * nat) :=
  if 1024 <=? n then
    match fuel with
    | O => None
    | S fuel' => unitLoop fuel' (Int64.quot n 1024) (Int64.mul div 1024) (S exp)
    end
  else Some (div, exp).

(** What [formatSize] hands to [fmt.Sprintf].  [PlainBytes] is the text of
    ["%d B"].  [Scaled bytes div unit] stands for ["%.1f %ciB"] applied to
    [float64(bytes)/float64(div)] and the letter [unit]: the rendering of
    the floating-point quotient is left to [fmt]. *)
Inductive FormattedSize : Type :=
| PlainBytes (text : string)
| Scaled (bytes div : Z) (unit : ascii).

(** What became of a call: a value, a run-time panic (the index into
    ["KMGTPE"] out of range), or a loop cut short by its fuel. *)
Inductive FormatResult : Type :=
| Formatted (f : FormattedSize)
| IndexPanic
| OutOfFuel.

Definition formatSizeWith (fuel : nat) (bytes : Z) : FormatResult :=
  if bytes <? 1024 then Formatted (PlainBytes (pretty bytes +:+ " B"))
  else
    match unitLoop fuel (Int64.quot bytes 1024) 1024 0 with
    | None => OutOfFuel
    | Some (div, exp) =>
        match String.get exp "KMGTPE" with
        | Some unit => Formatted (Scaled bytes div unit)
        | None => IndexPanic
        end
    end.

Definition formatSize (bytes : Z) : FormatResult := formatSizeWith 64 bytes.

(** ** The content of files *)

(** File [path] exists and holds exactly the bytes [content], from offset 0
    on and nothing else. *)
Definition holds (st : State) (path : string) (content : list byte) : Prop :=
  is_Some (files st !! path) /\
  forall p : Z,
    byteAt st path p
    = if (0 <=? p) && (p <? Z.of_nat (length content))
      then content !! Z.to_nat p else None.

(** What the sequential loop makes of a body.  It writes the data of every
    read and reads on after each write, whatever came with the data; it
    stops at the first read that brings no data but an error or [io.EOF],
    or at the end of the body.  [sequentialBytes] is what it has written by
    then and [sequentialError] what it returns. *)
Fixpoint sequentialBytes (body : list ReadResult) : list byte :=
  match body with
  | [] => []
  | ([], Some _) :: _ => []
  | (data, _) :: rest => data ++ sequentialBytes rest
  end.

Fixpoint sequentialError (body : list ReadResult) : option Error :=
  match body with
  | [] => None
  | ([], Some EOF) :: _ => None
  | ([], Some e) :: _ => Some e
  | (_, _) :: rest => sequentialError rest
  end.

(** A body whose reads never bring data and an error (or [io.EOF]) in the
    same call. *)
Definition errorsComeAlone (body : list ReadResult) : Prop :=
  Forall (fun r : ReadResult => r.2 <> None -> r.1 = []) body.

(** The body ends in an error that is not [io.EOF]. *)
Fixpoint bodyError (body : list ReadResult) : option Error :=
  match body with
  | [] => None
  | (_, None) :: rest => bodyError rest
  | (_, Some EOF) :: _ => None
  | (_, Some e) :: _ => Some e
  end.

(** ** Text without a given byte *)

Fixpoint lacks (sep : ascii) (s : string) : bool :=
  match s with
  | EmptyString => true
  | String a rest => negb (Ascii.eqb a sep) && lacks sep rest
  end.

(** ** The chunks a schedule has run *)

(** Offset [p] lies in the span of a chunk whose index is in [sched]. *)
Definition coveredBy (chunks : list Chunk) (sched : list nat) (p : Z) : bool :=
  existsb (fun idx => match chunks !! idx with
                      | Some c => (Start c <=? p) && (p <=? End c)
                      | None => false
                      end) sched.

(** The bytes the chunks with index in [sched] span, added up. *)
Fixpoint spanSum (chunks : list Chunk) (sched : list nat) : Z :=
  match sched with
  | [] => 0
  | idx :: rest =>
      match chunks !! idx with
      | Some c => End c - Start c + 1 + spanSum chunks rest
      | None => spanSum chunks rest
      end
  end.

(** A server that cannot be reached. *)
Definition unreachableWorld : World :=
  sampleWorld (fun _ => inl (ErrLib "connection refused")) None.

(** A server whose only read brings the whole resource together with an
    error. *)
Definition brokenBodyWorld : World :=
  sampleWorld
    (fun _ => inr {| StatusCode := 200; RespHeader := ∅; ContentLength := 8;
                     Body := [(sampleContent,
                               Some (ErrLib "connection reset by peer"))] |})
    None.

(** White space past ASCII, as UTF-8: U+00A0, U+0085 and U+3000; and
    U+200B, which is not white space. *)
Definition noBreakSpace : string := String "194" (String "160" "").
Definition nextLine : string := String "194" (String "133" "").
Definition ideographicSpace : string :=
  String "227" (String "128" (String "128" "")).
Definition zeroWidthSpace : string :=
  String "226" (String "128" (String "139" "")).

(** * Properties *)

(** ** Arithmetic of [int64] *)

Lemma Int64_wrap_id z : Int64.in_range z -> Int64.wrap z = z.
Proof.
  unfold Int64.in_range, Int64.min_signed, Int64.max_signed, Int64.wrap.
  intros H. rewrite Z.mod_small by lia. lia.
Qed.

Lemma Int64_wrap_range z : Int64.in_range (Int64.wrap z).
Proof.
  unfold Int64.in_range, Int64.min_signed, Int64.max_signed, Int64.wrap.
  pose proof (Z.mod_pos_bound (z + 2 ^ 63) (2 ^ 64) ltac:(lia)). lia.
Qed.

(** One overflow past the top lands in the negative half. *)
Lemma Int64_wrap_overflow_neg z :
  Int64.max_signed < z -> z < 2 ^ 64 -> Int64.wrap z < 0.
Proof.
  unfold Int64.max_signed, Int64.wrap. intros H1 H2.
  replace (z + 2 ^ 63) with ((z - 2 ^ 63) + 1 * 2 ^ 64) by lia.
  rewrite Z.mod_add by lia. rewrite Z.mod_small by lia. lia.
Qed.

(** ** The chunk planner *)

Example planChunks_100 :
  planChunks 100 =
  [ {| Start := 0; End := 24 |}; {| Start := 25; End := 49 |};
    {| Start := 50; End := 74 |}; {| Start := 75; End := 99 |} ].
Proof. reflexivity. Qed.

(** Below the chunk count the leading chunks are empty spans. *)
Example planChunks_3 :
  planChunks 3 =
  [ {| Start := 0; End := -1 |}; {| Start := 0; End := -1 |};
    {| Start := 0; End := -1 |}; {| Start := 0; End := 2 |} ].
Proof. reflexivity. Qed.

Lemma fillChunks_length cs indices : forall chunks,
  length (fillChunks cs indices chunks) = length chunks.
Proof.
  induction indices as [|i rest IH]; intros chunks; simpl; [done|].
  rewrite IH. by rewrite !length_alter.
Qed.

Lemma fillChunks_lookup_other cs indices : forall chunks (i : nat),
  i ∉ indices -> fillChunks cs indices chunks !! i = chunks !! i.
Proof.
  induction indices as [|j rest IH]; intros chunks i Hi; simpl; [done|].
  apply not_elem_of_cons in Hi as [Hne Hrest].
  rewrite IH by done.
  rewrite !list_lookup_alter_ne by done. done.
Qed.

Lemma fillChunks_lookup cs indices : forall chunks (i : nat),
  NoDup indices -> i ∈ indices -> (i < length chunks)%nat ->
  fillChunks cs indices chunks !! i =
  Some {| Start := Int64.mul (Z.of_nat i) cs;
          End := Int64.sub (Int64.add (Int64.mul (Z.of_nat i) cs) cs) 1 |}.
Proof.
  induction indices as [|j rest IH]; intros chunks i Hnd Hin Hlen.
  - by apply elem_of_nil in Hin.
  - apply NoDup_cons in Hnd as [Hj Hnd]. simpl.
    destruct (decide (i = j)) as [->|Hne].
    + rewrite fillChunks_lookup_other by done.
      destruct (lookup_lt_is_Some_2 chunks j Hlen) as [c Hc].
      rewrite !list_lookup_alter_eq, Hc. done.
    + apply elem_of_cons in Hin as [?|Hin]; [done|].
      apply IH; [done|done|]. by rewrite !length_alter.
Qed.

(** The planned chunk at index [i], wrap-around still in place. *)
Lemma planChunksWith_lookup (c : nat) (fileSize : Z) (i : nat) :
  (i < c)%nat ->
  let cs := Int64.quot fileSize (Z.of_nat c) in
  planChunksWith c fileSize !! i =
  Some {| Start := Int64.mul (Z.of_nat i) cs;
          End := if decide (i = (c - 1)%nat) then Int64.sub fileSize 1
                 else Int64.sub (Int64.add (Int64.mul (Z.of_nat i) cs) cs) 1 |}.
Proof.
  intros Hi cs. unfold planChunksWith. fold cs.
  assert (Hfill : fillChunks cs (seq 0 c)
                    (replicate c {| Start := 0; End := 0 |}) !! i =
          Some {| Start := Int64.mul (Z.of_nat i) cs;
                  End := Int64.sub (Int64.add (Int64.mul (Z.of_nat i) cs) cs) 1 |}).
  { apply fillChunks_lookup.
    - apply NoDup_seq.
    - apply elem_of_seq. lia.
    - by rewrite length_replicate. }
  destruct (decide (i = (c - 1)%nat)) as [->|Hne].
  - rewrite list_lookup_alter_eq, Hfill. done.
  - rewrite list_lookup_alter_ne by done. done.
Qed.

Lemma planChunksWith_length c fileSize : length (planChunksWith c fileSize) = c.
Proof.
  unfold planChunksWith.
  by rewrite length_alter, fillChunks_length, length_replicate.
Qed.

Section Planner.

Variable c : nat.
Variable fileSize : Z.
Hypothesis c_pos : (0 < c)%nat.
Hypothesis size_pos : 0 < fileSize.
Hypothesis size_int64 : fileSize <= Int64.max_signed.

Let cs : Z := fileSize / Z.of_nat c.

Lemma chunkSize_exact : Int64.quot fileSize (Z.of_nat c) = cs.
Proof using c_pos size_pos size_int64.
  unfold Int64.quot. rewrite Z.quot_div_nonneg by lia. subst cs.
  apply Int64_wrap_id.
  unfold Int64.in_range, Int64.min_signed, Int64.max_signed in *.
  pose proof (Z.div_pos fileSize (Z.of_nat c) ltac:(lia) ltac:(lia)).
  pose proof (Z.div_le_upper_bound fileSize (Z.of_nat c) fileSize
                ltac:(lia) ltac:(nia)).
  lia.
Qed.

Lemma chunkSize_bounds : 0 <= cs /\ Z.of_nat c * cs <= fileSize.
Proof using c_pos size_pos.
  subst cs. split.
  - apply Z.div_pos; lia.
  - apply Z.mul_div_le. lia.
Qed.

(** No operation of the planning loop overflows. *)
Lemma planned_lookup (i : nat) :
  (i < c)%nat ->
  planChunksWith c fileSize !! i =
  Some {| Start := Z.of_nat i * cs;
          End := if decide (i = (c - 1)%nat) then fileSize - 1
                 else Z.of_nat i * cs + cs - 1 |}.
Proof using c_pos size_pos size_int64.
  intros Hi. rewrite planChunksWith_lookup by done. cbv zeta.
  rewrite chunkSize_exact.
  destruct chunkSize_bounds as [Hcs0 Hcs].
  assert (Hi' : Z.of_nat i * cs + cs <= fileSize) by nia.
  unfold Int64.mul, Int64.add, Int64.sub.
  unfold Int64.max_signed in size_int64.
  assert (Hw : forall z, -1 <= z <= fileSize -> Int64.wrap z = z).
  { intros z Hz. apply Int64_wrap_id.
    unfold Int64.in_range, Int64.min_signed, Int64.max_signed. lia. }
  rewrite (Hw (Z.of_nat i * cs)) by nia.
  rewrite (Hw (Z.of_nat i * cs + cs)) by nia.
  rewrite (Hw (Z.of_nat i * cs + cs - 1)) by nia.
  rewrite (Hw (fileSize - 1)) by lia.
  done.
Qed.

Lemma planned_contiguous : contiguous (planChunksWith c fileSize).
Proof using c_pos size_pos size_int64.
  intros i a b Ha Hb.
  pose proof (lookup_lt_Some _ _ _ Hb) as Hlt.
  rewrite planChunksWith_length in Hlt.
  rewrite planned_lookup in Ha by lia.
  rewrite planned_lookup in Hb by lia.
  injection Ha as <-. injection Hb as <-. simpl.
  destruct (decide (i = (c - 1)%nat)); [lia|]. lia.
Qed.

Lemma planned_non_overlapping : non_overlapping (planChunksWith c fileSize).
Proof using c_pos size_pos size_int64.
  assert (Hord : forall i j a b p, (i < j)%nat ->
    planChunksWith c fileSize !! i = Some a ->
    planChunksWith c fileSize !! j = Some b ->
    in_chunk p a -> in_chunk p b -> False).
  { intros i j a b p Hij Ha Hb [_ Hpa] [Hpb _].
    pose proof (lookup_lt_Some _ _ _ Hb) as Hlt.
    rewrite planChunksWith_length in Hlt.
    rewrite planned_lookup in Ha by lia.
    rewrite planned_lookup in Hb by lia.
    injection Ha as <-. injection Hb as <-. simpl in *.
    destruct chunkSize_bounds as [Hcs0 _].
    destruct (decide (i = (c - 1)%nat)); [lia|]. nia. }
  intros i j a b p Ha Hb Hpa Hpb.
  destruct (Nat.lt_trichotomy i j) as [Hlt|[Heq|Hgt]]; [|done|].
  - exfalso. eapply (Hord i j); eauto.
  - exfalso. eapply (Hord j i); eauto.
Qed.

Lemma planned_covers : covers (planChunksWith c fileSize) fileSize.
Proof using c_pos size_pos size_int64.
  destruct chunkSize_bounds as [Hcs0 Hcs].
  intros p. split.
  - intros (ch & Hin & [Hlo Hhi]).
    apply list_elem_of_lookup in Hin as [i Hi].
    pose proof (lookup_lt_Some _ _ _ Hi) as Hlt.
    rewrite planChunksWith_length in Hlt.
    rewrite planned_lookup in Hi by done. injection Hi as <-. simpl in *.
    destruct (decide (i = (c - 1)%nat)); nia.
  - intros [Hlo Hhi].
    destruct (decide (p < (Z.of_nat c - 1) * cs)) as [Hsmall|Hlarge].
    + assert (Hcspos : 0 < cs) by nia.
      set (i := Z.to_nat (p / cs)).
      assert (Hq : 0 <= p / cs < Z.of_nat c - 1).
      { split; [apply Z.div_pos; lia|].
        apply Z.div_lt_upper_bound; lia. }
      assert (Hi : (i < c)%nat) by (subst i; lia).
      eexists. split.
      * apply list_elem_of_lookup. exists i. by apply planned_lookup.
      * unfold in_chunk. simpl.
        pose proof (Z.div_mod p cs ltac:(lia)).
        pose proof (Z.mod_pos_bound p cs ltac:(lia)).
        destruct (decide (i = (c - 1)%nat)); subst i; [lia|].
        rewrite Z2Nat.id by lia. nia.
    + eexists. split.
      * apply list_elem_of_lookup. exists (c - 1)%nat.
        apply planned_lookup. lia.
      * unfold in_chunk. simpl.
        destruct (decide ((c - 1)%nat = (c - 1)%nat)); [|done].
        rewrite Nat2Z.inj_sub by lia. simpl. lia.
Qed.

Lemma planned_last :
  exists ch, last (planChunksWith c fileSize) = Some ch /\ End ch = fileSize - 1.
Proof using c_pos size_pos size_int64.
  eexists. split.
  - rewrite last_lookup, planChunksWith_length.
    replace (Nat.pred c) with (c - 1)%nat by lia.
    apply planned_lookup. lia.
  - simpl. by destruct (decide ((c - 1)%nat = (c - 1)%nat)).
Qed.

Lemma planned_first :
  exists ch, head (planChunksWith c fileSize) = Some ch /\ Start ch = 0.
Proof using c_pos size_pos size_int64.
  eexists. split.
  - rewrite head_lookup. apply planned_lookup. lia.
  - simpl. lia.
Qed.

End Planner.

Lemma calculateConcurrency_cases fileSize :
  calculateConcurrency fileSize = 4 \/ calculateConcurrency fileSize = 8.
Proof. unfold calculateConcurrency. destruct (_ <? _); auto. Qed.

(** C1.  For every [totalSize > 0] that an [int64] holds, with the
    concurrency [calculateConcurrency] chooses (8 above 1 GiB, else 4), the
    chunk list [downloadFile] builds is contiguous, non-overlapping, covers
    exactly the offsets [0 .. totalSize-1], starts at 0 and its last chunk
    ends at [totalSize-1]. *)
Theorem C1_planned_chunks_partition (totalSize : Z) :
  0 < totalSize <= Int64.max_signed ->
  let chunks := planChunks totalSize in
  Z.of_nat (length chunks) = (if 1024 * 1024 * 1024 <? totalSize then 8 else 4) /\
  contiguous chunks /\
  non_overlapping chunks /\
  covers chunks totalSize /\
  (exists ch, head chunks = Some ch /\ Start ch = 0) /\
  (exists ch, last chunks = Some ch /\ End ch = totalSize - 1).
Proof.
  intros [Hpos Hmax] chunks. subst chunks. unfold planChunks.
  assert (Hc : (0 < Z.to_nat (calculateConcurrency totalSize))%nat).
  { destruct (calculateConcurrency_cases totalSize) as [-> | ->]; lia. }
  split; [|split; [|split; [|split; [|split]]]].
  - rewrite planChunksWith_length. unfold calculateConcurrency.
    destruct (_ <? _); reflexivity.
  - by apply planned_contiguous.
  - by apply planned_non_overlapping.
  - by apply planned_covers.
  - by apply planned_first.
  - by apply planned_last.
Qed.

Lemma C1_planned_chunks_partition_witness :
  0 < 100 <= Int64.max_signed /\
  contiguous (planChunks 100) /\
  map End (planChunks 100) = [24; 49; 74; 99].
Proof.
  split; [unfold Int64.max_signed; lia|].
  split; [|reflexivity].
  apply (C1_planned_chunks_partition 100). unfold Int64.max_signed. lia.
Defined.

(** ** The probe *)

Lemma canonical_Accept_Ranges :
  CanonicalMIMEHeaderKey "Accept-Ranges" = "Accept-Ranges".
Proof. reflexivity. Qed.

Lemma Header_Get_first (h : Header) (key : string) (v : string) :
  v <> "" ->
  Header_Get h key = v <->
  exists rest, h !! CanonicalMIMEHeaderKey key = Some (v :: rest).
Proof.
  intros Hv. unfold Header_Get.
  destruct (h !! CanonicalMIMEHeaderKey key) as [[|v0 rest]|]; split.
  - intros <-. done.
  - intros [? ?]. done.
  - intros ->. eauto.
  - intros [? [= -> ->]]. done.
  - intros <-. done.
  - intros [? ?]. done.
Qed.

(** C3, as the code has it.  For every probe response with status 200,
    [checkRangeSupport] reports no error, reports range support exactly when
    the first [Accept-Ranges] value is the string [bytes], and returns as
    total size the response's [ContentLength] field: the declared length,
    and -1 when the server declared none. *)
Theorem C3_probe_result (w : World) (url : string) (st : State) (resp : Response) :
  Do w (probeRequest url) = inr resp ->
  StatusCode resp = StatusOK ->
  let '(supportsRange, totalSize, err) := (checkRangeSupport w url st).1 in
  err = None /\
  (supportsRange = true <->
   exists rest, RespHeader resp !! "Accept-Ranges" = Some ("bytes" :: rest)) /\
  (RespHeader resp !! "Accept-Ranges" = None -> supportsRange = false) /\
  totalSize = ContentLength resp /\
  (forall declared, ContentLength resp = declaredContentLength declared ->
     totalSize = match declared with Some n => n | None => -1 end).
Proof.
  intros HDo Hstatus. unfold checkRangeSupport.
  rewrite HDo, Hstatus. simpl.
  split; [done|]. split; [|split; [|split]].
  - rewrite String.eqb_eq.
    rewrite Header_Get_first by done.
    by rewrite canonical_Accept_Ranges.
  - intros Hnone. unfold Header_Get.
    rewrite canonical_Accept_Ranges, Hnone. done.
  - done.
  - intros declared ->. by destruct declared.
Qed.

Lemma C3_probe_result_witness :
  (checkRangeSupport rangeWorld sampleURL emptyState).1 = (true, 8, None).
Proof.
  pose proof (C3_probe_result rangeWorld sampleURL emptyState _
                eq_refl eq_refl) as H.
  destruct (checkRangeSupport rangeWorld sampleURL emptyState).1
    as [[sr size] err] eqn:E.
  destruct H as (-> & Hsr & _ & -> & _).
  f_equal. f_equal. apply Hsr. eexists. reflexivity.
Defined.

(** When the server declares no content length, the total size is -1, not
    0. *)
Lemma C3_counterexample :
  Do noLengthWorld (probeRequest sampleURL) =
    inr {| StatusCode := 200;
           RespHeader := {[ "Accept-Ranges" := ["bytes"] ]};
           ContentLength := declaredContentLength None;
           Body := [] |} /\
  (checkRangeSupport noLengthWorld sampleURL emptyState).1 = (true, -1, None) /\
  (checkRangeSupport noLengthWorld sampleURL emptyState).1.1.2 <> 0.
Proof. split; [reflexivity|]. split; [reflexivity|]. discriminate. Qed.

(** ** Custom headers *)

Lemma applyHeaders_sample (h : Header) :
  applyHeaders "User-Agent:custom,X-Test:1" h =
  Header_Add "X-Test" "1" (Header_Add "User-Agent" "custom" h).
Proof. reflexivity. Qed.

Lemma Header_Add_lookup (key value k : string) (h : Header) :
  CanonicalMIMEHeaderKey key = k ->
  Header_Add key value h !! k = Some (default [] (h !! k) ++ [value]).
Proof. intros <-. unfold Header_Add. by rewrite lookup_insert_eq. Qed.

Lemma Header_Add_lookup_ne (key value k : string) (h : Header) :
  CanonicalMIMEHeaderKey key <> k ->
  Header_Add key value h !! k = h !! k.
Proof. intros Hne. unfold Header_Add. by rewrite lookup_insert_ne. Qed.

Lemma Header_Set_lookup_ne (key value k : string) (h : Header) :
  CanonicalMIMEHeaderKey key <> k ->
  Header_Set key value h !! k = h !! k.
Proof. intros Hne. unfold Header_Set. by rewrite lookup_insert_ne. Qed.

(** A key given twice keeps both values, in order. *)
Lemma applyHeaders_duplicate (h : Header) :
  applyHeaders "X-Test:1,X-Test:2" h !! "X-Test" =
  Some (default [] (h !! "X-Test") ++ ["1"; "2"]).
Proof.
  change (applyHeaders "X-Test:1,X-Test:2" h)
    with (Header_Add "X-Test" "2" (Header_Add "X-Test" "1" h)).
  rewrite !(Header_Add_lookup "X-Test" _ "X-Test") by reflexivity. simpl.
  by rewrite <- app_assoc.
Qed.


(** ** Traces *)

Lemma newEvents_app (st st' : State) (evs : list Event) :
  trace st' = trace st ++ evs -> newEvents st st' = evs.
Proof. intros H. unfold newEvents. rewrite H. by rewrite drop_app_length. Qed.

Lemma adds_refl P st : adds P st st.
Proof. exists []. by rewrite app_nil_r. Qed.

Lemma adds_trans P st1 st2 st3 : adds P st1 st2 -> adds P st2 st3 -> adds P st1 st3.
Proof.
  intros (e1 & H1 & F1) (e2 & H2 & F2). exists (e1 ++ e2). split.
  - by rewrite H2, H1, app_assoc.
  - by apply Forall_app.
Qed.

Lemma adds_weaken (P Q : Event -> Prop) st st' :
  (forall ev, P ev -> Q ev) -> adds P st st' -> adds Q st st'.
Proof.
  intros HPQ (evs & H & F). exists evs. split; [done|].
  eapply Forall_impl; eauto.
Qed.

Lemma adds_log (P : Event -> Prop) ev st : P ev -> adds P st (log ev st).
Proof. intros HP. exists [ev]. split; [done|]. by constructor. Qed.

Lemma adds_setFiles P f st : adds P st (setFiles f st).
Proof. exists []. simpl. by rewrite app_nil_r. Qed.

Lemma adds_setCounter P c st : adds P st (setCounter c st).
Proof. exists []. simpl. by rewrite app_nil_r. Qed.

(** ** File system operations *)

Lemma os_Create_adds P w path st r st' :
  os_Create w path st = (r, st') ->
  (forall e, P (EvCreate path e)) -> adds P st st'.
Proof.
  unfold os_Create. intros H HP.
  destruct (Create_err w path); injection H as <- <-.
  - by apply adds_log.
  - eapply adds_trans; [apply adds_setFiles|]. by apply adds_log.
Qed.

Lemma os_Create_trace w path st :
  trace (os_Create w path st).2 =
  trace st ++ [EvCreate path (os_Create w path st).1].
Proof. unfold os_Create. by destruct (Create_err w path). Qed.

Lemma os_Create_files w path st st' :
  os_Create w path st = (None, st') ->
  files st' = <[path := ∅]> (files st).
Proof.
  unfold os_Create. destruct (Create_err w path); intros [= <-]. done.
Qed.

Lemma os_Remove_trace w path st :
  exists rm, trace (os_Remove w path st).2 = trace st ++ [EvRemove path rm].
Proof.
  unfold os_Remove.
  destruct (Remove_err w path); [by eexists|].
  destruct (files st !! path); by eexists.
Qed.

Lemma os_Remove_files w path st :
  Remove_err w path = None -> files (os_Remove w path st).2 !! path = None.
Proof.
  unfold os_Remove. intros ->.
  destruct (files st !! path) eqn:E; simpl; [|done].
  apply lookup_delete_eq.
Qed.

Lemma os_Rename_trace w old new st :
  trace (os_Rename w old new st).2 =
  trace st ++ [EvRename old new (os_Rename w old new st).1].
Proof.
  unfold os_Rename.
  destruct (Rename_err w old new); [done|].
  destruct (files st !! old); done.
Qed.

Lemma File_WriteAt_trace w fd data off st :
  exists stored,
    trace (File_WriteAt w fd data off st).2 =
    trace st ++ [EvWriteAt fd off stored (File_WriteAt w fd data off st).1] /\
    ((File_WriteAt w fd data off st).1 = None -> stored = data /\ 0 <= off) /\
    (length stored <= length data)%nat /\
    counter (File_WriteAt w fd data off st).2 = counter st.
Proof.
  unfold File_WriteAt.
  destruct (off <? 0) eqn:Hoff.
  - exists []. simpl. split; [done|]. split; [done|]. split; [apply Nat.le_0_l|done].
  - apply Z.ltb_ge in Hoff.
    destruct (WriteAt_err w fd off data) as [[k e]|]; eexists; simpl;
      (split; [reflexivity|]; split; [|split; [|reflexivity]]); try done.
    rewrite length_take. lia.
Qed.

Lemma File_WriteAt_files_other w fd data off st (p : string) :
  p <> fd -> files (File_WriteAt w fd data off st).2 !! p = files st !! p.
Proof.
  intros Hne. unfold File_WriteAt.
  destruct (off <? 0); [done|].
  destruct (WriteAt_err w fd off data) as [[k e]|]; simpl;
    by rewrite lookup_alter_ne.
Qed.

Lemma File_Write_adds P w fd data pos st r st' :
  File_Write w fd data pos st = (r, st') ->
  (forall stored e, P (EvWrite fd pos stored e)) -> adds P st st'.
Proof.
  unfold File_Write. intros H HP.
  destruct (Write_err w fd pos data) as [[k e]|]; injection H as <- <-;
    (eapply adds_trans; [apply adds_setFiles|]; by apply adds_log).
Qed.

Lemma File_Write_files_other w fd data pos st (p : string) :
  p <> fd -> files (File_Write w fd data pos st).2 !! p = files st !! p.
Proof.
  intros Hne. unfold File_Write.
  destruct (Write_err w fd pos data) as [[k e]|]; simpl;
    by rewrite lookup_alter_ne.
Qed.

(** ** The sequential path *)

Lemma sequentialLoop_adds w fd verbose body : forall pos downloaded st r st',
  sequentialLoop w fd verbose body pos downloaded st = (r, st') ->
  adds (sequentialEvent fd) st st'.
Proof.
  induction body as [|[data err] rest IH]; intros pos downloaded st r st' H;
    simpl in H.
  - injection H as <- <-. apply adds_refl.
  - destruct (0 <? Z.of_nat (length data)).
    + destruct (File_Write w fd data pos st) as [[e|] st1] eqn:HW.
      * injection H as <- <-.
        eapply File_Write_adds; [exact HW|]. by simpl.
      * assert (H1 : adds (sequentialEvent fd) st st1).
        { eapply File_Write_adds; [exact HW|]. by simpl. }
        assert (H2 : adds (sequentialEvent fd) st
                       (if verbose then log EvPrint st1 else st1)).
        { destruct verbose; [|done].
          eapply adds_trans; [exact H1|]. by apply adds_log. }
        eapply adds_trans; [exact H2|]. eapply IH; exact H.
    + destruct err as [e|].
      * destruct e; injection H as <- <-; apply adds_refl.
      * eapply IH; exact H.
Qed.

Lemma sequentialLoop_files_other w fd verbose body (p : string) :
  p <> fd -> forall pos downloaded st,
  files (sequentialLoop w fd verbose body pos downloaded st).2 !! p = files st !! p.
Proof.
  intros Hne. induction body as [|[data err] rest IH]; intros pos downloaded st;
    simpl; [done|].
  destruct (0 <? Z.of_nat (length data)).
  - pose proof (File_Write_files_other w fd data pos st p Hne) as HW.
    destruct (File_Write w fd data pos st) as [[e|] st1]; simpl in HW; [done|].
    assert (H2 : files (if verbose then log EvPrint st1 else st1) !! p = files st !! p).
    { by destruct verbose. }
    by rewrite IH.
  - destruct err as [e|].
    + by destruct e.
    + by rewrite IH.
Qed.

Lemma sequentialDownload_adds w parsedURL filename headers verbose st :
  adds (sequentialEvent filename) st
       (sequentialDownload w parsedURL filename headers verbose st).2.
Proof.
  unfold sequentialDownload.
  destruct (NewRequest_err w "GET" (UrlString parsedURL)); [apply adds_refl|].
  set (st1 := log _ st).
  assert (H1 : adds (sequentialEvent filename) st st1) by by apply adds_log.
  destruct (Do w _) as [e|resp]; [done|].
  destruct (negb _); [done|].
  destruct (os_Create w filename st1) as [[e|] st2] eqn:HC.
  - eapply adds_trans; [exact H1|]. eapply os_Create_adds; [exact HC|]. by simpl.
  - assert (H2 : adds (sequentialEvent filename) st st2).
    { eapply adds_trans; [exact H1|]. eapply os_Create_adds; [exact HC|]. by simpl. }
    destruct (sequentialLoop w filename verbose (Body resp) 0 0 st2)
      as [r st3] eqn:HL.
    simpl. eapply adds_trans; [exact H2|].
    eapply adds_trans; [eapply sequentialLoop_adds; exact HL|].
    by apply adds_log.
Qed.

Lemma sequentialDownload_files_other w parsedURL filename headers verbose st
    (p : string) :
  p <> filename ->
  files (sequentialDownload w parsedURL filename headers verbose st).2 !! p
  = files st !! p.
Proof.
  intros Hne. unfold sequentialDownload.
  destruct (NewRequest_err w "GET" (UrlString parsedURL)); [done|].
  destruct (Do w _) as [e|resp]; [done|].
  destruct (negb _); [done|].
  destruct (os_Create w filename _) as [[e|] st2] eqn:HC.
  - unfold os_Create in HC. destruct (Create_err w filename); [|done].
    by injection HC as _ <-.
  - pose proof (sequentialLoop_files_other w filename verbose (Body resp) p Hne
                  0 0 st2) as HL.
    destruct (sequentialLoop w filename verbose (Body resp) 0 0 st2) as [r st3].
    simpl in *. rewrite HL. apply os_Create_files in HC. rewrite HC.
    by rewrite lookup_insert_ne.
Qed.

(** C10.  In the sequential path, a response whose status is not 200 makes
    [sequentialDownload] return the status error with nothing done but the
    request: the file system is unchanged and [os.Create] was not called. *)
Theorem C10_sequential_bad_status_creates_nothing
    (w : World) (parsedURL : ParsedURL) (filename headers : string)
    (verbose : bool) (st : State) (resp : Response) :
  NewRequest_err w "GET" (UrlString parsedURL) = None ->
  Do w (sequentialRequest parsedURL headers) = inr resp ->
  StatusCode resp <> StatusOK ->
  let result := sequentialDownload w parsedURL filename headers verbose st in
  result.1 = Some (ErrStatus (StatusCode resp)) /\
  files result.2 = files st /\
  newEvents st result.2 = [EvDo (sequentialRequest parsedURL headers)] /\
  Forall (fun ev => createsPath filename ev = false) (newEvents st result.2).
Proof.
  intros HNew HDo Hstatus. cbv zeta. unfold sequentialDownload.
  rewrite HNew, HDo.
  apply Z.eqb_neq in Hstatus. rewrite Hstatus. simpl.
  split; [done|]. split; [done|].
  rewrite (newEvents_app st (log (EvDo (sequentialRequest parsedURL headers)) st)
             [EvDo (sequentialRequest parsedURL headers)]) by done.
  split; [done|]. by repeat constructor.
Qed.

Lemma C10_sequential_bad_status_creates_nothing_witness :
  let result :=
    sequentialDownload notFoundWorld
      {| UrlString := sampleURL; Path := "/file.bin" |} "file.bin" "" true
      emptyState in
  result.1 = Some (ErrStatus 404) /\ files result.2 = ∅.
Proof.
  cbv zeta.
  pose proof (C10_sequential_bad_status_creates_nothing notFoundWorld
    {| UrlString := sampleURL; Path := "/file.bin" |} "file.bin" "" true
    emptyState _ eq_refl eq_refl ltac:(discriminate)) as (H1 & H2 & _).
  split; [exact H1 | exact H2].
Defined.

(** ** The chunk fetcher *)

Lemma Int64_wrap_add_l a b : Int64.wrap (Int64.wrap a + b) = Int64.wrap (a + b).
Proof.
  unfold Int64.wrap. f_equal.
  replace ((a + 2 ^ 63) mod 2 ^ 64 - 2 ^ 63 + b + 2 ^ 63)
    with ((a + 2 ^ 63) mod 2 ^ 64 + b) by lia.
  rewrite Z.add_mod_idemp_l by lia. f_equal. lia.
Qed.

Lemma storeBytes_lookup_outside data : forall off (content : gmap Z byte) p,
  ~ (off <= p < off + Z.of_nat (length data)) ->
  storeBytes off data content !! p = content !! p.
Proof.
  induction data as [|b rest IH]; intros off content p Hp; simpl; [done|].
  simpl in Hp. rewrite IH by lia. apply lookup_insert_ne. lia.
Qed.

Lemma File_WriteAt_byteAt_outside w fd data off st (path : string) p :
  ~ (path = fd /\ off <= p < off + Z.of_nat (length data)) ->
  byteAt (File_WriteAt w fd data off st).2 path p = byteAt st path p.
Proof.
  intros Hp. unfold byteAt.
  destruct (decide (path = fd)) as [->|Hne].
  - assert (Hp' : ~ (off <= p < off + Z.of_nat (length data))).
    { intros ?. by apply Hp. }
    unfold File_WriteAt. destruct (off <? 0); [done|].
    destruct (WriteAt_err w fd off data) as [[k e]|]; simpl;
      rewrite lookup_alter_eq; destruct (files st !! fd) as [content|]; simpl;
      try done; apply storeBytes_lookup_outside.
    + rewrite length_take. lia.
    + lia.
  - by rewrite File_WriteAt_files_other.
Qed.

(** The loop leaves a trace of the shape [loopTrace] describes, and adds to
    the counter what its successful writes stored. *)
Lemma chunkLoop_loopTrace w fd body : forall cur st,
  fitsBuffer body ->
  Int64.in_range (counter st) ->
  exists evs,
    trace (chunkLoop w fd body cur st).2 = trace st ++ evs /\
    loopTrace fd bufferSize cur evs /\
    counter (chunkLoop w fd body cur st).2 = Int64.wrap (counter st + written evs).
Proof.
  induction body as [|[data err] rest IH]; intros cur st Hfit Hc; simpl.
  - exists []. rewrite app_nil_r, Z.add_0_r.
    split; [done|]. split; [constructor|]. by rewrite Int64_wrap_id.
  - apply Forall_cons in Hfit as [Hdata Hfit]. simpl in Hdata.
    destruct (0 <? Z.of_nat (length data)) eqn:Hn.
    + apply Z.ltb_lt in Hn.
      destruct (File_WriteAt_trace w fd data cur st) as (stored & Htr & Hok & _ & Hcnt).
      destruct (File_WriteAt w fd data cur st) as [[e|] st1]; simpl in *.
      * exists [EvWriteAt fd cur stored (Some e)].
        split; [done|]. split; [constructor|].
        simpl. by rewrite Hcnt, Z.add_0_r, Int64_wrap_id.
      * destruct (Hok eq_refl) as [-> Hcur].
        set (n := Z.of_nat (length data)) in *.
        set (st2 := atomic_AddInt64 n st1).
        assert (Htr2 : trace st2 = trace st ++ [EvWriteAt fd cur data None; EvAdd n]).
        { subst st2. simpl. rewrite Htr. by rewrite <- app_assoc. }
        assert (Hc2 : counter st2 = Int64.wrap (counter st + n)).
        { subst st2. simpl. by rewrite Hcnt. }
        assert (Hfinal : exists evs,
          trace st2 = trace st ++ evs /\ loopTrace fd bufferSize cur evs /\
          counter st2 = Int64.wrap (counter st + written evs)).
        { exists [EvWriteAt fd cur data None; EvAdd n].
          split; [done|]. split.
          - constructor; [done|done|constructor].
          - simpl. fold n. by rewrite Z.add_0_r. }
        destruct err as [e|].
        -- destruct e; exact Hfinal.
        -- destruct (IH (Int64.add cur n) st2 Hfit) as (evs & Hevs & Hlt & Hcn).
           { rewrite Hc2. apply Int64_wrap_range. }
           exists (EvWriteAt fd cur data None :: EvAdd n :: evs).
           split; [|split].
           ++ rewrite Hevs, Htr2. by rewrite <- app_assoc.
           ++ by constructor.
           ++ rewrite Hcn, Hc2. simpl. fold n.
              rewrite Int64_wrap_add_l. f_equal. lia.
    + assert (Hnone : exists evs,
          trace st = trace st ++ evs /\ loopTrace fd bufferSize cur evs /\
          counter st = Int64.wrap (counter st + written evs)).
      { exists []. rewrite app_nil_r, Z.add_0_r.
        split; [done|]. split; [constructor|]. by rewrite Int64_wrap_id. }
      destruct err as [e|].
      * destruct e; exact Hnone.
      * by apply IH.
Qed.

(** How a trace that starts with a successful write and its add can be cut
    at a later event. *)
Lemma cut_after_write (x a y : Event) (evs pre post : list Event) :
  x :: a :: evs = pre ++ y :: post ->
  (pre = [] /\ y = x /\ post = a :: evs) \/
  (pre = [x] /\ y = a /\ post = evs) \/
  (exists pre', pre = x :: a :: pre' /\ evs = pre' ++ y :: post).
Proof.
  intros H. destruct pre as [|p1 [|p2 pre']]; simplify_eq/=; eauto.
Qed.

Section LoopTrace.

Variable fd : string.
Variable bound : Z.
Hypothesis bound_small : 0 <= bound <= 2 ^ 63.

(** Once [current] has gone negative no write succeeds any more. *)
Lemma loopTrace_negative cur evs :
  loopTrace fd bound cur evs -> cur < 0 ->
  forall pre path off stored post,
    evs <> pre ++ EvWriteAt path off stored None :: post.
Proof using Type.
  intros Hlt Hneg pre path off stored post Heq.
  destruct Hlt as [cur|cur stored' e|cur data evs Hcur _ _].
  - by destruct pre.
  - destruct pre as [|? [|? ?]]; simplify_eq/=.
  - lia.
Qed.

(** Every call of [WriteAt] is made on [fd] at the wrapped sum of the
    starting offset and the bytes stored so far, and a successful one is
    followed at once by the add of its size. *)
Lemma loopTrace_attempts cur evs :
  loopTrace fd bound cur evs -> Int64.in_range cur ->
  forall pre path off stored err post,
    evs = pre ++ EvWriteAt path off stored err :: post ->
    path = fd /\
    off = Int64.wrap (cur + written pre) /\
    (err = None -> exists post', post = EvAdd (Z.of_nat (length stored)) :: post').
Proof using Type.
  induction 1 as [cur|cur stored' e|cur data evs Hcur Hn Hlt IH];
    intros Hrange pre path off stored err post Heq.
  - by destruct pre.
  - destruct pre as [|? [|? ?]]; simplify_eq/=.
    rewrite Z.add_0_r, Int64_wrap_id by done. done.
  - apply cut_after_write in Heq
      as [(-> & Hy & ->)|[(-> & Hy & ->)|(pre' & -> & Heq)]].
    + simplify_eq/=. rewrite Z.add_0_r, Int64_wrap_id by done. eauto.
    + discriminate.
    + destruct (IH (Int64_wrap_range _) _ _ _ _ _ _ Heq) as (-> & -> & Hadd).
      split; [done|]. split; [|done].
      simpl. unfold Int64.add. rewrite Int64_wrap_add_l. f_equal. lia.
Qed.

(** A successful write lands at the exact sum: no wrap-around has
    happened before it. *)
Lemma loopTrace_exact cur evs :
  loopTrace fd bound cur evs -> Int64.in_range cur ->
  forall pre path off stored post,
    evs = pre ++ EvWriteAt path off stored None :: post ->
    off = cur + written pre.
Proof using bound_small.
  induction 1 as [cur|cur stored' e|cur data evs Hcur Hn Hlt IH];
    intros Hrange pre path off stored post Heq.
  - by destruct pre.
  - destruct pre as [|? [|? ?]]; simplify_eq/=.
  - apply cut_after_write in Heq
      as [(-> & Hy & ->)|[(-> & Hy & ->)|(pre' & -> & Heq)]].
    + simplify_eq/=. lia.
    + discriminate.
    + set (n := Z.of_nat (length data)) in *.
      destruct (decide (cur + n <= Int64.max_signed)) as [Hfit|Hover].
      * assert (Hadd : Int64.add cur n = cur + n).
        { apply Int64_wrap_id.
          unfold Int64.in_range, Int64.min_signed, Int64.max_signed in *. lia. }
        rewrite Hadd in IH, Hlt.
        rewrite (IH ltac:(rewrite <- Hadd; apply Int64_wrap_range) _ _ _ _ _ Heq).
        simpl. fold n. lia.
      * exfalso.
        assert (Hneg : Int64.add cur n < 0).
        { apply Int64_wrap_overflow_neg; [lia|].
          unfold Int64.in_range, Int64.max_signed in *. lia. }
        by eapply (loopTrace_negative _ _ Hlt Hneg).
Qed.

(** The counter is only ever increased right after a successful write,
    and by the number of bytes that write stored. *)
Lemma loopTrace_adds cur evs :
  loopTrace fd bound cur evs ->
  forall pre n post,
    evs = pre ++ EvAdd n :: post ->
    exists pre' off stored,
      pre = pre' ++ [EvWriteAt fd off stored None] /\
      n = Z.of_nat (length stored).
Proof using Type.
  induction 1 as [cur|cur stored' e|cur data evs Hcur Hn Hlt IH];
    intros pre n post Heq.
  - by destruct pre.
  - destruct pre as [|? [|? ?]]; simplify_eq/=.
  - apply cut_after_write in Heq
      as [(-> & Hy & ->)|[(-> & Hy & ->)|(pre' & -> & Heq)]].
    + discriminate.
    + simplify_eq/=. by exists [], cur, data.
    + destruct (IH _ _ _ Heq) as (pre'' & off & stored & -> & ->).
      exists (EvWriteAt fd cur data None :: EvAdd (Z.of_nat (length data)) :: pre''),
             off, stored.
      done.
Qed.

End LoopTrace.

(** The bytes a run of writes stores do not depend on where it starts. *)
Lemma written_incrementTrace fd incs : forall a b a' b',
  written (incrementTrace fd a b incs) = written (incrementTrace fd a' b' incs).
Proof.
  induction incs as [|data rest IH]; intros a b a' b'; simpl; [done|].
  by rewrite (IH a (b + Z.of_nat (length data)) a' (b' + Z.of_nat (length data))).
Qed.

Lemma incrementTrace_shift fd incs : forall a b c,
  incrementTrace fd a (b + c) incs = incrementTrace fd (a + b) c incs.
Proof.
  induction incs as [|data rest IH]; intros a b c; simpl; [done|].
  rewrite <- IH. by rewrite !Z.add_assoc.
Qed.

(** The loop writes the increments of the body one after the other, each
    at the offset the sum gives and each followed by its add, until the
    body is done or a write fails; a write that fails is the last thing the
    loop does, and its error is what the loop returns. *)
Lemma chunkLoop_increments w fd body : forall cur st,
  fitsBuffer body ->
  Int64.in_range cur ->
  exists (k : nat) tail,
    trace (chunkLoop w fd body cur st).2
      = trace st ++ incrementTrace fd cur 0 (take k (increments body)) ++ tail /\
    ((0 < k)%nat -> 0 <= cur) /\
    ((k = length (increments body) /\ tail = []) \/
     ((k < length (increments body))%nat /\
      exists stored e,
        tail = [EvWriteAt fd
                  (Int64.wrap
                     (cur + written (incrementTrace fd cur 0
                                       (take k (increments body)))))
                  stored (Some e)] /\
        (chunkLoop w fd body cur st).1 = Some e)).
Proof.
  induction body as [|[data err] rest IH]; intros cur st Hfit Hcur.
  - exists 0%nat, []. simpl. rewrite app_nil_r. split; [done|].
    split; [lia|]. by left.
  - apply Forall_cons in Hfit as [Hdata Hfit]. simpl in Hdata.
    simpl chunkLoop. simpl increments.
    destruct (0 <? Z.of_nat (length data)) eqn:Hn.
    + apply Z.ltb_lt in Hn.
      destruct (File_WriteAt_trace w fd data cur st)
        as (stored & Htr & Hok & _ & _).
      destruct (File_WriteAt w fd data cur st) as [[e|] st1]; simpl in Htr, Hok.
      * exists 0%nat, [EvWriteAt fd cur stored (Some e)]. simpl.
        split; [done|]. split; [lia|]. right. split; [lia|].
        exists stored, e. rewrite Z.add_0_r.
        rewrite Int64_wrap_id by exact Hcur. by split.
      * destruct (Hok eq_refl) as [-> Hpos].
        remember (Z.of_nat (length data)) as n eqn:Hlen.
        set (st2 := atomic_AddInt64 n st1).
        assert (Htr2 : trace st2
                       = trace st ++ [EvWriteAt fd cur data None; EvAdd n]).
        { subst st2. simpl. rewrite Htr. by rewrite <- app_assoc. }
        assert (Hshape : forall k incs,
                  incrementTrace fd cur 0 (take (S k) ([data] ++ incs))
                  = EvWriteAt fd cur data None :: EvAdd n
                    :: incrementTrace fd cur n (take k incs)).
        { intros k incs. simpl. by rewrite <- Hlen, Z.add_0_r. }
        destruct err as [e|].
        -- exists 1%nat, []. rewrite Hshape, take_0. simpl.
           destruct e; (split; [exact Htr2|]; split; [done|]; by left).
        -- destruct (IH (Int64.add cur n) st2 Hfit (Int64_wrap_range _))
             as (k & tail & Hevs & Hk & Hcases).
           assert (Hsame : incrementTrace fd cur n (take k (increments rest))
                           = incrementTrace fd (Int64.add cur n) 0
                               (take k (increments rest))).
           { destruct k as [|k]; [done|].
             specialize (Hk ltac:(lia)).
             assert (Hadd : Int64.add cur n = cur + n).
             { destruct (decide (cur + n <= Int64.max_signed)) as [Hle|Hgt].
               - apply Int64_wrap_id.
                 unfold Int64.in_range, Int64.min_signed, Int64.max_signed in *.
                 lia.
               - exfalso.
                 assert (Int64.add cur n < 0); [|lia].
                 apply Int64_wrap_overflow_neg; [lia|].
                 unfold Int64.in_range, Int64.max_signed, bufferSize in *.
                 lia. }
             rewrite Hadd. replace n with (n + 0) at 1 by lia.
             apply incrementTrace_shift. }
           exists (S k), tail. rewrite Hshape, Hsame. split; [|split].
           ++ rewrite Hevs, Htr2. by rewrite <- app_assoc.
           ++ done.
           ++ destruct Hcases as [[-> ->]|(Hlt & stored & e & -> & Hres)].
              ** left. by simpl.
              ** right. split; [simpl; lia|]. exists stored, e.
                 split; [|exact Hres]. do 2 f_equal.
                 simpl written. rewrite <- Hlen. unfold Int64.add.
                 rewrite Int64_wrap_add_l. f_equal. lia.
    + destruct err as [e|].
      * exists 0%nat, []. simpl. rewrite app_nil_r.
        destruct e; (split; [done|]; split; [lia|]; by left).
      * simpl app. by apply IH.
Qed.

(** What [downloadChunk] adds to the trace: its request, then the trace of
    the read loop if the answer was 206. *)
Lemma downloadChunk_trace w url chunk fd headers st :
  (forall resp, Do w (chunkRequest url chunk headers) = inr resp ->
                fitsBuffer (Body resp)) ->
  Int64.in_range (counter st) ->
  exists evs,
    trace (downloadChunk w url chunk fd headers st).2
      = trace st ++ EvDo (chunkRequest url chunk headers) :: evs /\
    loopTrace fd bufferSize (Start chunk) evs /\
    counter (downloadChunk w url chunk fd headers st).2
      = Int64.wrap (counter st + written evs).
Proof.
  intros Hfit Hc. unfold downloadChunk.
  set (req := chunkRequest url chunk headers) in *.
  assert (Hnone : exists evs,
    trace (log (EvDo req) st) = trace st ++ EvDo req :: evs /\
    loopTrace fd bufferSize (Start chunk) evs /\
    counter (log (EvDo req) st) = Int64.wrap (counter st + written evs)).
  { exists []. split; [done|]. split; [constructor|].
    simpl. by rewrite Z.add_0_r, Int64_wrap_id. }
  destruct (Do w req) as [e|resp]; [exact Hnone|].
  destruct (negb _); [exact Hnone|].
  destruct (chunkLoop_loopTrace w fd (Body resp) (Start chunk) (log (EvDo req) st)
              (Hfit resp eq_refl) Hc) as (evs & Htr & Hlt & Hcn).
  exists evs. split; [|done].
  rewrite Htr. simpl. by rewrite <- app_assoc.
Qed.

(** C7.  In every run of [downloadChunk] on a chunk whose [Start] is an
    [int64], with a body read in increments of at most the 32 KiB buffer:
    every [WriteAt] call goes to the shared file at offset
    [chunk.Start] plus the bytes already written for this chunk (computed in
    [int64]); every successful one is at exactly that sum, with no
    wrap-around, and is followed at once by the atomic add of the number of
    bytes it stored; the counter is increased at no other point; at the
    end the counter has grown by the bytes written; and on an answer with
    status 206 these writes are those of the increments read from the body,
    one for each in the order read and none left out, up to the end of the
    body or to a write that fails, whose error is then returned. *)
Theorem C7_write_offsets_and_progress
    (w : World) (url : string) (chunk : Chunk) (fd headers : string) (st : State) :
  Int64.in_range (Start chunk) ->
  Int64.in_range (counter st) ->
  (forall resp, Do w (chunkRequest url chunk headers) = inr resp ->
                fitsBuffer (Body resp)) ->
  let st' := (downloadChunk w url chunk fd headers st).2 in
  let evs := newEvents st st' in
  (forall pre path off stored err post,
     evs = pre ++ EvWriteAt path off stored err :: post ->
     path = fd /\
     off = Int64.wrap (Start chunk + written pre) /\
     (err = None ->
      off = Start chunk + written pre /\
      exists post', post = EvAdd (Z.of_nat (length stored)) :: post')) /\
  (forall pre n post,
     evs = pre ++ EvAdd n :: post ->
     exists pre' off stored,
       pre = pre' ++ [EvWriteAt fd off stored None] /\
       n = Z.of_nat (length stored)) /\
  counter st' = Int64.wrap (counter st + written evs) /\
  (forall resp,
     Do w (chunkRequest url chunk headers) = inr resp ->
     StatusCode resp = StatusPartialContent ->
     let incs := increments (Body resp) in
     exists (k : nat) tail,
       evs = EvDo (chunkRequest url chunk headers)
             :: incrementTrace fd (Start chunk) 0 (take k incs) ++ tail /\
       ((k = length incs /\ tail = []) \/
        ((k < length incs)%nat /\
         exists stored e,
           tail = [EvWriteAt fd
                     (Int64.wrap
                        (Start chunk
                         + written (incrementTrace fd (Start chunk) 0
                                      (take k incs))))
                     stored (Some e)] /\
           (downloadChunk w url chunk fd headers st).1 = Some e))).
Proof.
  intros Hstart Hc Hfit st' evs.
  destruct (downloadChunk_trace w url chunk fd headers st Hfit Hc)
    as (levs & Htr & Hlt & Hcn).
  assert (Hevs : evs = EvDo (chunkRequest url chunk headers) :: levs).
  { subst evs st'. by apply newEvents_app. }
  assert (Hbound : 0 <= bufferSize <= 2 ^ 63) by (unfold bufferSize; lia).
  rewrite Hevs. split; [|split; [|split]].
  - intros pre path off stored err post Heq.
    destruct pre as [|p0 pre']; [discriminate|].
    injection Heq as <- Heq. simpl.
    destruct (loopTrace_attempts _ _ _ _ Hlt Hstart _ _ _ _ _ _ Heq)
      as (Hpath & Hoff & Hadd).
    split; [done|]. split; [done|].
    intros ->. split; [|by apply Hadd].
    by apply (loopTrace_exact _ _ Hbound _ _ Hlt Hstart _ _ _ _ _ Heq).
  - intros pre n post Heq.
    destruct pre as [|p0 pre']; [discriminate|].
    injection Heq as <- Heq.
    destruct (loopTrace_adds _ _ _ _ Hlt _ _ _ Heq) as (pre'' & off & stored & -> & ->).
    by exists (EvDo (chunkRequest url chunk headers) :: pre''), off, stored.
  - subst st'. by rewrite Hcn.
  - intros resp HDo Hstatus incs. rewrite <- Hevs. subst evs st'.
    unfold downloadChunk. rewrite HDo, Hstatus. simpl negb. cbv iota.
    destruct (chunkLoop_increments w fd (Body resp) (Start chunk)
                (log (EvDo (chunkRequest url chunk headers)) st)
                (Hfit resp HDo) Hstart) as (k & tail & Htrace & _ & Hcases).
    exists k, tail. split; [|exact Hcases].
    apply newEvents_app. rewrite Htrace. simpl. by rewrite <- app_assoc.
Qed.

Lemma C7_write_offsets_and_progress_witness :
  let chunk := {| Start := 2; End := 3 |} in
  let st' := (downloadChunk rangeWorld sampleURL chunk "file.bin.tmp" "" tmpState).2 in
  newEvents tmpState st'
  = [EvDo (chunkRequest sampleURL chunk "");
     EvWriteAt "file.bin.tmp" 2 [Byte.x32; Byte.x33] None; EvAdd 2] /\
  counter st' = 2.
Proof.
  cbv zeta.
  destruct (C7_write_offsets_and_progress rangeWorld sampleURL
              {| Start := 2; End := 3 |} "file.bin.tmp" "" tmpState)
    as (_ & _ & Hcounter & Hincrements).
  - unfold Int64.in_range, Int64.min_signed, Int64.max_signed. simpl. lia.
  - unfold Int64.in_range, Int64.min_signed, Int64.max_signed. simpl. lia.
  - intros resp H. vm_compute in H. injection H as <-.
    repeat constructor. simpl. unfold bufferSize. lia.
  - destruct (Hincrements _ eq_refl eq_refl)
      as (k & tail & Hevs & [[-> ->]|(_ & stored & e & _ & Hfailed)]).
    + split; [exact Hevs|]. rewrite Hcounter, Hevs. reflexivity.
    + vm_compute in Hfailed. discriminate Hfailed.
Defined.

(** C5.  [downloadChunk] returns no error only if the server answered with
    status 206; an answer with any other status makes it return the error
    whose text names that status, and then it has done nothing but send the
    request: no file and no counter has changed. *)
Theorem C5_chunk_needs_partial_content
    (w : World) (url : string) (chunk : Chunk) (fd headers : string) (st : State) :
  let req := chunkRequest url chunk headers in
  let result := downloadChunk w url chunk fd headers st in
  (result.1 = None ->
   exists resp, Do w req = inr resp /\ StatusCode resp = StatusPartialContent) /\
  (forall resp,
     Do w req = inr resp -> StatusCode resp <> StatusPartialContent ->
     result.1 = Some (ErrChunkStatus (StatusCode resp)) /\
     Error_string (ErrChunkStatus (StatusCode resp))
       = "无效的分块响应状态码: " +:+ pretty (StatusCode resp) /\
     files result.2 = files st /\
     counter result.2 = counter st /\
     newEvents st result.2 = [EvDo req]).
Proof.
  cbv zeta. unfold downloadChunk. split.
  - destruct (Do w _) as [e|resp]; [done|].
    destruct (StatusCode resp =? StatusPartialContent) eqn:Hs; simpl; [|done].
    intros _. exists resp. split; [done|]. by apply Z.eqb_eq.
  - intros resp -> Hs. apply Z.eqb_neq in Hs. rewrite Hs. simpl.
    repeat split. by apply newEvents_app.
Qed.

Lemma C5_chunk_needs_partial_content_witness :
  let chunk := {| Start := 2; End := 3 |} in
  let result := downloadChunk failingWorld sampleURL chunk "file.bin.tmp" "" tmpState in
  result.1 = Some (ErrChunkStatus 500) /\
  Error_string (ErrChunkStatus 500) = "无效的分块响应状态码: 500" /\
  files result.2 = files tmpState.
Proof.
  cbv zeta.
  destruct (C5_chunk_needs_partial_content failingWorld sampleURL
              {| Start := 2; End := 3 |} "file.bin.tmp" "" tmpState) as [_ H].
  destruct (H _ eq_refl ltac:(discriminate)) as (H1 & H2 & H3 & _).
  split; [exact H1|]. split; [exact H2|exact H3].
Defined.

(** The read loop stores bytes only in the file it was given, from the
    offset it starts at and for no more than the body delivers. *)
Lemma chunkLoop_span w fd body : forall cur st,
  Int64.in_range cur ->
  cur + Z.of_nat (length (delivered body)) <= 2 ^ 63 ->
  let st' := (chunkLoop w fd body cur st).2 in
  let inside path p :=
    path = fd /\ cur <= p < cur + Z.of_nat (length (delivered body)) in
  adds (fun ev => forall path p, storesAt path p ev -> inside path p) st st' /\
  (forall path p, ~ inside path p -> byteAt st' path p = byteAt st path p).
Proof.
  induction body as [|[data err] rest IH]; intros cur st Hrange Hlen; cbv zeta.
  - simpl. split; [apply adds_refl|done].
  - simpl chunkLoop.
    set (n := Z.of_nat (length data)).
    set (total := Z.of_nat (length (delivered ((data, err) :: rest)))).
    assert (Hn : n <= total).
    { subst n total. simpl. destruct err; [lia|]. rewrite length_app. lia. }
    destruct (0 <? n) eqn:Hpos.
    + destruct (File_WriteAt_trace w fd data cur st)
        as (stored & Htr & Hok & Hstored & _).
      pose proof (File_WriteAt_byteAt_outside w fd data cur st) as Hbytes.
      destruct (File_WriteAt w fd data cur st) as [[e|] st1]; simpl in Htr, Hok, Hbytes.
      * simpl. split.
        -- exists [EvWriteAt fd cur stored (Some e)]. split; [done|].
           constructor; [|constructor].
           intros path p [-> Hp]. split; [done|]. fold total. lia.
        -- intros path p Hout. apply Hbytes. intros [-> Hp]. apply Hout.
           split; [done|]. fold total. fold n in Hp. lia.
      * destruct (Hok eq_refl) as [-> Hcur]. clear Hok.
        set (st2 := atomic_AddInt64 n st1).
        assert (Hfirst :
          adds (fun ev => forall path p, storesAt path p ev ->
                  path = fd /\ cur <= p < cur + total) st st2 /\
          (forall path p, ~ (path = fd /\ cur <= p < cur + total) ->
                  byteAt st2 path p = byteAt st path p)).
        { split.
          - exists [EvWriteAt fd cur data None; EvAdd n]. split.
            + subst st2. simpl. rewrite Htr. by rewrite <- app_assoc.
            + constructor; [|constructor; [|constructor]].
              * intros path p [-> Hp]. split; [done|]. fold n in Hp. lia.
              * intros path p [].
          - intros path p Hout.
            change (byteAt st2 path p) with (byteAt st1 path p).
            apply Hbytes. intros [-> Hp]. apply Hout.
            split; [done|]. fold n in Hp. lia. }
        destruct err as [e|].
        -- destruct e; exact Hfirst.
        -- set (lenrest := Z.of_nat (length (delivered rest))).
           assert (Htotal : total = n + lenrest).
           { subst total n lenrest. simpl. rewrite length_app. lia. }
           assert (Hincl : forall p,
             Int64.add cur n <= p < Int64.add cur n + lenrest ->
             cur <= p < cur + total).
           { destruct (decide (cur + n <= Int64.max_signed)) as [Hfit|Hover].
             - unfold Int64.add. rewrite Int64_wrap_id; [lia|].
               unfold Int64.in_range, Int64.min_signed, Int64.max_signed in *. lia.
             - unfold Int64.max_signed in Hover. lia. }
           assert (Hlen' : Int64.add cur n + lenrest <= 2 ^ 63).
           { destruct (decide (cur + n <= Int64.max_signed)) as [Hfit|Hover].
             - unfold Int64.add. rewrite Int64_wrap_id; [lia|].
               unfold Int64.in_range, Int64.min_signed, Int64.max_signed in *. lia.
             - unfold Int64.max_signed in Hover.
               pose proof (Int64_wrap_range (cur + n)) as Hr.
               unfold Int64.in_range, Int64.min_signed, Int64.max_signed in Hr.
               unfold Int64.add. lia. }
           destruct (IH (Int64.add cur n) st2 (Int64_wrap_range _) Hlen')
             as [Hadds Hbytes2].
           destruct Hfirst as [Hadds1 Hbytes1].
           split.
           ++ eapply adds_trans; [exact Hadds1|].
              eapply adds_weaken; [|exact Hadds].
              intros ev Hev path p Hs. destruct (Hev path p Hs) as [-> Hp].
              split; [done|]. by apply Hincl.
           ++ intros path p Hout. rewrite Hbytes2.
              ** by apply Hbytes1.
              ** intros [-> Hp]. apply Hout. split; [done|]. by apply Hincl.
    + destruct err as [e|].
      * simpl. destruct e; (split; [apply adds_refl|done]).
      * assert (Hz : n = 0) by (apply Z.ltb_ge in Hpos; lia).
        assert (Htotal : total = Z.of_nat (length (delivered rest))).
        { subst total n. simpl. rewrite length_app. lia. }
        rewrite Htotal in *. simpl. apply IH; [done|lia].
Qed.

Lemma adds_newEvents P st st' : adds P st st' -> Forall P (newEvents st st').
Proof. intros (evs & H & F). by rewrite (newEvents_app _ _ _ H). Qed.

(** [downloadChunk] stores bytes only in the span of its chunk when the
    body the server sends is no longer than the span. *)
Lemma downloadChunk_span w url chunk fd headers st :
  Int64.in_range (Start chunk) ->
  End chunk <= Int64.max_signed ->
  (forall resp,
     Do w (chunkRequest url chunk headers) = inr resp ->
     Z.of_nat (length (delivered (Body resp))) <= End chunk - Start chunk + 1) ->
  let st' := (downloadChunk w url chunk fd headers st).2 in
  let inside path p := path = fd /\ in_chunk p chunk in
  adds (fun ev => forall path p, storesAt path p ev -> inside path p) st st' /\
  (forall path p, ~ inside path p -> byteAt st' path p = byteAt st path p).
Proof.
  intros Hstart Hend Hfit. cbv zeta. unfold downloadChunk.
  set (req := chunkRequest url chunk headers) in *.
  assert (Hreq : adds (fun ev => forall path p, storesAt path p ev ->
                         path = fd /\ in_chunk p chunk) st (log (EvDo req) st)).
  { apply adds_log. intros path p []. }
  destruct (Do w req) as [e|resp]; [by split|].
  destruct (negb _); [by split|].
  specialize (Hfit resp eq_refl).
  destruct (chunkLoop_span w fd (Body resp) (Start chunk) (log (EvDo req) st) Hstart)
    as [Hadds Hbytes].
  { unfold Int64.max_signed in Hend. lia. }
  split.
  - eapply adds_trans; [exact Hreq|].
    eapply adds_weaken; [|exact Hadds].
    intros ev Hev path p Hs. destruct (Hev path p Hs) as [-> Hp].
    split; [done|]. unfold in_chunk. lia.
  - intros path p Hout. rewrite Hbytes; [done|].
    intros [-> Hp]. apply Hout. split; [done|]. unfold in_chunk. lia.
Qed.

(** C6, as the code has it.  For every chunk with [int64] bounds and every
    response body that delivers at most [End - Start + 1] bytes, all bytes
    the chunk's fetcher stores go to the shared file at offsets within
    [Start .. End], and every other byte of every file is left as it was;
    so the fetchers of two chunks with disjoint spans store at no common
    offset. *)
Theorem C6_fetcher_writes_within_span
    (w : World) (url fd headers : string) (a b : Chunk) (sa sb : State) :
  Int64.in_range (Start a) -> End a <= Int64.max_signed ->
  Int64.in_range (Start b) -> End b <= Int64.max_signed ->
  (forall c resp,
     c = a \/ c = b ->
     Do w (chunkRequest url c headers) = inr resp ->
     Z.of_nat (length (delivered (Body resp))) <= End c - Start c + 1) ->
  let sa' := (downloadChunk w url a fd headers sa).2 in
  let sb' := (downloadChunk w url b fd headers sb).2 in
  (forall ev path p,
     ev ∈ newEvents sa sa' -> storesAt path p ev -> path = fd /\ in_chunk p a) /\
  (forall path p,
     ~ (path = fd /\ in_chunk p a) -> byteAt sa' path p = byteAt sa path p) /\
  ((forall p, ~ (in_chunk p a /\ in_chunk p b)) ->
   forall eva evb path p,
     eva ∈ newEvents sa sa' -> evb ∈ newEvents sb sb' ->
     ~ (storesAt path p eva /\ storesAt path p evb)).
Proof.
  intros Hsa Hea Hsb Heb Hfit. cbv zeta.
  destruct (downloadChunk_span w url a fd headers sa Hsa Hea) as [Haa Hba].
  { intros resp. apply Hfit. by left. }
  destruct (downloadChunk_span w url b fd headers sb Hsb Heb) as [Hab _].
  { intros resp. apply Hfit. by right. }
  apply adds_newEvents in Haa, Hab.
  rewrite Forall_forall in Haa, Hab.
  split; [|split].
  - intros ev path p Hev. by apply Haa.
  - exact Hba.
  - intros Hdisj eva evb path p Heva Hevb [H1 H2].
    apply (Hdisj p). split.
    + by apply (Haa eva Heva path p).
    + by apply (Hab evb Hevb path p).
Qed.

Lemma C6_fetcher_writes_within_span_witness :
  let a := {| Start := 0; End := 1 |} in
  let sa' := (downloadChunk rangeWorld sampleURL a "file.bin.tmp" "" tmpState).2 in
  byteAt sa' "file.bin.tmp" 2 = byteAt tmpState "file.bin.tmp" 2.
Proof.
  cbv zeta.
  refine (proj1 (proj2 (C6_fetcher_writes_within_span rangeWorld sampleURL
            "file.bin.tmp" "" {| Start := 0; End := 1 |} {| Start := 2; End := 3 |}
            tmpState tmpState _ _ _ _ _)) "file.bin.tmp" 2 _).
  - unfold Int64.in_range, Int64.min_signed, Int64.max_signed. simpl. lia.
  - unfold Int64.max_signed. simpl. lia.
  - unfold Int64.in_range, Int64.min_signed, Int64.max_signed. simpl. lia.
  - unfold Int64.max_signed. simpl. lia.
  - intros c resp [-> | ->] H; vm_compute in H; injection H as <-; simpl; lia.
  - unfold in_chunk. simpl. lia.
Defined.

(** A server that sends three bytes for the two-byte span [0 .. 1] makes
    the fetcher of that chunk store a byte at offset 2. *)
Lemma C6_counterexample :
  let chunk := {| Start := 0; End := 1 |} in
  let st' := (downloadChunk overlongWorld sampleURL chunk "file.bin.tmp" ""
                tmpState).2 in
  planChunks 8 !! 0%nat = Some chunk /\
  newEvents tmpState st' =
    [ EvDo (chunkRequest sampleURL chunk "");
      EvWriteAt "file.bin.tmp" 0 [Byte.x30; Byte.x31; Byte.x21] None;
      EvAdd 3 ] /\
  storesAt "file.bin.tmp" 2
    (EvWriteAt "file.bin.tmp" 0 [Byte.x30; Byte.x31; Byte.x21] None) /\
  ~ in_chunk 2 chunk /\
  byteAt tmpState "file.bin.tmp" 2 = None /\
  byteAt st' "file.bin.tmp" 2 = Some Byte.x21.
Proof.
  cbv zeta. split; [reflexivity|]. split; [reflexivity|].
  split; [simpl; split; [reflexivity|lia]|].
  split; [unfold in_chunk; simpl; lia|].
  split; reflexivity.
Qed.

(** ** The coordinator *)

Lemma chunkLoop_adds w fd body : forall cur st,
  adds (fetcherEvent fd) st (chunkLoop w fd body cur st).2.
Proof.
  induction body as [|[data err] rest IH]; intros cur st; simpl.
  - apply adds_refl.
  - destruct (0 <? Z.of_nat (length data)).
    + destruct (File_WriteAt_trace w fd data cur st) as (stored & Htr & _).
      destruct (File_WriteAt w fd data cur st) as [[e|] st1]; simpl in *.
      * exists [EvWriteAt fd cur stored (Some e)]. split; [done|].
        by repeat constructor.
      * assert (H1 : adds (fetcherEvent fd) st
                       (atomic_AddInt64 (Z.of_nat (length data)) st1)).
        { exists [EvWriteAt fd cur stored None; EvAdd (Z.of_nat (length data))].
          split; [|by repeat constructor].
          simpl. rewrite Htr. by rewrite <- app_assoc. }
        destruct err as [e|]; [by destruct e|].
        eapply adds_trans; [exact H1|]. apply IH.
    + destruct err as [e|]; [destruct e; apply adds_refl|]. apply IH.
Qed.

Lemma downloadChunk_adds w url chunk fd headers st :
  adds (fetcherEvent fd) st (downloadChunk w url chunk fd headers st).2.
Proof.
  unfold downloadChunk.
  assert (H1 : adds (fetcherEvent fd) st
                 (log (EvDo (chunkRequest url chunk headers)) st))
    by by apply adds_log.
  destruct (Do w _) as [e|resp]; [done|].
  destruct (negb _); [done|].
  eapply adds_trans; [exact H1|]. apply chunkLoop_adds.
Qed.

Lemma runFetchers_adds w url fd headers chunks sched : forall errChan st,
  chunkFailure errChan ->
  adds (fetcherEvent fd) st
       (runFetchers w url fd headers chunks sched errChan st).2 /\
  chunkFailure (runFetchers w url fd headers chunks sched errChan st).1.
Proof.
  induction sched as [|idx rest IH]; intros errChan st Hc; simpl.
  - split; [apply adds_refl|done].
  - destruct (chunks !! idx) as [c|]; [|by apply IH].
    pose proof (downloadChunk_adds w url c fd headers st) as H1.
    destruct (downloadChunk w url c fd headers st) as [[err|] st1]; simpl in H1.
    + edestruct (IH (match errChan with
                     | Some first => Some first
                     | None => Some (ErrChunk idx err) end) (log EvCancel st1))
        as [H2 H3].
      { destruct errChan; [done|]. simpl. eauto. }
      split; [|exact H3].
      eapply adds_trans; [exact H1|].
      eapply adds_trans; [|exact H2]. by apply adds_log.
    + destruct (IH errChan st1 Hc) as [H2 H3].
      split; [|exact H3]. eapply adds_trans; [exact H1|exact H2].
Qed.

Lemma File_WriteAt_result w fd data off st st' :
  (File_WriteAt w fd data off st).1 = (File_WriteAt w fd data off st').1.
Proof.
  unfold File_WriteAt. destruct (off <? 0); [done|].
  by destruct (WriteAt_err w fd off data) as [[k e]|].
Qed.

Lemma chunkLoop_result w fd body : forall cur st st',
  (chunkLoop w fd body cur st).1 = (chunkLoop w fd body cur st').1.
Proof.
  induction body as [|[data err] rest IH]; intros cur st st'; simpl; [done|].
  destruct (0 <? Z.of_nat (length data)).
  - pose proof (File_WriteAt_result w fd data cur st st') as HW.
    destruct (File_WriteAt w fd data cur st) as [[e|] st1],
             (File_WriteAt w fd data cur st') as [[e'|] st1'];
      simpl in HW; try done.
    destruct err as [e|]; [by destruct e|]. apply IH.
  - destruct err as [e|]; [by destruct e|]. apply IH.
Qed.

Lemma downloadChunk_result w url chunk fd headers st st' :
  (downloadChunk w url chunk fd headers st).1
  = (downloadChunk w url chunk fd headers st').1.
Proof.
  unfold downloadChunk.
  destruct (Do w _) as [e|resp]; [done|].
  destruct (negb _); [done|]. apply chunkLoop_result.
Qed.

(** The coordinator receives the failure of the fetcher that fails first
    in the order the goroutines ran. *)
Lemma runFetchers_first_failure w url fd headers chunks sched : forall errChan st,
  (runFetchers w url fd headers chunks sched errChan st).1
  = match errChan with
    | Some first => Some first
    | None => firstFailure (fetchOutcome w url fd headers chunks) sched
    end.
Proof.
  induction sched as [|idx rest IH]; intros errChan st; simpl.
  - by destruct errChan.
  - unfold fetchOutcome at 1.
    destruct (chunks !! idx) as [c|]; simpl; [|apply IH].
    rewrite <- (downloadChunk_result w url c fd headers st emptyState).
    destruct (downloadChunk w url c fd headers st) as [[err|] st1]; simpl.
    + rewrite IH. by destruct errChan.
    + apply IH.
Qed.

Lemma fetcherEvent_transferEvent tmp filename ev :
  fetcherEvent tmp ev -> transferEvent tmp filename ev.
Proof. by destruct ev. Qed.

(** The chunked transfer returns nothing, the failure of a chunk, or the
    failure of the rename, which is then in the trace. *)
Lemma chunkedTransfer_spec w urlLink filename tmpFile headers verbose fileSize
    sched st :
  let result :=
    chunkedTransfer w urlLink filename tmpFile headers verbose fileSize sched st in
  adds (transferEvent tmpFile filename) st result.2 /\
  (forall e, result.1 = Some e ->
     (exists idx cause, e = ErrChunk idx cause) \/
     (exists cause, e = ErrRename cause /\
        EvRename tmpFile filename (Some cause) ∈ newEvents st result.2)) /\
  (forall cause,
     EvRename tmpFile filename (Some cause) ∈ newEvents st result.2 ->
     result.1 = Some (ErrRename cause)).
Proof.
  cbv zeta. unfold chunkedTransfer.
  set (st0 := if verbose then log EvGoShowProgress (setCounter 0 st)
              else setCounter 0 st).
  assert (H0 : adds (transferEvent tmpFile filename) st st0).
  { subst st0. destruct verbose.
    - eapply adds_trans; [apply adds_setCounter|]. by apply adds_log.
    - apply adds_setCounter. }
  destruct (runFetchers_adds w urlLink tmpFile headers (planChunks fileSize) sched
              None st0 I) as [H1 H2].
  destruct (runFetchers w urlLink tmpFile headers (planChunks fileSize) sched
              None st0) as [received st1]; simpl in H1, H2.
  assert (Hst1 : adds (transferEvent tmpFile filename) st st1).
  { eapply adds_trans; [exact H0|].
    eapply adds_weaken; [|exact H1]. apply fetcherEvent_transferEvent. }
  assert (Hnorename : forall cause,
            EvRename tmpFile filename (Some cause) ∉ newEvents st st1).
  { intros cause Hin.
    assert (Hall : Forall (fun ev => forall o n e, ev <> EvRename o n e)
                     (newEvents st st1)).
    { apply adds_newEvents.
      apply (adds_trans _ st st0 st1).
      - subst st0. destruct verbose.
        + eapply adds_trans; [apply adds_setCounter|].
          apply adds_log. intros o n e. discriminate.
        + apply adds_setCounter.
      - eapply adds_weaken; [|exact H1]. intros ev Hev o n e ->. done. }
    rewrite Forall_forall in Hall. by eapply (Hall _ Hin). }
  destruct received as [err|].
  - simpl. split; [done|]. split.
    + intros e [= <-]. left. exact H2.
    + intros cause Hin. by destruct (Hnorename cause).
  - pose proof (os_Rename_trace w tmpFile filename st1) as Htr.
    destruct (os_Rename w tmpFile filename st1) as [[e|] st2] eqn:HR;
      simpl in Htr; simpl.
    + destruct Hst1 as (evs & Hevs & Hall).
      assert (Hnew : newEvents st st2
                     = evs ++ [EvRename tmpFile filename (Some e)]).
      { apply newEvents_app. rewrite Htr, Hevs. by rewrite <- app_assoc. }
      split; [|split].
      * exists (evs ++ [EvRename tmpFile filename (Some e)]). split.
        -- rewrite Htr, Hevs. by rewrite <- app_assoc.
        -- apply Forall_app. split; [done|]. by repeat constructor.
      * intros e' [= <-]. right. exists e. split; [done|].
        rewrite Hnew. apply elem_of_app. right. by apply list_elem_of_singleton.
      * intros cause Hin. rewrite Hnew in Hin.
        apply elem_of_app in Hin as [Hin|Hin].
        -- exfalso. apply (Hnorename cause).
           by rewrite (newEvents_app _ _ _ Hevs).
        -- apply list_elem_of_singleton in Hin. by injection Hin as ->.
    + destruct Hst1 as (evs & Hevs & Hall).
      assert (Hnew : newEvents st st2 = evs ++ [EvRename tmpFile filename None]).
      { apply newEvents_app. rewrite Htr, Hevs. by rewrite <- app_assoc. }
      split; [|split].
      * exists (evs ++ [EvRename tmpFile filename None]). split.
        -- rewrite Htr, Hevs. by rewrite <- app_assoc.
        -- apply Forall_app. split; [done|]. by repeat constructor.
      * done.
      * intros cause Hin. rewrite Hnew in Hin.
        apply elem_of_app in Hin as [Hin|Hin].
        -- exfalso. apply (Hnorename cause).
           by rewrite (newEvents_app _ _ _ Hevs).
        -- by apply list_elem_of_singleton in Hin.
Qed.

Lemma checkRangeSupport_state w url st :
  trace (checkRangeSupport w url st).2 = trace st ++ [EvDo (probeRequest url)] /\
  files (checkRangeSupport w url st).2 = files st.
Proof.
  unfold checkRangeSupport.
  destruct (Do w _) as [e|resp]; [done|]. by destruct (negb _).
Qed.

Lemma String_length_append (s1 s2 : string) :
  String.length (s1 +:+ s2) = (String.length s1 + String.length s2)%nat.
Proof. induction s1 as [|a s1 IH]; simpl; [done|]. by rewrite IH. Qed.

Lemma tmp_name_differs (filename : string) : filename +:+ ".tmp" <> filename.
Proof.
  intros H. apply (f_equal String.length) in H.
  rewrite String_length_append in H. simpl in H. lia.
Qed.

(** The five ways through [downloadFile]. *)
Lemma downloadFile_cases w urlLink filename headers verbose sched st :
  let out := outputName w urlLink filename in
  let tmp := out +:+ ".tmp" in
  let result := downloadFile w urlLink filename headers verbose sched st in
  let probe := checkRangeSupport w urlLink st in
  (exists e, ParseRequestURI w urlLink = inl e /\
             result = (Some (ErrInvalidURL e), st)) \/
  (exists u e, ParseRequestURI w urlLink = inr u /\ probe.1.2 = Some e /\
               result = (Some e, probe.2)) \/
  (exists u, ParseRequestURI w urlLink = inr u /\ probe.1.2 = None /\
             probe.1.1.1 = false /\
             result = sequentialDownload w u out headers verbose
                        (log EvPrint probe.2)) \/
  (exists u e st2, ParseRequestURI w urlLink = inr u /\ probe.1.2 = None /\
                   probe.1.1.1 = true /\
                   os_Create w tmp (log EvPrint probe.2) = (Some e, st2) /\
                   result = (Some (ErrCreateTmp e), st2)) \/
  (exists u st2, ParseRequestURI w urlLink = inr u /\ probe.1.2 = None /\
                 probe.1.1.1 = true /\
                 os_Create w tmp (log EvPrint probe.2) = (None, st2) /\
                 let transfer :=
                   chunkedTransfer w urlLink out tmp headers verbose
                                   probe.1.1.2 sched st2 in
                 result =
                   (transfer.1,
                    (os_Remove w tmp
                       (log (EvClose tmp) (log EvCancel transfer.2))).2)).
Proof.
  cbv zeta. unfold downloadFile, outputName.
  destruct (ParseRequestURI w urlLink) as [e|u]; [left; eauto|]. right.
  destruct (checkRangeSupport w urlLink st) as [[[sr size] err] st1]. simpl.
  destruct err as [e|]; [left; eauto|]. right.
  destruct sr; simpl; [right|left; eauto].
  set (out := if String.eqb filename "" then getFilename u else filename).
  destruct (os_Create w (out +:+ ".tmp") (log EvPrint st1)) as [[e|] st2] eqn:HC.
  - left. by exists u, e, st2.
  - right. exists u, st2. repeat (split; [done|]).
    destruct (chunkedTransfer w urlLink out (out +:+ ".tmp") headers verbose size
                sched st2) as [r st3]. simpl.
    by destruct (os_Remove w (out +:+ ".tmp") _).
Qed.

Lemma createsPath_sequentialEvent (filename : string) ev :
  sequentialEvent filename ev -> createsPath (filename +:+ ".tmp") ev = false.
Proof.
  destruct ev; simpl; try done.
  intros ->. apply String.eqb_neq. intros H. by apply (tmp_name_differs filename).
Qed.

(** Without range support nothing is ever done to [<output>.tmp]. *)
Lemma unsupported_never_creates_tmp w urlLink filename headers verbose sched st :
  let tmp := outputName w urlLink filename +:+ ".tmp" in
  let result := downloadFile w urlLink filename headers verbose sched st in
  (checkRangeSupport w urlLink st).1.1.1 = false ->
  Forall (fun ev => createsPath tmp ev = false) (newEvents st result.2) /\
  files result.2 !! tmp = files st !! tmp.
Proof.
  cbv zeta. intros Hsr.
  destruct (checkRangeSupport_state w urlLink st) as [Htr Hfiles].
  destruct (downloadFile_cases w urlLink filename headers verbose sched st)
    as [(e & Hparse & ->)|[(u & e & Hparse & Herr & ->)|[(u & Hparse & Herr & _ & ->)
       |[(u & e & st2 & _ & _ & Htrue & _)|(u & st2 & _ & _ & Htrue & _)]]]];
    try congruence.
  - simpl. split; [|done].
    rewrite (newEvents_app st st []); [constructor|]. by rewrite app_nil_r.
  - simpl. split; [|by rewrite Hfiles].
    rewrite (newEvents_app _ _ _ Htr). by repeat constructor.
  - set (out := outputName w urlLink filename) in *.
    set (st1 := (checkRangeSupport w urlLink st).2) in *.
    split.
    + apply adds_newEvents.
      apply (adds_trans _ st (log EvPrint st1)).
      * exists [EvDo (probeRequest urlLink); EvPrint]. split.
        -- simpl. rewrite Htr. by rewrite <- app_assoc.
        -- by repeat constructor.
      * eapply adds_weaken; [|apply sequentialDownload_adds].
        apply createsPath_sequentialEvent.
    + rewrite sequentialDownload_files_other by apply tmp_name_differs.
      simpl. by rewrite Hfiles.
Qed.

(** C2, as the code has it.  When the probe does not report range support
    (it failed, or it succeeded and [supportsRange] is false), [downloadFile]
    never calls [os.Create] on [<output>.tmp] and leaves that path as it was;
    after a successful probe it does exactly what [sequentialDownload] does.
    So the chunked machinery is entered only when [supportsRange] is true. *)
Theorem C2_sequential_when_range_unsupported
    (w : World) (urlLink filename headers : string) (verbose : bool)
    (sched : list nat) (st : State) :
  let out := outputName w urlLink filename in
  let tmp := out +:+ ".tmp" in
  let result := downloadFile w urlLink filename headers verbose sched st in
  let probe := checkRangeSupport w urlLink st in
  probe.1.1.1 = false ->
  Forall (fun ev => createsPath tmp ev = false) (newEvents st result.2) /\
  files result.2 !! tmp = files st !! tmp /\
  (forall u, ParseRequestURI w urlLink = inr u -> probe.1.2 = None ->
     result = sequentialDownload w u out headers verbose (log EvPrint probe.2)).
Proof.
  cbv zeta. intros Hsr.
  destruct (unsupported_never_creates_tmp w urlLink filename headers verbose sched
              st Hsr) as [Hnone Hsame].
  split; [done|]. split; [done|].
  intros u Hparse Herr.
  destruct (downloadFile_cases w urlLink filename headers verbose sched st)
    as [(e & Hparse' & _)|[(u' & e & _ & Herr' & _)|[(u' & Hparse' & _ & _ & ->)
       |[(u' & e & st2 & _ & _ & Htrue & _)|(u' & st2 & _ & _ & Htrue & _)]]]];
    congruence.
Qed.

Lemma C2_sequential_when_range_unsupported_witness :
  let result := downloadFile plainWorld sampleURL "" "" false [0; 1; 2; 3]%nat
                  emptyState in
  files result.2 !! "file.bin.tmp" = None.
Proof.
  cbv zeta.
  exact (proj1 (proj2 (C2_sequential_when_range_unsupported plainWorld sampleURL
           "" "" false [0; 1; 2; 3]%nat emptyState eq_refl))).
Defined.

(** With range support and a resource of size 0 the probe is followed by
    the creation of the temporary file and by four chunk requests for the
    empty span. *)
Lemma C2_counterexample :
  let result := downloadFile emptyFileWorld sampleURL "" "" false [0; 1; 2; 3]%nat
                  emptyState in
  (checkRangeSupport emptyFileWorld sampleURL emptyState).1 = (true, 0, None) /\
  newEvents emptyState result.2 !! 2%nat = Some (EvCreate "file.bin.tmp" None) /\
  createsPath "file.bin.tmp" (EvCreate "file.bin.tmp" None) = true /\
  map (fun req => ReqHeader req !! "Range")
      (requestsSent (newEvents emptyState result.2)) =
    [ None; Some ["bytes=0--1"]; Some ["bytes=0--1"]; Some ["bytes=0--1"];
      Some ["bytes=0--1"] ] /\
  result.1 = Some (ErrChunk 0 (ErrChunkStatus 416)).
Proof. cbv zeta. repeat split; vm_compute; reflexivity. Qed.

(** C8.  Whenever [downloadFile] has created [<output>.tmp], its last two
    actions before it returns are to close that file and to call
    [os.Remove] on it, whatever it returns; unless the operating system
    refuses the removal, the path no longer exists afterwards.  The errors
    it can return from there are the failure of a chunk and the failure of
    the rename, and a failed rename is always returned as such. *)
Theorem C8_temporary_file_removed
    (w : World) (urlLink filename headers : string) (verbose : bool)
    (sched : list nat) (st : State) :
  let out := outputName w urlLink filename in
  let tmp := out +:+ ".tmp" in
  let result := downloadFile w urlLink filename headers verbose sched st in
  EvCreate tmp None ∈ newEvents st result.2 ->
  (exists evs rm, newEvents st result.2 = evs ++ [EvClose tmp; EvRemove tmp rm]) /\
  (Remove_err w tmp = None -> files result.2 !! tmp = None) /\
  (forall e, result.1 = Some e ->
     (exists idx cause, e = ErrChunk idx cause) \/
     (exists cause, e = ErrRename cause /\
        EvRename tmp out (Some cause) ∈ newEvents st result.2)) /\
  (forall cause, EvRename tmp out (Some cause) ∈ newEvents st result.2 ->
     result.1 = Some (ErrRename cause)).
Proof.
  cbv zeta. intros Hcreated.
  destruct (checkRangeSupport_state w urlLink st) as [Htr Hfiles].
  set (out := outputName w urlLink filename) in *.
  set (tmp := out +:+ ".tmp") in *.
  set (st1 := (checkRangeSupport w urlLink st).2) in *.
  destruct (downloadFile_cases w urlLink filename headers verbose sched st)
    as [(e & Hparse & Hres)|[(u & e & Hparse & Herr & Hres)|[(u & Hparse & Herr & Hsr & Hres)
       |[(u & e & st2 & _ & _ & _ & HC & Hres)|(u & st2 & _ & _ & _ & HC & Hres)]]]];
    fold out tmp st1 in Hres, Hcreated |- *; try fold out tmp st1 in HC.
  - exfalso. rewrite Hres in Hcreated. simpl in Hcreated.
    rewrite (newEvents_app st st []) in Hcreated by by rewrite app_nil_r.
    by apply elem_of_nil in Hcreated.
  - exfalso. rewrite Hres in Hcreated. simpl in Hcreated.
    rewrite (newEvents_app _ _ _ Htr) in Hcreated.
    by apply list_elem_of_singleton in Hcreated.
  - exfalso.
    destruct (unsupported_never_creates_tmp w urlLink filename headers verbose
                sched st Hsr) as [Hall _].
    fold out tmp in Hall. rewrite Forall_forall in Hall.
    specialize (Hall _ Hcreated). simpl in Hall.
    by rewrite String.eqb_refl in Hall.
  - exfalso. rewrite Hres in Hcreated. simpl in Hcreated.
    pose proof (os_Create_trace w tmp (log EvPrint st1)) as HCt.
    rewrite HC in HCt. simpl in HCt.
    rewrite (newEvents_app st st2
               [EvDo (probeRequest urlLink); EvPrint; EvCreate tmp (Some e)])
      in Hcreated.
    + repeat (apply elem_of_cons in Hcreated as [Hcreated|Hcreated];
              [discriminate|]).
      by apply elem_of_nil in Hcreated.
    + rewrite HCt, Htr. by rewrite <- !app_assoc.
  - cbv zeta in Hres.
    set (transfer := chunkedTransfer w urlLink out tmp headers verbose
                       (checkRangeSupport w urlLink st).1.1.2 sched st2) in *.
    destruct (chunkedTransfer_spec w urlLink out tmp headers verbose
                (checkRangeSupport w urlLink st).1.1.2 sched st2)
      as ((tevs & Htevs & _) & Hfatal & Hrename).
    fold transfer in Htevs, Hfatal, Hrename.
    rewrite (newEvents_app _ _ _ Htevs) in Hfatal, Hrename.
    pose proof (os_Create_trace w tmp (log EvPrint st1)) as HCt.
    rewrite HC in HCt. simpl in HCt.
    destruct (os_Remove_trace w tmp (log (EvClose tmp) (log EvCancel transfer.2)))
      as [rm Hrm].
    assert (Hnew : newEvents st (downloadFile w urlLink filename headers verbose
                                   sched st).2
                   = [EvDo (probeRequest urlLink); EvPrint; EvCreate tmp None]
                       ++ tevs ++ [EvCancel; EvClose tmp; EvRemove tmp rm]).
    { apply newEvents_app. rewrite Hres. simpl. rewrite Hrm. simpl.
      rewrite Htevs, HCt, Htr. by rewrite <- !app_assoc. }
    rewrite Hnew. rewrite Hres. cbn [fst snd].
    split; [|split; [|split]].
    + exists ([EvDo (probeRequest urlLink); EvPrint; EvCreate tmp None]
                ++ tevs ++ [EvCancel]), rm.
      by rewrite <- !app_assoc.
    + apply os_Remove_files.
    + intros e He. destruct (Hfatal e He) as [Hchunk|(cause & -> & Hin)];
        [by left|right].
      exists cause. split; [done|].
      apply elem_of_app. right. apply elem_of_app. by left.
    + intros cause Hin. apply Hrename.
      apply elem_of_app in Hin as [Hin|Hin].
      * repeat (apply elem_of_cons in Hin as [Hin|Hin]; [discriminate|]).
        by apply elem_of_nil in Hin.
      * apply elem_of_app in Hin as [Hin|Hin]; [done|].
        repeat (apply elem_of_cons in Hin as [Hin|Hin]; [discriminate|]).
        by apply elem_of_nil in Hin.
Qed.

Lemma C8_temporary_file_removed_witness :
  let result := downloadFile renameFailWorld sampleURL "" "" false [0; 1; 2; 3]%nat
                  emptyState in
  files result.2 !! "file.bin.tmp" = None /\
  result.1 = Some (ErrRename (ErrLib "permission denied")).
Proof.
  cbv zeta.
  assert (Hcreated :
    EvCreate "file.bin.tmp" None
    ∈ newEvents emptyState
        (downloadFile renameFailWorld sampleURL "" "" false [0; 1; 2; 3]%nat
           emptyState).2).
  { apply (list_elem_of_lookup_2 _ 2%nat). vm_compute. reflexivity. }
  destruct (C8_temporary_file_removed renameFailWorld sampleURL "" "" false
              [0; 1; 2; 3]%nat emptyState Hcreated) as (_ & Hgone & _ & Hrename).
  split.
  - apply Hgone. reflexivity.
  - apply Hrename. apply (list_elem_of_lookup_2 _ 15%nat). vm_compute. reflexivity.
Defined.

(** The probe is the first thing [downloadFile] sends. *)
Lemma downloadFile_probe_first w urlLink filename headers verbose sched st u :
  ParseRequestURI w urlLink = inr u ->
  exists evs,
    trace (downloadFile w urlLink filename headers verbose sched st).2
    = trace st ++ EvDo (probeRequest urlLink) :: evs.
Proof.
  intros Hparse.
  destruct (checkRangeSupport_state w urlLink st) as [Htr _].
  set (out := outputName w urlLink filename) in *.
  set (tmp := out +:+ ".tmp") in *.
  set (st1 := (checkRangeSupport w urlLink st).2) in *.
  destruct (downloadFile_cases w urlLink filename headers verbose sched st)
    as [(e & Hparse' & Hres)|[(u' & e & _ & _ & Hres)|[(u' & _ & _ & _ & Hres)
       |[(u' & e & st2 & _ & _ & _ & HC & Hres)|(u' & st2 & _ & _ & _ & HC & Hres)]]]];
    fold out tmp st1 in Hres; try fold out tmp st1 in HC; rewrite Hres.
  - congruence.
  - exists []. done.
  - destruct (sequentialDownload_adds w u' out headers verbose (log EvPrint st1))
      as (evs & Hevs & _).
    exists (EvPrint :: evs). rewrite Hevs. simpl. rewrite Htr.
    by rewrite <- !app_assoc.
  - pose proof (os_Create_trace w tmp (log EvPrint st1)) as HCt.
    rewrite HC in HCt. simpl in HCt.
    exists [EvPrint; EvCreate tmp (Some e)]. simpl. rewrite HCt, Htr.
    by rewrite <- !app_assoc.
  - cbv zeta.
    set (transfer := chunkedTransfer w urlLink out tmp headers verbose
                       (checkRangeSupport w urlLink st).1.1.2 sched st2) in *.
    destruct (chunkedTransfer_spec w urlLink out tmp headers verbose
                (checkRangeSupport w urlLink st).1.1.2 sched st2)
      as ((tevs & Htevs & _) & _).
    fold transfer in Htevs.
    pose proof (os_Create_trace w tmp (log EvPrint st1)) as HCt.
    rewrite HC in HCt. simpl in HCt.
    destruct (os_Remove_trace w tmp (log (EvClose tmp) (log EvCancel transfer.2)))
      as [rm Hrm].
    exists ([EvPrint; EvCreate tmp None] ++ tevs
              ++ [EvCancel; EvClose tmp; EvRemove tmp rm]).
    cbn [fst snd]. rewrite Hrm. simpl. rewrite Htevs, HCt, Htr.
    by rewrite <- !app_assoc.
Qed.

(** ** Custom headers on every request *)

(** C4, evaluated on the code.  With the header string
    ["User-Agent:custom,X-Test:1"], every chunk request and the sequential
    request carry [User-Agent: custom] and [X-Test: 1], and a key given
    twice keeps both values; but the probe request, the first request
    [downloadFile] sends, carries no header at all. *)
Theorem C4_probe_request_lacks_custom_headers :
  let headers := "User-Agent:custom,X-Test:1" in
  (forall url chunk,
     ReqHeader (chunkRequest url chunk headers) !! "User-Agent" = Some ["custom"] /\
     ReqHeader (chunkRequest url chunk headers) !! "X-Test" = Some ["1"]) /\
  (forall parsedURL,
     ReqHeader (sequentialRequest parsedURL headers) !! "User-Agent" = Some ["custom"] /\
     ReqHeader (sequentialRequest parsedURL headers) !! "X-Test" = Some ["1"]) /\
  (forall h : Header,
     applyHeaders "X-Test:1,X-Test:2" h !! "X-Test" =
     Some (default [] (h !! "X-Test") ++ ["1"; "2"])) /\
  (forall url, ReqHeader (probeRequest url) = ∅) /\
  (forall w filename verbose sched,
     head (requestsSent (trace
       (downloadFile w sampleURL filename headers verbose sched emptyState).2))
     = match ParseRequestURI w sampleURL with
       | inr _ => Some (probeRequest sampleURL)
       | inl _ => None
       end) /\
  Header_Get (ReqHeader (probeRequest sampleURL)) "User-Agent" = "" /\
  Header_Get (ReqHeader (probeRequest sampleURL)) "X-Test" = "".
Proof.
  cbv zeta. split; [|split; [|split; [|split; [|split; [|split]]]]].
  - intros url chunk. unfold chunkRequest. simpl ReqHeader.
    rewrite applyHeaders_sample. split.
    + rewrite Header_Add_lookup_ne by done.
      rewrite (Header_Add_lookup "User-Agent" _ "User-Agent") by reflexivity.
      rewrite Header_Set_lookup_ne by done. by rewrite lookup_empty.
    + rewrite (Header_Add_lookup "X-Test" _ "X-Test") by reflexivity.
      rewrite Header_Add_lookup_ne by done.
      rewrite Header_Set_lookup_ne by done. by rewrite lookup_empty.
  - intros parsedURL. split; reflexivity.
  - apply applyHeaders_duplicate.
  - reflexivity.
  - intros w filename verbose sched.
    destruct (ParseRequestURI w sampleURL) as [e|u] eqn:Hparse.
    + unfold downloadFile. by rewrite Hparse.
    + destruct (downloadFile_probe_first w sampleURL filename
                  "User-Agent:custom,X-Test:1" verbose sched emptyState u Hparse)
        as [evs ->].
      reflexivity.
  - reflexivity.
  - reflexivity.
Qed.

(** ** The goroutines *)

Section Goroutines.

Import Coordination.

Variable n : nat.
Variable outcome : nat -> option Error.




















Lemma exec_app sched1 : forall sched2 s,
  exec n outcome (sched1 ++ sched2) s
  = exec n outcome sched1 s ≫= exec n outcome sched2.
Proof using Type.
  induction sched1 as [|a rest IH]; intros sched2 s; simpl; [done|].
  destruct (step n outcome a s); simpl; [apply IH|done].
Qed.

(** The coordinator alone starts the goroutines that are left to start and
    arrives at [wg.Wait()]. *)
Lemma run_spawn (m : nat) : forall (k : nat) s,
  (k + m = n)%nat -> main s = MAdd k -> length (fetchers s) = n ->
  exists s',
    exec n outcome (replicate (2 * m + 1) Main) s = Some s' /\
    main s' = MWait /\
    fetchers s' = take k (fetchers s) ++ replicate m FDownload /\
    wg s' = wg s + Z.of_nat m /\
    errChan s' = errChan s /\ closed s' = closed s.
Proof using Type.
  induction m as [|m IH]; intros k s Hk Hmain Hlen.
  - simpl. unfold stepMain. rewrite Hmain.
    assert (Hge : (k <? n)%nat = false) by (apply Nat.ltb_ge; lia).
    rewrite Hge. eexists. split; [done|]. simpl.
    rewrite app_nil_r, take_ge by lia. repeat split; lia.
  - replace (2 * S m + 1)%nat with (S (S (2 * m + 1))) by lia.
    simpl replicate. simpl exec. unfold stepMain at 1. rewrite Hmain.
    assert (Hlt : (k <? n)%nat = true) by (apply Nat.ltb_lt; lia).
    rewrite Hlt. simpl.
    edestruct (IH (S k)) as (s' & Hexec & Hm & Hf & Hw & He & Hc);
      [| | |exists s'; split; [exact Hexec|]].
    + lia.
    + reflexivity.
    + simpl. by rewrite length_insert.
    + simpl in *. split; [done|]. split; [|split; [lia|done]].
      rewrite Hf.
      rewrite (take_S_r (<[k:=FDownload]> (fetchers s)) k FDownload).
      * rewrite take_insert_ge by lia. by rewrite <- app_assoc.
      * apply list_lookup_insert_eq. lia.
Qed.

(** One goroutine runs from [downloadChunk] to its end while the
    coordinator waits. *)
Lemma run_fetcher (i : nat) s :
  main s = MWait -> closed s = false -> fetchers s !! i = Some FDownload ->
  1 <= wg s ->
  exists s',
    exec n outcome (runToEnd outcome i) s = Some s' /\
    main s' = MWait /\ closed s' = false /\
    fetchers s' = <[i := FDone]> (fetchers s) /\
    wg s' = wg s - 1 /\
    errChan s' = match errChan s with
                 | Some first => Some first
                 | None => ErrChunk i <$> outcome i
                 end.
Proof using Type.
  intros Hmain Hcl Hi Hwg.
  pose proof (lookup_lt_Some _ _ _ Hi) as Hlt.
  assert (Hnopanic : (wg s - 1 <? 0) = false) by (apply Z.ltb_ge; lia).
  unfold runToEnd. destruct (outcome i) as [err|] eqn:Hout.
  - simpl. unfold stepFetcher at 1. rewrite Hmain, Hi, Hout. simpl.
    unfold stepFetcher at 1. simpl. rewrite Hmain.
    rewrite list_lookup_insert_eq by done. rewrite Hcl.
    destruct (errChan s) as [first|] eqn:Hec; simpl.
    + unfold stepFetcher at 1. simpl. rewrite Hmain.
      rewrite list_lookup_insert_eq by (by rewrite length_insert). simpl.
      unfold stepFetcher at 1. simpl. rewrite Hmain.
      rewrite list_lookup_insert_eq by (by rewrite !length_insert).
      rewrite Hnopanic. simpl.
      eexists. split; [done|]. simpl.
      rewrite !list_insert_insert_eq. by rewrite Hec.
    + unfold stepFetcher at 1. simpl. rewrite Hmain.
      rewrite list_lookup_insert_eq by (by rewrite length_insert). simpl.
      unfold stepFetcher at 1. simpl. rewrite Hmain.
      rewrite list_lookup_insert_eq by (by rewrite !length_insert).
      rewrite Hnopanic. simpl.
      eexists. split; [done|]. simpl.
      by rewrite !list_insert_insert_eq.
  - simpl. unfold stepFetcher at 1. rewrite Hmain, Hi, Hout. simpl.
    unfold stepFetcher at 1. simpl. rewrite Hmain.
    rewrite list_lookup_insert_eq by done. rewrite Hnopanic. simpl.
    eexists. split; [done|]. simpl.
    rewrite !list_insert_insert_eq. by destruct (errChan s).
Qed.

(** The goroutines run to their ends one after the other, in the order
    [order]. *)
Lemma run_fetchers order : forall s,
  NoDup order ->
  main s = MWait -> closed s = false ->
  (forall i, i ∈ order -> fetchers s !! i = Some FDownload) ->
  Z.of_nat (length order) <= wg s ->
  exists s',
    exec n outcome (concat (map (runToEnd outcome) order)) s = Some s' /\
    main s' = MWait /\ closed s' = false /\
    wg s' = wg s - Z.of_nat (length order) /\
    errChan s' = match errChan s with
                 | Some first => Some first
                 | None => firstFailure outcome order
                 end.
Proof using Type.
  induction order as [|i rest IH]; intros s Hnd Hmain Hcl Hdl Hwg.
  - exists s. simpl. split; [done|]. split; [done|]. split; [done|].
    split; [lia|]. by destruct (errChan s).
  - apply NoDup_cons in Hnd as [Hi Hnd]. simpl in Hwg.
    destruct (run_fetcher i s Hmain Hcl) as (s1 & Hexec1 & Hm1 & Hc1 & Hf1 & Hw1 & He1).
    { apply Hdl. apply elem_of_cons. by left. }
    { lia. }
    destruct (IH s1 Hnd Hm1 Hc1) as (s' & Hexec & Hm & Hc & Hw & He).
    { intros j Hj. rewrite Hf1.
      rewrite list_lookup_insert_ne by (intros ->; done).
      apply Hdl. apply elem_of_cons. by right. }
    { lia. }
    exists s'. simpl. rewrite exec_app, Hexec1. simpl.
    split; [done|]. split; [done|]. split; [done|]. split; [lia|].
    rewrite He, He1.
    destruct (errChan s); [done|]. by destruct (outcome i).
Qed.

(** With every fetcher done the coordinator closes the channel and
    receives what is in it. *)
Lemma run_finish s :
  main s = MWait -> wg s = 0 ->
  exists s',
    exec n outcome [Main; Main; Main] s = Some s' /\
    main s' = MEvaluate (errChan s).
Proof using Type.
  intros Hmain Hwg. simpl. unfold stepMain. rewrite Hmain, Hwg. simpl.
  destruct (errChan s); simpl; eauto.
Qed.

(** Every fetcher started, every fetcher run to its end in any order, then
    the coordinator: the run exists and ends with the coordinator holding
    the failure of the first fetcher in that order that failed. *)
Lemma sequentialSchedule_run order :
  NoDup order -> (forall i, i ∈ order <-> (i < n)%nat) ->
  exists s,
    exec n outcome (sequentialSchedule n outcome order) (init n) = Some s /\
    main s = MEvaluate (firstFailure outcome order).
Proof using Type.
  intros Hnd Hall.
  assert (Hlen : length order = n).
  { assert (Hperm : order ≡ₚ seq 0%nat n).
    { apply NoDup_Permutation; [done|apply NoDup_seq|].
      intros i. rewrite Hall, elem_of_seq. lia. }
    rewrite Hperm. apply length_seq. }
  destruct (run_spawn n 0%nat (init n)) as (s1 & Hexec1 & Hm1 & Hf1 & Hw1 & He1 & Hc1).
  { lia. } { done. } { simpl. by rewrite length_replicate. }
  simpl in Hf1, Hw1, He1, Hc1.
  destruct (run_fetchers order s1 Hnd Hm1 Hc1) as (s2 & Hexec2 & Hm2 & Hc2 & Hw2 & He2).
  { intros i Hi. rewrite Hf1. apply lookup_replicate. split; [done|]. by apply Hall. }
  { lia. }
  rewrite He1 in He2.
  unfold sequentialSchedule, spawnAll.
  rewrite exec_app, Hexec1. simpl.
  rewrite exec_app, Hexec2. simpl.
  destruct (run_finish s2 Hm2 ltac:(lia)) as (s3 & Hexec3 & Hm3).
  exists s3. split; [exact Hexec3|]. by rewrite Hm3, He2.
Qed.

End Goroutines.

(** The run [downloadFile]'s model makes of the fetchers, one after the
    other in the order [order], is a run of the goroutines step by step, and
    the coordinator receives the same error in both. *)
Lemma runFetchers_is_a_schedule w url fd headers chunks order st :
  NoDup order -> (forall i, i ∈ order <-> (i < length chunks)%nat) ->
  let outcome := fetchOutcome w url fd headers chunks in
  exists s,
    Coordination.exec (length chunks) outcome
      (Coordination.sequentialSchedule (length chunks) outcome order)
      (Coordination.init (length chunks)) = Some s /\
    Coordination.main s
    = Coordination.MEvaluate (runFetchers w url fd headers chunks order None st).1.
Proof.
  intros Hnd Hall outcome.
  destruct (sequentialSchedule_run (length chunks) outcome order Hnd Hall)
    as (s & Hexec & Hmain).
  exists s. split; [done|].
  by rewrite Hmain, runFetchers_first_failure.
Qed.



(** * Further properties of the code *)

(** ** [formatSize] *)

Lemma unitLoop_spec fuel : forall n div exp,
  0 <= n -> n < 1024 ^ Z.of_nat (S fuel) ->
  0 < div -> div * n <= Int64.max_signed -> div <= Int64.max_signed ->
  exists j : nat,
    unitLoop fuel n div exp = Some (div * 1024 ^ Z.of_nat j, (exp + j)%nat) /\
    n < 1024 ^ (Z.of_nat j + 1) /\
    (j = 0%nat \/ 1024 ^ Z.of_nat j <= n).
Proof.
  induction fuel as [|fuel IH]; intros n div exp Hn Hfuel Hdiv Hprod Hdmax.
  - simpl in Hfuel. exists 0%nat. simpl.
    destruct (1024 <=? n) eqn:Hge; [apply Z.leb_le in Hge; lia|].
    rewrite Z.mul_1_r, Nat.add_0_r. split; [done|]. split; [lia|by left].
  - simpl unitLoop. destruct (1024 <=? n) eqn:Hge.
    + apply Z.leb_le in Hge.
      assert (Hq : Int64.quot n 1024 = n / 1024).
      { unfold Int64.quot. rewrite Z.quot_div_nonneg by lia.
        apply Int64_wrap_id.
        pose proof (Z.div_pos n 1024 ltac:(lia) ltac:(lia)).
        pose proof (Z.div_le_upper_bound n 1024 n ltac:(lia) ltac:(lia)).
        unfold Int64.in_range, Int64.min_signed, Int64.max_signed in *. nia. }
      assert (Hm : Int64.mul div 1024 = div * 1024).
      { unfold Int64.mul. apply Int64_wrap_id.
        unfold Int64.in_range, Int64.min_signed, Int64.max_signed in *. nia. }
      rewrite Hq, Hm.
      pose proof (Z.mul_div_le n 1024 ltac:(lia)) as Hle.
      pose proof (Z.div_pos n 1024 ltac:(lia) ltac:(lia)) as Hq0.
      assert (Hq1 : 1 <= n / 1024).
      { apply Z.div_le_lower_bound; lia. }
      destruct (IH (n / 1024) (div * 1024) (S exp)) as (j & Hloop & Hlt & Hlow).
      * done.
      * apply Z.div_lt_upper_bound; [lia|].
        rewrite <- Z.pow_succ_r by lia.
        replace (Z.succ (Z.of_nat (S fuel))) with (Z.of_nat (S (S fuel))) by lia.
        done.
      * lia.
      * unfold Int64.max_signed in *. nia.
      * unfold Int64.max_signed in *. nia.
      * exists (S j). rewrite Hloop.
        replace (Z.of_nat (S j)) with (Z.of_nat j + 1) by lia.
        rewrite (Z.pow_add_r 1024 (Z.of_nat j) 1) by lia.
        change (1024 ^ 1) with 1024.
        split; [f_equal; f_equal; [lia|lia]|]. split.
        -- rewrite (Z.pow_add_r 1024 (Z.of_nat j + 1) 1) by lia.
           change (1024 ^ 1) with 1024.
           pose proof (Z.mod_pos_bound n 1024 ltac:(lia)).
           pose proof (Z.div_mod n 1024 ltac:(lia)). lia.
        -- right. destruct Hlow as [->|Hlow]; simpl; lia.
    + apply Z.leb_gt in Hge. exists 0%nat. simpl.
      rewrite Z.mul_1_r, Nat.add_0_r. split; [done|]. split; [lia|by left].
Qed.

(** From 1 KiB on, [formatSize] scales an [int64] byte count by the power
    of 1024 just below it and names it with the matching letter of
    ["KMGTPE"]: the index stays within the six letters, so the function
    never panics, and the quotient it prints lies in [[1, 1024)]. *)
Theorem formatSize_unit (bytes : Z) :
  1024 <= bytes <= Int64.max_signed ->
  exists (k : nat) (unit : ascii),
    (k <= 5)%nat /\
    String.get k "KMGTPE" = Some unit /\
    formatSize bytes = Formatted (Scaled bytes (1024 ^ (Z.of_nat k + 1)) unit) /\
    1024 ^ (Z.of_nat k + 1) <= bytes < 1024 ^ (Z.of_nat k + 2).
Proof.
  intros [Hlo Hhi]. unfold formatSize, formatSizeWith.
  assert (Hge : (bytes <? 1024) = false) by (apply Z.ltb_ge; lia).
  rewrite Hge.
  assert (Hq : Int64.quot bytes 1024 = bytes / 1024).
  { unfold Int64.quot. rewrite Z.quot_div_nonneg by lia.
    apply Int64_wrap_id.
    pose proof (Z.div_pos bytes 1024 ltac:(lia) ltac:(lia)).
    pose proof (Z.div_le_upper_bound bytes 1024 bytes ltac:(lia) ltac:(lia)).
    unfold Int64.in_range, Int64.min_signed, Int64.max_signed in *. nia. }
  rewrite Hq.
  pose proof (Z.mul_div_le bytes 1024 ltac:(lia)) as Hle.
  pose proof (Z.mod_pos_bound bytes 1024 ltac:(lia)) as Hmod.
  pose proof (Z.div_mod bytes 1024 ltac:(lia)) as Hdm.
  destruct (unitLoop_spec 64 (bytes / 1024) 1024 0) as (j & Hloop & Hlt & Hlow).
  - apply Z.div_pos; lia.
  - apply Z.div_lt_upper_bound; [lia|].
    unfold Int64.max_signed in Hhi.
    change (1024 * 1024 ^ Z.of_nat 65) with (2 ^ 660). 
    assert (2 ^ 63 < 2 ^ 660) by (apply Z.pow_lt_mono_r; lia). lia.
  - lia.
  - lia.
  - unfold Int64.max_signed. lia.
  - rewrite Hloop. simpl Nat.add.
    assert (Hpow : 1024 * 1024 ^ Z.of_nat j = 1024 ^ (Z.of_nat j + 1)).
    { rewrite Z.pow_add_r by lia. change (1024 ^ 1) with 1024. lia. }
    assert (Hbounds : 1024 ^ (Z.of_nat j + 1) <= bytes < 1024 ^ (Z.of_nat j + 2)).
    { split.
      - rewrite <- Hpow. destruct Hlow as [->|Hlow]; simpl; lia.
      - replace (Z.of_nat j + 2) with ((Z.of_nat j + 1) + 1) by lia.
        rewrite (Z.pow_add_r 1024 (Z.of_nat j + 1) 1) by lia.
        change (1024 ^ 1) with 1024. lia. }
    assert (Hj : (j <= 5)%nat).
    { destruct (decide (j <= 5)%nat) as [|Hbig]; [done|exfalso].
      assert (1024 ^ 7 <= 1024 ^ (Z.of_nat j + 1))
        by (apply Z.pow_le_mono_r; lia).
      unfold Int64.max_signed in Hhi.
      change (1024 ^ 7) with (2 ^ 70) in *.
      assert (2 ^ 63 < 2 ^ 70) by (apply Z.pow_lt_mono_r; lia). lia. }
    rewrite Hpow.
    assert (Hget : exists unit, String.get j "KMGTPE" = Some unit).
    { do 6 (destruct j as [|j]; [by eexists|]). lia. }
    destruct Hget as [unit Hget]. exists j, unit. by rewrite Hget.
Qed.

Lemma formatSize_unit_witness :
  formatSize (5 * 1024 * 1024) = Formatted (Scaled (5 * 1024 * 1024) (1024 ^ 2) "M").
Proof.
  destruct (formatSize_unit (5 * 1024 * 1024)) as (k & unit & Hk & Hget & Hfmt & Hb).
  { unfold Int64.max_signed. lia. }
  assert (k = 1%nat) as ->.
  { destruct (decide (k = 1%nat)) as [|Hne]; [done|exfalso].
    destruct k as [|[|k]]; [simpl in Hb; lia|done|].
    assert (1024 ^ 3 <= 1024 ^ (Z.of_nat (S (S k)) + 1))
      by (apply Z.pow_le_mono_r; lia).
    lia. }
  injection Hget as <-. exact Hfmt.
Defined.

(** ** The header string *)

Lemma cut_lacks sep s : lacks sep s = true -> cut s sep = None.
Proof.
  induction s as [|a s IH]; simpl; [done|].
  destruct (Ascii.eqb a sep); simpl; [done|]. intros H. by rewrite IH.
Qed.

Lemma cut_None_lacks sep s : cut s sep = None -> lacks sep s = true.
Proof.
  induction s as [|a s IH]; simpl; [done|].
  destruct (Ascii.eqb a sep); simpl; [done|].
  destruct (cut s sep) as [[b c]|]; [done|]. intros _. by apply IH.
Qed.

Lemma cut_first sep key value :
  lacks sep key = true ->
  cut (key +:+ String sep value) sep = Some (key, value).
Proof.
  induction key as [|a key IH]; simpl.
  - by rewrite Ascii.eqb_refl.
  - destruct (Ascii.eqb a sep); simpl; [done|]. intros H. by rewrite IH.
Qed.

Lemma Split_lacks sep s : lacks sep s = true -> Split s sep = [s].
Proof.
  induction s as [|a s IH]; simpl; [done|].
  destruct (Ascii.eqb a sep); simpl; [done|]. intros H. by rewrite IH.
Qed.

Lemma Split_nonempty s sep : Split s sep <> [].
Proof.
  induction s as [|a s IH]; simpl; [done|].
  destruct (Split s sep); [done|]. by destruct (Ascii.eqb a sep).
Qed.

Lemma Split_append sep s1 s2 :
  Split (s1 +:+ String sep s2) sep = Split s1 sep ++ Split s2 sep.
Proof.
  induction s1 as [|a s1 IH]; simpl.
  - rewrite Ascii.eqb_refl.
    pose proof (Split_nonempty s2 sep). by destruct (Split s2 sep).
  - rewrite IH.
    pose proof (Split_nonempty s1 sep).
    destruct (Split s1 sep) as [|x xs]; [done|]. simpl.
    by destruct (Ascii.eqb a sep).
Qed.

(** The test for the empty string in front of the loop changes nothing:
    the loop over the empty string adds nothing. *)
Lemma applyHeaders_fold headers (h : Header) :
  applyHeaders headers h = fold_left addPair (Split headers ",") h.
Proof.
  unfold applyHeaders. destruct (String.eqb headers "") eqn:E; [|done].
  apply String.eqb_eq in E. by subst.
Qed.

(** A comma always ends a pair: the header string [a,b] is applied as [a]
    and then [b], whatever [a] and [b] are. *)
Theorem applyHeaders_comma (a b : string) (h : Header) :
  applyHeaders (a +:+ String "," b) h = applyHeaders b (applyHeaders a h).
Proof.
  rewrite !applyHeaders_fold, Split_append. apply fold_left_app.
Qed.

(** [strings.TrimSpace] takes Unicode white space off both ends, be it
    one byte or several, and nothing else: not the zero-width space, which
    is no white space for [unicode.IsSpace], and not bytes that are no
    valid UTF-8. *)
Lemma TrimSpace_examples :
  TrimSpace (String "009" (" a b " +:+ String "013" (String "010" ""))) = "a b" /\
  TrimSpace (noBreakSpace +:+ "v" +:+ noBreakSpace) = "v" /\
  TrimSpace (ideographicSpace +:+ " " +:+ nextLine +:+ "v w" +:+ nextLine
             +:+ " " +:+ ideographicSpace) = "v w" /\
  TrimSpace (" " +:+ ideographicSpace +:+ "  ") = "" /\
  TrimSpace (zeroWidthSpace +:+ "v ") = zeroWidthSpace +:+ "v" /\
  TrimSpace (String "160" " v") = String "160" " v" /\
  TrimSpace (" v" +:+ String "194" "") = "v" +:+ String "194" "".
Proof. vm_compute. repeat split. Qed.

(** A pair is cut at its first colon only: a single [key:value] whose value
    has colons of its own (but no comma) is added whole, both halves
    trimmed as [strings.TrimSpace] trims them, of Unicode white space and
    not of the ASCII kind alone; and a piece of text with no colon at all
    adds nothing. *)
Theorem applyHeaders_pair (key value : string) (h : Header) :
  lacks ":" key = true -> lacks "," key = true -> lacks "," value = true ->
  applyHeaders (key +:+ String ":" value) h
    = Header_Add (TrimSpace key) (TrimSpace value) h /\
  applyHeaders key h = h.
Proof.
  intros Hcolon Hkc Hvc. rewrite !applyHeaders_fold. split.
  - rewrite Split_lacks.
    + simpl. unfold addPair, SplitN2. by rewrite cut_first.
    + clear Hcolon. induction key as [|a key IH]; simpl in *.
      * done.
      * destruct (Ascii.eqb a ","); [done|]. simpl in *. by apply IH.
  - rewrite Split_lacks by done. simpl.
    unfold addPair, SplitN2. by rewrite cut_lacks.
Qed.

Lemma applyHeaders_pair_witness :
  applyHeaders (" X-Tag :" +:+ noBreakSpace +:+ "v 1" +:+ ideographicSpace) ∅
  = Header_Add "X-Tag" "v 1" ∅.
Proof.
  exact (proj1 (applyHeaders_pair " X-Tag "
                  (noBreakSpace +:+ "v 1" +:+ ideographicSpace) ∅
                  eq_refl eq_refl eq_refl)).
Defined.

Lemma Header_Add_keeps (key value k v : string) (rest : list string) (h : Header) :
  h !! k = Some (v :: rest) ->
  exists rest', Header_Add key value h !! k = Some (v :: rest').
Proof.
  intros Hk. unfold Header_Add.
  destruct (decide (CanonicalMIMEHeaderKey key = k)) as [->|Hne].
  - rewrite lookup_insert_eq, Hk. simpl. eauto.
  - rewrite lookup_insert_ne by done. eauto.
Qed.

Lemma addPair_keeps pair (k v : string) (rest : list string) (h : Header) :
  h !! k = Some (v :: rest) ->
  exists rest', addPair h pair !! k = Some (v :: rest').
Proof.
  intros Hk. unfold addPair.
  destruct (SplitN2 pair ":") as [|key [|value [|? ?]]]; eauto.
  by eapply Header_Add_keeps.
Qed.

(** No header string removes a header or changes the first value of
    one. *)
Lemma applyHeaders_keeps headers (k v : string) : forall (rest : list string) (h : Header),
  h !! k = Some (v :: rest) ->
  exists rest', applyHeaders headers h !! k = Some (v :: rest').
Proof.
  intros rest h Hk. rewrite applyHeaders_fold.
  revert rest h Hk.
  induction (Split headers ",") as [|pair pairs IH]; intros rest h Hk; simpl.
  - eauto.
  - destruct (addPair_keeps pair k v rest h Hk) as [rest1 H1].
    by eapply IH.
Qed.

(** Whatever the [-h] string says, the [Range] header a chunk request is
    read with is the span of its chunk: a custom [Range] is added after it,
    never in its place. *)
Theorem chunkRequest_Range (url : string) (chunk : Chunk) (headers : string) :
  Header_Get (ReqHeader (chunkRequest url chunk headers)) "Range"
  = rangeValue chunk.
Proof.
  unfold Header_Get, chunkRequest. simpl ReqHeader.
  change (CanonicalMIMEHeaderKey "Range") with "Range".
  destruct (applyHeaders_keeps headers "Range" (rangeValue chunk) []
              (Header_Set "Range" (rangeValue chunk) ∅)) as [rest' ->]; [|done].
  unfold Header_Set. change (CanonicalMIMEHeaderKey "Range") with "Range".
  apply lookup_insert_eq.
Qed.

(** ** The sizes of the planned chunks *)

(** Every planned chunk but the last spans [totalSize / concurrency] bytes
    and the last takes the remainder of the division on top; so every chunk
    asks for at least one byte exactly when [totalSize] is at least the
    number of chunks, and below that the chunks before the last are empty
    spans. *)
Theorem planned_chunk_sizes (totalSize : Z) :
  0 < totalSize <= Int64.max_signed ->
  let c := calculateConcurrency totalSize in
  let size (ch : Chunk) := End ch - Start ch + 1 in
  (forall (i : nat) ch,
     planChunks totalSize !! i = Some ch ->
     size ch = if decide (Z.of_nat i = c - 1)
               then totalSize / c + totalSize mod c
               else totalSize / c) /\
  ((forall (i : nat) ch, planChunks totalSize !! i = Some ch -> 1 <= size ch)
   <-> c <= totalSize).
Proof.
  intros [Hpos Hmax] c size.
  assert (Hc : c = 4 \/ c = 8) by apply calculateConcurrency_cases.
  assert (Hcn : (0 < Z.to_nat c)%nat) by lia.
  assert (Hlook : forall (i : nat) ch,
            planChunks totalSize !! i = Some ch ->
            (i < Z.to_nat c)%nat /\
            ch = {| Start := Z.of_nat i * (totalSize / c);
                    End := if decide (i = (Z.to_nat c - 1)%nat) then totalSize - 1
                           else Z.of_nat i * (totalSize / c) + totalSize / c - 1 |}).
  { intros i ch Hi. unfold planChunks in Hi. fold c in Hi.
    pose proof (lookup_lt_Some _ _ _ Hi) as Hlt.
    rewrite planChunksWith_length in Hlt. split; [done|].
    rewrite (planned_lookup (Z.to_nat c) totalSize Hcn Hpos Hmax i Hlt) in Hi.
    injection Hi as <-. by rewrite Z2Nat.id by lia. }
  pose proof (Z.div_mod totalSize c ltac:(lia)) as Hdm.
  pose proof (Z.mod_pos_bound totalSize c ltac:(lia)) as Hmod.
  assert (Hsizes : forall (i : nat) ch,
     planChunks totalSize !! i = Some ch ->
     size ch = if decide (Z.of_nat i = c - 1)
               then totalSize / c + totalSize mod c
               else totalSize / c).
  { intros i ch Hi. destruct (Hlook i ch Hi) as [Hlt ->]. subst size. simpl.
    destruct (decide (i = (Z.to_nat c - 1)%nat)) as [->|Hne].
    - rewrite decide_True by lia.
      replace (Z.of_nat (Z.to_nat c - 1)) with (c - 1) by lia. nia.
    - rewrite decide_False by lia. lia. }
  split; [exact Hsizes|]. split.
  - intros Hall.
    assert (Hfirst : exists ch, planChunks totalSize !! 0%nat = Some ch).
    { apply lookup_lt_is_Some_2. unfold planChunks.
      rewrite planChunksWith_length. lia. }
    destruct Hfirst as [ch Hch].
    pose proof (Hall _ _ Hch) as H1. rewrite (Hsizes _ _ Hch) in H1.
    rewrite decide_False in H1 by lia. nia.
  - intros Hge i ch Hi. rewrite (Hsizes i ch Hi).
    assert (1 <= totalSize / c) by (apply Z.div_le_lower_bound; lia).
    destruct (decide _); lia.
Qed.

Lemma planned_chunk_sizes_witness :
  map (fun ch => End ch - Start ch + 1) (planChunks 10) = [2; 2; 2; 4] /\
  forall (i : nat) ch, planChunks 10 !! i = Some ch -> 1 <= End ch - Start ch + 1.
Proof.
  split; [reflexivity|].
  apply (proj2 (planned_chunk_sizes 10 ltac:(unfold Int64.max_signed; lia))).
  vm_compute. discriminate.
Defined.

(** ** [getFilename] *)

Lemma lastElement_lacks s : lacks "/" (lastElement s) = true.
Proof.
  induction s as [|a s IH]; simpl; [done|].
  destruct (cut s "/") as [[b c]|] eqn:Hcut; [done|].
  apply cut_None_lacks in Hcut.
  destruct (Ascii.eqb a "/") eqn:Ha; simpl; [done|]. by rewrite Ha.
Qed.

Lemma stripTrailingSlashes_segment dir seg :
  seg <> "" -> lacks "/" seg = true ->
  stripTrailingSlashes (dir +:+ seg) = dir +:+ seg.
Proof.
  intros Hne Hseg.
  assert (Hs : forall s, s <> "" -> lacks "/" s = true ->
                         stripTrailingSlashes s = s).
  { induction s as [|a s IH]; intros Hs Hl; [done|]. simpl in *.
    apply andb_true_iff in Hl as [Ha Hl]. apply negb_true_iff in Ha.
    destruct s as [|b s]; [simpl; by rewrite Ha|].
    rewrite IH by done. done. }
  induction dir as [|a dir IH]; simpl; [by apply Hs|].
  rewrite IH. change (String a dir +:+ seg) with (String a (dir +:+ seg)).
  destruct (dir +:+ seg) eqn:E; [|done].
  exfalso. destruct dir; simpl in E; [by subst|done].
Qed.

Lemma lastElement_segment dir seg :
  lacks "/" seg = true ->
  lastElement (dir +:+ String "/" seg) = seg.
Proof.
  intros Hseg. induction dir as [|a dir IH]; simpl.
  - by rewrite (cut_lacks _ _ Hseg).
  - assert (Hcut : exists r, cut (dir +:+ String "/" seg) "/" = Some r).
    { clear IH. induction dir as [|b dir IHd]; simpl; [eauto|].
      destruct (Ascii.eqb b "/"); [eauto|].
      destruct IHd as [[x y] ->]. eauto. }
    destruct Hcut as [r ->]. exact IH.
Qed.

(** The output name taken from a URL is never empty and never has a path
    separator in it; a path that ends in a segment [seg] after a slash gives
    [seg], unless [seg] is the single dot [.]: that path, the empty path and
    the path [/] give [index.html]. *)
Theorem getFilename_segment (u : ParsedURL) :
  getFilename u <> "" /\
  lacks "/" (getFilename u) = true /\
  (forall dir seg,
     Path u = dir +:+ String "/" seg ->
     seg <> "" -> seg <> "." -> lacks "/" seg = true ->
     getFilename u = seg) /\
  (forall dir, Path u = dir +:+ "/." -> getFilename u = defaultOutputFilename) /\
  (Path u = "" \/ Path u = "/" -> getFilename u = defaultOutputFilename).
Proof.
  unfold getFilename, Base.
  assert (Hstrip : forall dir seg,
            seg <> "" -> lacks "/" seg = true ->
            stripTrailingSlashes (dir +:+ String "/" seg)
            = dir +:+ String "/" seg).
  { intros dir seg Hne Hseg.
    replace (dir +:+ String "/" seg) with ((dir +:+ "/") +:+ seg).
    - by apply stripTrailingSlashes_segment.
    - clear. induction dir as [|a dir IH]; [reflexivity|].
      change (String a ((dir +:+ "/") +:+ seg) = String a (dir +:+ String "/" seg)).
      by rewrite IH. }
  assert (Hnonempty : forall dir seg,
            String.eqb (dir +:+ String "/" seg) "" = false).
  { intros dir seg. apply String.eqb_neq. by destruct dir. }
  split; [|split; [|split; [|split]]].
  - destruct (String.eqb (Path u) "") eqn:E1; [done|].
    destruct (String.eqb (lastElement (stripTrailingSlashes (Path u))) "") eqn:E2;
      [done|].
    apply String.eqb_neq in E2.
    destruct (_ || _); [done|]. done.
  - destruct (String.eqb (Path u) "") eqn:E1; [done|].
    destruct (String.eqb (lastElement (stripTrailingSlashes (Path u))) "") eqn:E2;
      [done|].
    destruct (_ || _); [done|]. apply lastElement_lacks.
  - intros dir seg HPath Hne Hdot Hseg. rewrite HPath.
    rewrite Hnonempty, Hstrip, lastElement_segment by done.
    apply String.eqb_neq in Hne. rewrite Hne.
    apply String.eqb_neq in Hdot. rewrite Hdot. simpl.
    assert (Hslash : String.eqb seg "/" = false).
    { apply String.eqb_neq. intros ->. done. }
    by rewrite Hslash.
  - intros dir HPath. rewrite HPath.
    change (dir +:+ "/.") with (dir +:+ String "/" ".").
    by rewrite Hnonempty, Hstrip, lastElement_segment.
  - by intros [-> | ->].
Qed.

Lemma getFilename_segment_witness :
  getFilename {| UrlString := "http://example.com/a/b/file.zip";
                 Path := "/a/b/file.zip" |} = "file.zip".
Proof.
  refine (proj1 (proj2 (proj2 (getFilename_segment
            {| UrlString := "http://example.com/a/b/file.zip";
               Path := "/a/b/file.zip" |}))) "/a/b" "file.zip"
            eq_refl _ _ eq_refl); discriminate.
Defined.

(** ** What ends up in the files *)

Ltac zbool :=
  repeat match goal with
         | |- context [?a <=? ?b] => destruct (Z.leb_spec a b)
         | |- context [?a <? ?b] => destruct (Z.ltb_spec a b)
         end;
  simpl; try done; try lia.

Lemma storeBytes_lookup data : forall off (content : gmap Z byte) p,
  storeBytes off data content !! p
  = if (off <=? p) && (p <? off + Z.of_nat (length data))
    then data !! Z.to_nat (p - off) else content !! p.
Proof.
  induction data as [|b rest IH]; intros off content p; simpl storeBytes.
  - change (length (@nil byte)) with 0%nat. zbool.
  - rewrite IH. change (length (b :: rest)) with (S (length rest)).
    destruct (decide (p = off)) as [->|Hne].
    + rewrite lookup_insert_eq, Z.sub_diag. zbool.
    + rewrite lookup_insert_ne by done. zbool.
      replace (Z.to_nat (p - off)) with (S (Z.to_nat (p - (off + 1)))) by lia.
      done.
Qed.

Lemma holds_files st st' path content :
  files st' = files st -> holds st path content -> holds st' path content.
Proof. unfold holds, byteAt. by intros ->. Qed.

(** Appending by [Write] at the end of what the file holds. *)
Lemma File_Write_holds w fd data st content :
  Write_err w fd (Z.of_nat (length content)) data = None ->
  holds st fd content ->
  (File_Write w fd data (Z.of_nat (length content)) st).1 = None /\
  holds (File_Write w fd data (Z.of_nat (length content)) st).2 fd (content ++ data).
Proof.
  intros Hok [[old Hold] Hbytes]. unfold File_Write. rewrite Hok. simpl.
  split; [done|]. split.
  - simpl. rewrite lookup_alter_eq, Hold. by eexists.
  - intros p. specialize (Hbytes p). unfold byteAt in *. simpl.
    rewrite lookup_alter_eq. rewrite Hold in *. simpl in *.
    rewrite storeBytes_lookup, Hbytes, length_app.
    zbool.
    + rewrite lookup_app_r by lia. f_equal. lia.
    + rewrite lookup_app_l by lia. done.
Qed.

Lemma sequentialLoop_holds w fd verbose body : forall content downloaded st,
  (forall pos data, Write_err w fd pos data = None) ->
  holds st fd content ->
  let result :=
    sequentialLoop w fd verbose body (Z.of_nat (length content)) downloaded st in
  result.1 = sequentialError body /\
  holds result.2 fd (content ++ sequentialBytes body).
Proof.
  induction body as [|[data err] rest IH]; intros content downloaded st Hok Hholds;
    cbv zeta; simpl sequentialLoop.
  - simpl. by rewrite app_nil_r.
  - destruct (0 <? Z.of_nat (length data)) eqn:Hn.
    + destruct (File_Write_holds w fd data st content (Hok _ _) Hholds) as [Hr Hh].
      destruct (File_Write w fd data (Z.of_nat (length content)) st) as [r st1].
      simpl in Hr, Hh. subst r.
      assert (Hh' : holds (if verbose then log EvPrint st1 else st1) fd
                      (content ++ data)).
      { destruct verbose; [|done]. by eapply holds_files; [|exact Hh]. }
      replace (Z.of_nat (length content) + Z.of_nat (length data))
        with (Z.of_nat (length (content ++ data)))
        by (rewrite length_app; lia).
      destruct (IH (content ++ data)
                  (Int64.add downloaded (Z.of_nat (length data)))
                  _ Hok Hh') as [H1 H2].
      rewrite <- app_assoc in H2.
      destruct data as [|b data]; [done|]. by split.
    + assert (Hd : data = []).
      { apply Z.ltb_ge in Hn. destruct data; [done|simpl in Hn; lia]. }
      subst data. destruct err as [e|].
      * simpl. rewrite app_nil_r. by destruct e.
      * simpl. by apply IH.
Qed.

(** When no read brings data and an error together, the sequential loop
    stops where the body first reports an error or [io.EOF]. *)
Lemma sequential_errorsComeAlone body :
  errorsComeAlone body ->
  sequentialError body = bodyError body /\
  sequentialBytes body = delivered body.
Proof.
  induction 1 as [|[data err] rest Hhead _ IH]; [done|].
  destruct IH as [IH1 IH2]. simpl in Hhead.
  destruct err as [e|].
  - rewrite (Hhead ltac:(done)). simpl. by destruct e.
  - destruct data as [|b data]; simpl; by rewrite ?IH1, ?IH2.
Qed.

(** An error that comes with data at the last read of a body is not seen
    by the sequential loop. *)
Lemma sequential_error_with_data before data e :
  Forall (fun r : ReadResult => r.2 = None) before ->
  data <> [] ->
  sequentialError (before ++ [(data, Some e)]) = None /\
  sequentialBytes (before ++ [(data, Some e)])
  = delivered (before ++ [(data, Some e)]).
Proof.
  intros Hbefore Hdata.
  induction Hbefore as [|[d err] rest Hhead _ IH].
  - destruct data as [|b data]; [done|]. simpl. by rewrite app_nil_r.
  - simpl in Hhead. subst err. destruct IH as [IH1 IH2].
    destruct d as [|b d]; simpl; by rewrite ?IH1, ?IH2.
Qed.

(** The sequential path writes what it reads, and loses an error that
    comes with data.  When the server answers 200 and the file system takes
    every write, [sequentialDownload] leaves at the output path exactly the
    bytes of the reads it made, in order from offset 0 and nothing else,
    whatever the file held before.  It reads on after every read that
    brought data, because the result of [file.Write] has replaced the
    result of [Read], and stops at the first read that brings no data but an
    error or [io.EOF], returning that error unless it is [io.EOF]; the
    partial file stays.  So for a body that never brings data and an error
    in one read the file holds what the body delivered and the result is
    the body's read error; and an error that the last read brings together
    with data is not returned at all. *)
Theorem sequentialDownload_content
    (w : World) (parsedURL : ParsedURL) (filename headers : string)
    (verbose : bool) (st : State) (resp : Response) :
  NewRequest_err w "GET" (UrlString parsedURL) = None ->
  Do w (sequentialRequest parsedURL headers) = inr resp ->
  StatusCode resp = StatusOK ->
  Create_err w filename = None ->
  (forall pos data, Write_err w filename pos data = None) ->
  let result := sequentialDownload w parsedURL filename headers verbose st in
  (result.1 = sequentialError (Body resp) /\
   holds result.2 filename (sequentialBytes (Body resp))) /\
  (errorsComeAlone (Body resp) ->
   result.1 = bodyError (Body resp) /\
   holds result.2 filename (delivered (Body resp))) /\
  (forall before data e,
     Body resp = before ++ [(data, Some e)] ->
     Forall (fun r : ReadResult => r.2 = None) before ->
     data <> [] ->
     result.1 = None /\ holds result.2 filename (delivered (Body resp))).
Proof.
  intros HNew HDo Hstatus HCreate HWrite. cbv zeta.
  assert (Hmain :
    (sequentialDownload w parsedURL filename headers verbose st).1
      = sequentialError (Body resp) /\
    holds (sequentialDownload w parsedURL filename headers verbose st).2
      filename (sequentialBytes (Body resp))).
  { unfold sequentialDownload.
    rewrite HNew, HDo, Hstatus. simpl negb. cbv iota.
    unfold os_Create. rewrite HCreate.
    set (st1 := log _ (setFiles _ _)).
    assert (Hempty : holds st1 filename []).
    { split.
      - subst st1. simpl. rewrite lookup_insert_eq. by eexists.
      - intros p. subst st1. unfold byteAt. simpl.
        rewrite lookup_insert_eq. simpl.
        rewrite lookup_empty. by destruct (_ && _). }
    destruct (sequentialLoop_holds w filename verbose (Body resp) [] 0 st1
                HWrite Hempty) as [Hr Hh].
    change (Z.of_nat (length (@nil byte))) with 0 in Hr, Hh. simpl in Hr, Hh.
    destruct (sequentialLoop w filename verbose (Body resp) 0 0 st1) as [r st2].
    simpl in *. split; [done|]. by eapply holds_files; [|exact Hh]. }
  destruct Hmain as [Hr Hh]. split; [done|]. split.
  - intros Halone.
    destruct (sequential_errorsComeAlone _ Halone) as [He Hb].
    by rewrite <- He, <- Hb.
  - intros before data e Hbody Hbefore Hdata.
    destruct (sequential_error_with_data before data e Hbefore Hdata)
      as [He Hb].
    rewrite <- Hbody in He, Hb. by rewrite <- He, <- Hb.
Qed.

Lemma sequentialDownload_content_witness :
  let result :=
    sequentialDownload brokenBodyWorld
      {| UrlString := sampleURL; Path := "/file.bin" |}
      "file.bin" "" false emptyState in
  result.1 = None /\ holds result.2 "file.bin" sampleContent.
Proof.
  cbv zeta.
  exact (proj2 (proj2 (sequentialDownload_content brokenBodyWorld
           {| UrlString := sampleURL; Path := "/file.bin" |} "file.bin" "" false
           emptyState _ eq_refl eq_refl eq_refl eq_refl (fun _ _ => eq_refl)))
         [] sampleContent (ErrLib "connection reset by peer") eq_refl
         (Forall_nil_2 _) ltac:(discriminate)).
Defined.

Lemma File_WriteAt_stores w fd data off st :
  WriteAt_err w fd off data = None -> 0 <= off ->
  is_Some (files st !! fd) ->
  let result := File_WriteAt w fd data off st in
  result.1 = None /\
  is_Some (files result.2 !! fd) /\
  counter result.2 = counter st /\
  (forall p, byteAt result.2 fd p
             = if (off <=? p) && (p <? off + Z.of_nat (length data))
               then data !! Z.to_nat (p - off) else byteAt st fd p) /\
  (forall path : string, path <> fd -> files result.2 !! path = files st !! path).
Proof.
  intros Hok Hoff [old Hold]. cbv zeta. unfold File_WriteAt.
  assert (Hneg : (off <? 0) = false) by (apply Z.ltb_ge; lia).
  rewrite Hneg, Hok. simpl.
  split; [done|]. split; [|split; [done|split]].
  - rewrite lookup_alter_eq, Hold. by eexists.
  - intros p. unfold byteAt. simpl. rewrite lookup_alter_eq, Hold. simpl.
    apply storeBytes_lookup.
  - intros path Hne. by rewrite lookup_alter_ne.
Qed.

(** The read loop stores what the body delivers, byte for byte, from the
    offset it starts at. *)
Lemma chunkLoop_stores w fd body : forall cur st,
  (forall off data, WriteAt_err w fd off data = None) ->
  Int64.in_range cur ->
  (length (delivered body) = 0%nat \/
   (0 <= cur /\ cur + Z.of_nat (length (delivered body)) <= 2 ^ 63)) ->
  is_Some (files st !! fd) ->
  Int64.in_range (counter st) ->
  let result := chunkLoop w fd body cur st in
  result.1 = bodyError body /\
  is_Some (files result.2 !! fd) /\
  counter result.2
    = Int64.wrap (counter st + Z.of_nat (length (delivered body))) /\
  (forall p, byteAt result.2 fd p
             = if (cur <=? p) && (p <? cur + Z.of_nat (length (delivered body)))
               then delivered body !! Z.to_nat (p - cur) else byteAt st fd p) /\
  (forall path : string, path <> fd -> files result.2 !! path = files st !! path).
Proof.
  induction body as [|[data err] rest IH]; intros cur st Hok Hrange Hlen Hfile Hc;
    cbv zeta.
  - simpl. rewrite Z.add_0_r, Int64_wrap_id by done.
    repeat split; try done. intros p. zbool.
  - simpl chunkLoop.
    set (n := Z.of_nat (length data)).
    destruct (0 <? n) eqn:Hn.
    + apply Z.ltb_lt in Hn.
      assert (Hcur : 0 <= cur /\
                     cur + Z.of_nat (length (delivered ((data, err) :: rest)))
                     <= 2 ^ 63).
      { destruct Hlen as [Hz|H]; [|done]. exfalso.
        simpl in Hz. destruct err; [|rewrite length_app in Hz]; lia. }
      destruct Hcur as [Hcur Htotal].
      destruct (File_WriteAt_stores w fd data cur st (Hok _ _) Hcur Hfile)
        as (Hr & Hf1 & Hc1 & Hb1 & Ho1).
      destruct (File_WriteAt w fd data cur st) as [r st1]. simpl in Hr, Hf1, Hc1, Hb1, Ho1.
      subst r. fold n in Hb1.
      set (st2 := atomic_AddInt64 n st1).
      assert (Hc2 : counter st2 = Int64.wrap (counter st + n)).
      { subst st2. simpl. by rewrite Hc1. }
      destruct err as [e|].
      * assert (Hres : (None, st2).1 = (None : option Error) /\
                  is_Some (files st2 !! fd) /\
                  counter st2 = Int64.wrap (counter st + n) /\
                  (forall p, byteAt st2 fd p
                     = if (cur <=? p) && (p <? cur + n)
                       then data !! Z.to_nat (p - cur) else byteAt st fd p) /\
                  (forall path : string, path <> fd ->
                     files st2 !! path = files st !! path)).
        { repeat split; done. }
        simpl delivered. simpl bodyError. fold n.
        destruct e; try exact Hres;
          (destruct Hres as (_ & H2 & H3 & H4 & H5); repeat split; done).
      * set (lenrest := Z.of_nat (length (delivered rest))).
        assert (Hlenall : Z.of_nat (length (delivered ((data, None) :: rest)))
                          = n + lenrest).
        { simpl. rewrite length_app. lia. }
        rewrite Hlenall in Htotal |- *.
        assert (Hnext : lenrest = 0 \/ Int64.add cur n = cur + n).
        { destruct (decide (lenrest = 0)) as [|Hpos]; [by left|right].
          apply Int64_wrap_id.
          unfold Int64.in_range, Int64.min_signed, Int64.max_signed in *. lia. }
        destruct (IH (Int64.add cur n) st2 Hok (Int64_wrap_range _))
          as (Hr' & Hf' & Hc' & Hb' & Ho').
        { destruct Hnext as [Hz|Heq]; [left; lia|right].
          rewrite Heq. fold lenrest. lia. }
        { done. }
        { rewrite Hc2. apply Int64_wrap_range. }
        fold lenrest in Hc', Hb'.
        simpl bodyError. simpl delivered.
        split; [exact Hr'|]. split; [exact Hf'|]. split; [|split].
        -- rewrite Hc', Hc2, Int64_wrap_add_l. f_equal. lia.
        -- intros p. rewrite Hb'.
           change (byteAt st2 fd p) with (byteAt st1 fd p). rewrite Hb1.
           destruct Hnext as [Hz|Heq].
           ++ rewrite Hz. 
              assert (Hnil : delivered rest = []).
              { destruct (delivered rest); [done|]. subst lenrest. simpl in Hz. lia. }
              rewrite Hnil, app_nil_r. zbool.
           ++ rewrite Heq. zbool.
              ** rewrite lookup_app_r by lia. f_equal. lia.
              ** rewrite lookup_app_l by lia. done.
        -- intros path Hne. rewrite Ho' by done. by apply Ho1.
    + assert (Hd : data = []).
      { apply Z.ltb_ge in Hn. subst n. destruct data; [done|simpl in Hn; lia]. }
      subst data. destruct err as [e|].
      * simpl. rewrite Z.add_0_r, Int64_wrap_id by done.
        destruct e; (repeat split; try done; intros p; zbool).
      * simpl. simpl in Hlen. by apply IH.
Qed.

(** [downloadChunk] on a 206 answer, with every write accepted. *)
Lemma downloadChunk_stores
    (w : World) (url : string) (chunk : Chunk) (fd headers : string)
    (st : State) (resp : Response) :
  Do w (chunkRequest url chunk headers) = inr resp ->
  StatusCode resp = StatusPartialContent ->
  (forall off data, WriteAt_err w fd off data = None) ->
  0 <= Start chunk <= Int64.max_signed ->
  Start chunk + Z.of_nat (length (delivered (Body resp))) <= 2 ^ 63 ->
  is_Some (files st !! fd) ->
  Int64.in_range (counter st) ->
  let result := downloadChunk w url chunk fd headers st in
  let len := Z.of_nat (length (delivered (Body resp))) in
  result.1 = bodyError (Body resp) /\
  is_Some (files result.2 !! fd) /\
  counter result.2 = Int64.wrap (counter st + len) /\
  (forall p, byteAt result.2 fd p
             = if (Start chunk <=? p) && (p <? Start chunk + len)
               then delivered (Body resp) !! Z.to_nat (p - Start chunk)
               else byteAt st fd p) /\
  (forall path : string, path <> fd -> files result.2 !! path = files st !! path).
Proof.
  intros HDo Hstatus Hok Hstart Hlen Hfile Hc. cbv zeta. unfold downloadChunk.
  rewrite HDo, Hstatus. simpl negb. cbv iota.
  apply (chunkLoop_stores w fd (Body resp) (Start chunk)
           (log (EvDo (chunkRequest url chunk headers)) st)); try done.
  - unfold Int64.in_range, Int64.min_signed, Int64.max_signed in *. lia.
  - right. lia.
Qed.

(** A fetcher stores what it is sent.  When the server answers a chunk
    request with 206 and the file system takes every write, [downloadChunk]
    puts the bytes of the body into the shared file one after the other from
    [chunk.Start] on and leaves every other byte of every file as it was,
    adds their number to the progress counter, and returns [nil] unless the
    body broke off with a read error, which it then returns. *)
Theorem downloadChunk_content
    (w : World) (url : string) (chunk : Chunk) (fd headers : string)
    (st : State) (resp : Response) :
  Do w (chunkRequest url chunk headers) = inr resp ->
  StatusCode resp = StatusPartialContent ->
  (forall off data, WriteAt_err w fd off data = None) ->
  0 <= Start chunk <= Int64.max_signed ->
  Start chunk + Z.of_nat (length (delivered (Body resp))) <= 2 ^ 63 ->
  is_Some (files st !! fd) ->
  Int64.in_range (counter st) ->
  let result := downloadChunk w url chunk fd headers st in
  let len := Z.of_nat (length (delivered (Body resp))) in
  result.1 = bodyError (Body resp) /\
  is_Some (files result.2 !! fd) /\
  counter result.2 = Int64.wrap (counter st + len) /\
  (forall p, byteAt result.2 fd p
             = if (Start chunk <=? p) && (p <? Start chunk + len)
               then delivered (Body resp) !! Z.to_nat (p - Start chunk)
               else byteAt st fd p) /\
  (forall path : string, path <> fd -> files result.2 !! path = files st !! path).
Proof.
  apply downloadChunk_stores.
Qed.

Lemma downloadChunk_content_witness :
  let chunk := {| Start := 2; End := 3 |} in
  let result := downloadChunk rangeWorld sampleURL chunk "file.bin.tmp" "" tmpState in
  result.1 = None /\
  byteAt result.2 "file.bin.tmp" 3 = Some Byte.x33 /\
  counter result.2 = 2.
Proof.
  cbv zeta.
  destruct (downloadChunk_content rangeWorld sampleURL {| Start := 2; End := 3 |}
              "file.bin.tmp" "" tmpState _ eq_refl eq_refl (fun _ _ => eq_refl))
    as (Hr & _ & Hc & Hb & _).
  - unfold Int64.max_signed. simpl. lia.
  - simpl. lia.
  - by eexists.
  - unfold Int64.in_range, Int64.min_signed, Int64.max_signed. simpl. lia.
  - split; [exact Hr|]. split; [by rewrite Hb|exact Hc].
Defined.

(** ** The chunked path as a whole *)

Lemma chunkLoop_files_other w fd body (path : string) : forall cur st,
  path <> fd -> files (chunkLoop w fd body cur st).2 !! path = files st !! path.
Proof.
  induction body as [|[data err] rest IH]; intros cur st Hne; simpl; [done|].
  destruct (0 <? Z.of_nat (length data)).
  - pose proof (File_WriteAt_files_other w fd data cur st path Hne) as HW.
    destruct (File_WriteAt w fd data cur st) as [[e|] st1]; simpl in HW; [done|].
    destruct err as [e|]; [by destruct e|].
    rewrite IH by done. done.
  - destruct err as [e|]; [by destruct e|]. by apply IH.
Qed.

Lemma downloadChunk_files_other w url chunk fd headers st (path : string) :
  path <> fd ->
  files (downloadChunk w url chunk fd headers st).2 !! path = files st !! path.
Proof.
  intros Hne. unfold downloadChunk.
  destruct (Do w _) as [e|resp]; [done|].
  destruct (negb _); [done|]. by rewrite chunkLoop_files_other.
Qed.

Lemma runFetchers_files_other w url fd headers chunks sched (path : string) :
  path <> fd -> forall errChan st,
  files (runFetchers w url fd headers chunks sched errChan st).2 !! path
  = files st !! path.
Proof.
  intros Hne. induction sched as [|idx rest IH]; intros errChan st; simpl; [done|].
  destruct (chunks !! idx) as [c|]; [|apply IH].
  pose proof (downloadChunk_files_other w url c fd headers st path Hne) as H1.
  destruct (downloadChunk w url c fd headers st) as [[err|] st1]; simpl in H1;
    rewrite IH; done.
Qed.

Lemma os_Remove_files_other w path st (other : string) :
  other <> path -> files (os_Remove w path st).2 !! other = files st !! other.
Proof.
  intros Hne. unfold os_Remove.
  destruct (Remove_err w path); [done|].
  destruct (files st !! path); [|done]. simpl. by rewrite lookup_delete_ne.
Qed.

(** A chunked transfer that fails has changed no file but the temporary
    one. *)
Lemma chunkedTransfer_failure_files w urlLink filename tmpFile headers verbose
    fileSize sched st (path : string) :
  let result :=
    chunkedTransfer w urlLink filename tmpFile headers verbose fileSize sched st in
  result.1 <> None -> path <> tmpFile ->
  files result.2 !! path = files st !! path.
Proof.
  cbv zeta. unfold chunkedTransfer. intros Hfail Hne.
  set (st0 := if verbose then _ else _) in *.
  assert (H0 : files st0 = files st) by (subst st0; by destruct verbose).
  pose proof (runFetchers_files_other w urlLink tmpFile headers (planChunks fileSize)
                sched path Hne None st0) as H1.
  destruct (runFetchers w urlLink tmpFile headers (planChunks fileSize) sched None st0)
    as [[err|] st1]; simpl in H1.
  - simpl. by rewrite H1, H0.
  - unfold os_Rename in *.
    destruct (Rename_err w tmpFile filename); simpl in *; [by rewrite H1, H0|].
    destruct (files st1 !! tmpFile); simpl in *; [done|by rewrite H1, H0].
Qed.

(** When [<output>.tmp] has been created, [downloadFile] is on its chunked
    path. *)
Lemma created_tmp_chunked w urlLink filename headers verbose sched st :
  let out := outputName w urlLink filename in
  let tmp := out +:+ ".tmp" in
  let result := downloadFile w urlLink filename headers verbose sched st in
  let probe := checkRangeSupport w urlLink st in
  EvCreate tmp None ∈ newEvents st result.2 ->
  exists st2,
    os_Create w tmp (log EvPrint probe.2) = (None, st2) /\
    let transfer :=
      chunkedTransfer w urlLink out tmp headers verbose probe.1.1.2 sched st2 in
    result = (transfer.1,
              (os_Remove w tmp (log (EvClose tmp) (log EvCancel transfer.2))).2).
Proof.
  cbv zeta. intros Hcreated.
  destruct (checkRangeSupport_state w urlLink st) as [Htr Hfiles].
  set (out := outputName w urlLink filename) in *.
  set (tmp := out +:+ ".tmp") in *.
  set (st1 := (checkRangeSupport w urlLink st).2) in *.
  destruct (downloadFile_cases w urlLink filename headers verbose sched st)
    as [(e & Hparse & Hres)|[(u & e & Hparse & Herr & Hres)|[(u & Hparse & Herr & Hsr & Hres)
       |[(u & e & st2 & _ & _ & _ & HC & Hres)|(u & st2 & _ & _ & _ & HC & Hres)]]]];
    fold out tmp st1 in Hres, Hcreated |- *; try fold out tmp st1 in HC.
  - exfalso. rewrite Hres in Hcreated. simpl in Hcreated.
    rewrite (newEvents_app st st []) in Hcreated by by rewrite app_nil_r.
    by apply elem_of_nil in Hcreated.
  - exfalso. rewrite Hres in Hcreated. simpl in Hcreated.
    rewrite (newEvents_app _ _ _ Htr) in Hcreated.
    by apply list_elem_of_singleton in Hcreated.
  - exfalso.
    destruct (unsupported_never_creates_tmp w urlLink filename headers verbose
                sched st Hsr) as [Hall _].
    fold out tmp in Hall. rewrite Forall_forall in Hall.
    specialize (Hall _ Hcreated). simpl in Hall.
    by rewrite String.eqb_refl in Hall.
  - exfalso. rewrite Hres in Hcreated. simpl in Hcreated.
    pose proof (os_Create_trace w tmp (log EvPrint st1)) as HCt.
    rewrite HC in HCt. simpl in HCt.
    rewrite (newEvents_app st st2
               [EvDo (probeRequest urlLink); EvPrint; EvCreate tmp (Some e)])
      in Hcreated.
    + repeat (apply elem_of_cons in Hcreated as [Hcreated|Hcreated];
              [discriminate|]).
      by apply elem_of_nil in Hcreated.
    + rewrite HCt, Htr. by rewrite <- !app_assoc.
  - exists st2. split; [exact HC|exact Hres].
Qed.

(** A chunked download that fails leaves every file but the temporary one
    as it found it: in particular nothing is created or changed at the
    output path, which only the final rename ever touches. *)
Theorem failed_chunked_download_leaves_output
    (w : World) (urlLink filename headers : string) (verbose : bool)
    (sched : list nat) (st : State) :
  let out := outputName w urlLink filename in
  let tmp := out +:+ ".tmp" in
  let result := downloadFile w urlLink filename headers verbose sched st in
  EvCreate tmp None ∈ newEvents st result.2 ->
  result.1 <> None ->
  files result.2 !! out = files st !! out /\
  forall path : string, path <> tmp -> files result.2 !! path = files st !! path.
Proof.
  cbv zeta. intros Hcreated Hfail.
  assert (Hall : forall path : string,
            path <> outputName w urlLink filename +:+ ".tmp" ->
            files (downloadFile w urlLink filename headers verbose sched st).2 !! path
            = files st !! path).
  { intros path Hne.
    destruct (created_tmp_chunked w urlLink filename headers verbose sched st Hcreated)
      as (st2 & HC & Hres).
    cbv zeta in Hres. rewrite Hres in Hfail |- *. simpl in Hfail |- *.
    rewrite os_Remove_files_other by done. simpl.
    rewrite chunkedTransfer_failure_files by done.
    apply os_Create_files in HC. rewrite HC. simpl.
    rewrite lookup_insert_ne by done.
    by rewrite (proj2 (checkRangeSupport_state w urlLink st)). }
  split; [|exact Hall].
  apply Hall. intros H. symmetry in H. by apply tmp_name_differs in H.
Qed.

Lemma failed_chunked_download_leaves_output_witness :
  let result := downloadFile failingWorld sampleURL "" "" false [0; 1; 2; 3]%nat
                  emptyState in
  files result.2 !! "file.bin" = None.
Proof.
  cbv zeta.
  refine (proj1 (failed_chunked_download_leaves_output failingWorld sampleURL "" ""
                   false [0; 1; 2; 3]%nat emptyState _ _)).
  - apply (list_elem_of_lookup_2 _ 2%nat). vm_compute. reflexivity.
  - vm_compute. discriminate.
Defined.

Lemma planChunks_lookup_exact (totalSize : Z) (i : nat) (ch : Chunk) :
  0 < totalSize <= Int64.max_signed ->
  planChunks totalSize !! i = Some ch ->
  let c := calculateConcurrency totalSize in
  (i < Z.to_nat c)%nat /\
  ch = {| Start := Z.of_nat i * (totalSize / c);
          End := if decide (i = (Z.to_nat c - 1)%nat) then totalSize - 1
                 else Z.of_nat i * (totalSize / c) + totalSize / c - 1 |}.
Proof.
  intros [Hpos Hmax] Hi c.
  assert (Hc : c = 4 \/ c = 8) by apply calculateConcurrency_cases.
  assert (Hcn : (0 < Z.to_nat c)%nat) by lia.
  unfold planChunks in Hi. fold c in Hi.
  pose proof (lookup_lt_Some _ _ _ Hi) as Hlt.
  rewrite planChunksWith_length in Hlt. split; [done|].
  rewrite (planned_lookup (Z.to_nat c) totalSize Hcn Hpos Hmax i Hlt) in Hi.
  injection Hi as <-. by rewrite Z2Nat.id by lia.
Qed.

(** Every planned chunk lies within the resource. *)
Lemma planned_bounds (totalSize : Z) (i : nat) (ch : Chunk) :
  0 < totalSize <= Int64.max_signed ->
  planChunks totalSize !! i = Some ch ->
  0 <= Start ch /\ Start ch <= End ch + 1 /\ End ch <= totalSize - 1.
Proof.
  intros Hsize Hi.
  destruct (planChunks_lookup_exact totalSize i ch Hsize Hi) as [Hlt ->].
  set (c := calculateConcurrency totalSize) in *.
  assert (Hc : c = 4 \/ c = 8) by apply calculateConcurrency_cases.
  pose proof (Z.div_mod totalSize c ltac:(lia)) as Hdm.
  pose proof (Z.mod_pos_bound totalSize c ltac:(lia)) as Hmod.
  assert (0 <= totalSize / c) by (apply Z.div_pos; lia).
  simpl. destruct (decide _); nia.
Qed.

Lemma slice_lookup (c : Chunk) (content : list byte) :
  0 <= Start c -> Start c <= End c + 1 ->
  End c <= Z.of_nat (length content) - 1 ->
  Z.of_nat (length (slice c content)) = End c - Start c + 1 /\
  forall p, Start c <= p <= End c ->
    slice c content !! Z.to_nat (p - Start c) = content !! Z.to_nat p.
Proof.
  intros H0 H1 H2. unfold slice. split.
  - rewrite length_take, length_drop. lia.
  - intros p Hp. rewrite lookup_take_lt by lia. rewrite lookup_drop.
    f_equal. lia.
Qed.

Lemma spanSum_app chunks s1 s2 :
  spanSum chunks (s1 ++ s2) = spanSum chunks s1 + spanSum chunks s2.
Proof.
  induction s1 as [|i s1 IH]; simpl; [done|].
  destruct (chunks !! i); lia.
Qed.

Lemma spanSum_Permutation chunks s1 s2 :
  s1 ≡ₚ s2 -> spanSum chunks s1 = spanSum chunks s2.
Proof.
  induction 1 as [|x l l' _ IH|x y l|l l' l'' _ IH1 _ IH2]; simpl.
  - done.
  - by rewrite IH.
  - destruct (chunks !! x), (chunks !! y); lia.
  - by rewrite IH1.
Qed.

(** The spans of the planned chunks add up to the size of the resource. *)
Lemma spanSum_planned (totalSize : Z) :
  0 < totalSize <= Int64.max_signed ->
  spanSum (planChunks totalSize) (seq 0 (length (planChunks totalSize)))
  = totalSize.
Proof.
  intros Hsize.
  set (c := calculateConcurrency totalSize).
  assert (Hc : c = 4 \/ c = 8) by apply calculateConcurrency_cases.
  assert (Hlen : length (planChunks totalSize) = Z.to_nat c).
  { unfold planChunks. by rewrite planChunksWith_length. }
  assert (Hprefix : forall k : nat, (k <= Z.to_nat c - 1)%nat ->
            spanSum (planChunks totalSize) (seq 0 k) = Z.of_nat k * (totalSize / c)).
  { induction k as [|k IH]; intros Hk; [done|].
    rewrite seq_S, spanSum_app, IH by lia. simpl.
    destruct (lookup_lt_is_Some_2 (planChunks totalSize) k ltac:(lia)) as [ch Hch].
    rewrite Hch.
    destruct (planChunks_lookup_exact totalSize k ch Hsize Hch) as [_ ->].
    fold c. simpl. rewrite decide_False by lia. lia. }
  rewrite Hlen.
  replace (Z.to_nat c) with (S (Z.to_nat c - 1)) at 1 by lia.
  rewrite seq_S, spanSum_app, Hprefix by lia. simpl.
  destruct (lookup_lt_is_Some_2 (planChunks totalSize) (Z.to_nat c - 1) ltac:(lia))
    as [ch Hch].
  rewrite Hch.
  destruct (planChunks_lookup_exact totalSize _ ch Hsize Hch) as [_ ->].
  fold c. simpl. rewrite decide_True by done. lia.
Qed.

(** Once every index has been run, the offsets covered are those of the
    resource. *)
Lemma coveredBy_planned (totalSize : Z) (sched : list nat) (p : Z) :
  0 < totalSize <= Int64.max_signed ->
  sched ≡ₚ seq 0 (length (planChunks totalSize)) ->
  coveredBy (planChunks totalSize) sched p = (0 <=? p) && (p <? totalSize).
Proof.
  intros [Hpos Hmax] Hperm.
  assert (Hc : (0 < Z.to_nat (calculateConcurrency totalSize))%nat).
  { destruct (calculateConcurrency_cases totalSize) as [-> | ->]; lia. }
  pose proof (planned_covers _ totalSize Hc Hpos Hmax p) as Hcov.
  fold (planChunks totalSize) in Hcov.
  apply eq_true_iff_eq. unfold coveredBy.
  rewrite existsb_exists, andb_true_iff, Z.leb_le, Z.ltb_lt.
  split.
  - intros (idx & _ & Hin).
    destruct (planChunks totalSize !! idx) as [c|] eqn:Hidx; [|done].
    apply andb_true_iff in Hin as [H1 H2].
    apply Z.leb_le in H1, H2.
    assert (0 <= p <= totalSize - 1); [|lia].
    apply Hcov. exists c. split; [by eapply list_elem_of_lookup_2|done].
  - intros Hp.
    destruct (proj2 Hcov ltac:(lia)) as (c & Hin & [H1 H2]).
    apply list_elem_of_lookup_1 in Hin as [idx Hidx].
    exists idx. split.
    + apply list_elem_of_In. rewrite Hperm. apply elem_of_seq.
      pose proof (lookup_lt_Some _ _ _ Hidx). lia.
    + rewrite Hidx. apply andb_true_iff. by rewrite !Z.leb_le.
Qed.

Section WholeTransfer.

Variable w : World.
Variables url tmp headers : string.
Variable content : list byte.

Let totalSize : Z := Z.of_nat (length content).

Hypothesis size_ok : 0 < totalSize <= Int64.max_signed.

(** The server answers the request for every planned chunk with 206 and
    the bytes of that span, and the file system takes every write. *)
Hypothesis server_ok : forall c,
  c ∈ planChunks totalSize ->
  exists resp,
    Do w (chunkRequest url c headers) = inr resp /\
    StatusCode resp = StatusPartialContent /\
    bodyError (Body resp) = None /\
    delivered (Body resp) = slice c content.
Hypothesis writes_ok : forall off data, WriteAt_err w tmp off data = None.

Lemma runFetchers_all_succeed sched : forall errChan st,
  is_Some (files st !! tmp) -> Int64.in_range (counter st) ->
  let result :=
    runFetchers w url tmp headers (planChunks totalSize) sched errChan st in
  result.1 = errChan /\
  is_Some (files result.2 !! tmp) /\
  counter result.2
    = Int64.wrap (counter st + spanSum (planChunks totalSize) sched) /\
  (forall p, byteAt result.2 tmp p
             = if coveredBy (planChunks totalSize) sched p
               then content !! Z.to_nat p else byteAt st tmp p) /\
  (forall path : string, path <> tmp -> files result.2 !! path = files st !! path).
Proof using size_ok server_ok writes_ok.
  induction sched as [|idx rest IH]; intros errChan st Hfile Hc; cbv zeta.
  - simpl. rewrite Z.add_0_r, Int64_wrap_id by done. done.
  - simpl runFetchers. simpl spanSum. unfold coveredBy. simpl existsb.
    fold (coveredBy (planChunks totalSize) rest).
    destruct (planChunks totalSize !! idx) as [c|] eqn:Hidx; [|by apply IH].
    destruct (planned_bounds totalSize idx c size_ok Hidx) as (Hb0 & Hb1 & Hb2).
    destruct (server_ok c ltac:(by eapply list_elem_of_lookup_2))
      as (resp & HDo & Hstatus & Hnoerr & Hbody).
    destruct (slice_lookup c content Hb0 Hb1 Hb2) as [Hlen Hslice].
    destruct (downloadChunk_stores w url c tmp headers st resp HDo Hstatus
                writes_ok) as (Hr & Hf1 & Hc1 & Hbytes & Hother); try done.
    { unfold Int64.max_signed in *. subst totalSize. lia. }
    { rewrite Hbody, Hlen. unfold Int64.max_signed in *. subst totalSize. lia. }
    rewrite Hnoerr in Hr. rewrite Hbody, Hlen in Hc1, Hbytes.
    destruct (downloadChunk w url c tmp headers st) as [r st1].
    simpl in Hr, Hf1, Hc1, Hbytes, Hother. subst r.
    destruct (IH errChan st1 Hf1) as (Hr' & Hf' & Hc' & Hb' & Ho').
    { rewrite Hc1. apply Int64_wrap_range. }
    split; [exact Hr'|]. split; [exact Hf'|]. split; [|split].
    + rewrite Hc', Hc1, Int64_wrap_add_l. f_equal. lia.
    + intros p. fold (coveredBy (planChunks totalSize) rest p).
      rewrite Hb', Hbytes.
      destruct (coveredBy (planChunks totalSize) rest p).
      * by rewrite orb_true_r.
      * rewrite orb_false_r.
        replace (p <? Start c + (End c - Start c + 1)) with (p <=? End c)
          by (zbool).
        destruct ((Start c <=? p) && (p <=? End c)) eqn:Hin; [|done].
        apply andb_true_iff in Hin as [H1 H2]. apply Z.leb_le in H1, H2.
        by apply Hslice.
    + intros path Hne. rewrite Ho' by done. by apply Hother.
Qed.

End WholeTransfer.

(** With a server that supports ranges, announces the true length and
    answers every planned chunk with 206 and exactly the bytes of its
    span, and a file system that refuses nothing, [downloadFile] returns
    [nil] whatever the order in which the fetchers run: the output path
    holds exactly the resource, the temporary file is gone, the progress
    counter ends at the size of the resource and no other file changed. *)
Theorem chunked_download_delivers_content
    (w : World) (urlLink filename headers : string) (verbose : bool)
    (sched : list nat) (st : State) (content : list byte)
    (parsedURL : ParsedURL) (probe : Response) :
  let totalSize := Z.of_nat (length content) in
  let out := outputName w urlLink filename in
  let tmp := out +:+ ".tmp" in
  ParseRequestURI w urlLink = inr parsedURL ->
  0 < totalSize <= Int64.max_signed ->
  Do w (probeRequest urlLink) = inr probe ->
  StatusCode probe = StatusOK ->
  Header_Get (RespHeader probe) "Accept-Ranges" = "bytes" ->
  ContentLength probe = totalSize ->
  (forall c, c ∈ planChunks totalSize ->
     exists resp,
       Do w (chunkRequest urlLink c headers) = inr resp /\
       StatusCode resp = StatusPartialContent /\
       bodyError (Body resp) = None /\
       delivered (Body resp) = slice c content) ->
  Create_err w tmp = None ->
  (forall off data, WriteAt_err w tmp off data = None) ->
  Rename_err w tmp out = None ->
  sched ≡ₚ seq 0 (length (planChunks totalSize)) ->
  let result := downloadFile w urlLink filename headers verbose sched st in
  result.1 = None /\
  holds result.2 out content /\
  files result.2 !! tmp = None /\
  counter result.2 = totalSize /\
  (forall path : string,
     path <> out -> path <> tmp -> files result.2 !! path = files st !! path).
Proof.
  intros totalSize out tmp Hurl Hsize Hprobe Hstatus Haccept Hlen Hserver
         Hcreate Hwrites Hrename Hsched.
  subst out tmp. unfold outputName in *. unfold downloadFile.
  rewrite Hurl in *.
  set (out := if String.eqb filename "" then getFilename parsedURL
              else filename) in *.
  set (tmp := out +:+ ".tmp") in *.
  unfold checkRangeSupport. rewrite Hprobe, Hstatus, Haccept, Hlen. simpl negb.
  cbv iota beta zeta.
  set (st0 := log EvPrint (log (EvDo (probeRequest urlLink)) st)).
  unfold os_Create. rewrite Hcreate.
  set (st1 := log (EvCreate tmp None) (setFiles (<[tmp := ∅]> (files st0)) st0)).
  unfold chunkedTransfer.
  set (st2 := if verbose then log EvGoShowProgress (setCounter 0 st1)
              else setCounter 0 st1).
  assert (Hf2 : files st2 = <[tmp := ∅]> (files st)).
  { subst st2. by destruct verbose. }
  assert (Hc2 : counter st2 = 0).
  { subst st2. by destruct verbose. }
  destruct (runFetchers_all_succeed w urlLink tmp headers content Hsize Hserver
              Hwrites sched None st2) as (Hr & Hf & Hc & Hb & Ho).
  { rewrite Hf2, lookup_insert_eq. by eexists. }
  { rewrite Hc2. unfold Int64.in_range, Int64.min_signed, Int64.max_signed. lia. }
  fold totalSize in Hr, Hf, Hc, Hb, Ho.
  destruct (runFetchers w urlLink tmp headers (planChunks totalSize) sched None st2)
    as [received st3].
  simpl in Hr, Hf, Hc, Hb, Ho. subst received.
  unfold os_Rename. rewrite Hrename.
  destruct Hf as [body Hbody]. rewrite Hbody.
  assert (Hne : tmp <> out) by apply tmp_name_differs.
  assert (Hgone : forall s : State,
            files s = <[out := body]> (delete tmp (files st3)) ->
            files (os_Remove w tmp s).2 = files s).
  { intros s Hs. unfold os_Remove. destruct (Remove_err w tmp); [done|].
    rewrite Hs, lookup_insert_ne, lookup_delete_eq by done. done. }
  set (st4 := log (EvClose tmp) (log EvCancel
         (log (EvRename tmp out None)
            (setFiles (<[out := body]> (delete tmp (files st3))) st3)))).
  specialize (Hgone st4 eq_refl).
  assert (Hcnt : counter (os_Remove w tmp st4).2 = counter st3).
  { unfold os_Remove. destruct (Remove_err w tmp); [done|].
    by destruct (files st4 !! tmp). }
  destruct (os_Remove w tmp st4) as [r5 st5]. simpl in Hgone, Hcnt |- *.
  split; [done|].
  assert (Hfiles : files st5 = <[out := body]> (delete tmp (files st3)))
    by (rewrite Hgone; done).
  split; [|split; [|split]].
  - split.
    + rewrite Hfiles, lookup_insert_eq. by eexists.
    + intros p. unfold byteAt. rewrite Hfiles, lookup_insert_eq. simpl.
      specialize (Hb p). unfold byteAt in Hb. rewrite Hbody in Hb. simpl in Hb.
      rewrite Hb, coveredBy_planned by done.
      rewrite Hf2, lookup_insert_eq. simpl. rewrite lookup_empty.
      fold totalSize. done.
  - rewrite Hfiles, lookup_insert_ne, lookup_delete_eq by done. done.
  - rewrite Hcnt, Hc, Hc2, (spanSum_Permutation _ _ _ Hsched),
      spanSum_planned by done.
    apply Int64_wrap_id.
    unfold Int64.in_range, Int64.min_signed, Int64.max_signed in *. lia.
  - intros path Hp1 Hp2.
    rewrite Hfiles, lookup_insert_ne, lookup_delete_ne by done.
    rewrite Ho, Hf2, lookup_insert_ne by done. done.
Qed.

Lemma chunked_download_delivers_content_witness :
  let result :=
    downloadFile rangeWorld sampleURL "" "" true [2; 0; 3; 1]%nat emptyState in
  result.1 = None /\
  holds result.2 "file.bin" sampleContent /\
  files result.2 !! "file.bin.tmp" = None /\
  counter result.2 = 8 /\
  (forall path : string,
     path <> "file.bin" -> path <> "file.bin.tmp" ->
     files result.2 !! path = files emptyState !! path).
Proof.
  apply (chunked_download_delivers_content rangeWorld sampleURL "" "" true
           [2; 0; 3; 1]%nat emptyState sampleContent
           {| UrlString := sampleURL; Path := "/file.bin" |}
           {| StatusCode := 200;
              RespHeader := {[ "Accept-Ranges" := ["bytes"] ]};
              ContentLength := 8; Body := [] |}).
  - reflexivity.
  - vm_compute. split; [reflexivity | discriminate].
  - reflexivity.
  - reflexivity.
  - reflexivity.
  - reflexivity.
  - intros c Hc. apply list_elem_of_lookup_1 in Hc as [i Hi].
    destruct i as [|[|[|[|i]]]]; vm_compute in Hi; inversion Hi; subst c;
      eexists; (split; [vm_compute; reflexivity|]); repeat split.
  - reflexivity.
  - reflexivity.
  - reflexivity.
  - apply (bool_decide_unpack _). vm_compute. reflexivity.
Defined.

(** ** A probe that fails *)

(** When the probe fails, by a transport error or by a status other than
    200, [downloadFile] returns that failure wrapped the way
    [checkRangeSupport] wraps it and has done nothing else: the probe is
    the only request sent, no file was created, written, renamed or
    removed, and the progress counter is as it was. *)
Theorem downloadFile_probe_failure
    (w : World) (urlLink filename headers : string) (verbose : bool)
    (sched : list nat) (st : State) (parsedURL : ParsedURL) :
  ParseRequestURI w urlLink = inr parsedURL ->
  (forall resp, Do w (probeRequest urlLink) = inr resp ->
                StatusCode resp <> StatusOK) ->
  let result := downloadFile w urlLink filename headers verbose sched st in
  result.1 = Some (match Do w (probeRequest urlLink) with
                   | inl err => ErrHead err
                   | inr resp => ErrStatus (StatusCode resp)
                   end) /\
  newEvents st result.2 = [EvDo (probeRequest urlLink)] /\
  files result.2 = files st /\
  counter result.2 = counter st.
Proof.
  intros Hurl Hprobe. unfold downloadFile, checkRangeSupport. rewrite Hurl.
  assert (Hev : forall ev, newEvents st (log ev st) = [ev]).
  { intros ev. unfold newEvents, log. simpl. by rewrite drop_app_length. }
  destruct (Do w (probeRequest urlLink)) as [err|resp] eqn:HDo.
  - cbv zeta. simpl. by rewrite Hev.
  - specialize (Hprobe resp eq_refl).
    destruct (StatusCode resp =? StatusOK) eqn:Hcode.
    + by apply Z.eqb_eq in Hcode.
    + cbv zeta. simpl. by rewrite Hev.
Qed.

Lemma downloadFile_probe_failure_witness :
  let result :=
    downloadFile unreachableWorld sampleURL "" "" false [0; 1; 2; 3]%nat
                 emptyState in
  result.1 = Some (ErrHead (ErrLib "connection refused")) /\
  newEvents emptyState result.2 = [EvDo (probeRequest sampleURL)] /\
  files result.2 = files emptyState /\
  counter result.2 = counter emptyState.
Proof.
  apply (downloadFile_probe_failure unreachableWorld sampleURL "" "" false
           [0; 1; 2; 3]%nat emptyState
           {| UrlString := sampleURL; Path := "/file.bin" |}).
  - reflexivity.
  - intros resp H. vm_compute in H. discriminate H.
Defined.

(** ** A probe that announces no length *)

(** [checkRangeSupport] hands on [resp.ContentLength] as it is, and
    [downloadFile] plans from it without looking at its sign.  For a length
    of zero or below (-1 is what [net/http] gives when the length is
    unknown) there are four chunks and each of them is an inverted span,
    its [End] below its [Start]: no byte offset lies in any chunk, and every
    [Range] value built from them is of the form [bytes=a-b] with
    [b < a]. *)
Theorem planned_spans_without_length (fileSize : Z) :
  Int64.min_signed < fileSize <= 0 ->
  length (planChunks fileSize) = 4%nat /\
  (forall c, c ∈ planChunks fileSize -> End c < Start c) /\
  (forall c p, c ∈ planChunks fileSize -> ~ in_chunk p c).
Proof.
  intros [Hlo Hhi].
  assert (Hc : calculateConcurrency fileSize = 4).
  { unfold calculateConcurrency.
    destruct (Z.ltb_spec (1024 * 1024 * 1024) fileSize); [lia|done]. }
  assert (Hlen : length (planChunks fileSize) = 4%nat).
  { unfold planChunks. by rewrite planChunksWith_length, Hc. }
  assert (Hspan : forall c, c ∈ planChunks fileSize -> End c < Start c).
  { pose proof (Z.quot_rem' fileSize 4) as Hqr.
    pose proof (Z.rem_bound_pos_neg fileSize 4 ltac:(lia) ltac:(lia)) as Hrem.
    set (q := Z.quot fileSize 4) in *.
    assert (Hq : Int64.quot fileSize (Z.of_nat 4) = q).
    { unfold Int64.quot. change (Z.of_nat 4) with 4. fold q.
      apply Int64_wrap_id.
      unfold Int64.in_range, Int64.min_signed, Int64.max_signed in *. lia. }
    intros c Hin. apply list_elem_of_lookup_1 in Hin as [i Hi].
    pose proof (lookup_lt_Some _ _ _ Hi) as Hlt. rewrite Hlen in Hlt.
    unfold planChunks in Hi. rewrite Hc in Hi.
    change (Z.to_nat 4) with 4%nat in Hi.
    rewrite planChunksWith_lookup in Hi by done. cbv zeta in Hi.
    rewrite Hq in Hi.
    assert (Hmul : Int64.mul (Z.of_nat i) q = Z.of_nat i * q).
    { unfold Int64.mul. apply Int64_wrap_id.
      unfold Int64.in_range, Int64.min_signed, Int64.max_signed in *. nia. }
    rewrite Hmul in Hi.
    assert (Hlast : Int64.sub fileSize 1 = fileSize - 1).
    { unfold Int64.sub. apply Int64_wrap_id.
      unfold Int64.in_range, Int64.min_signed, Int64.max_signed in *. lia. }
    assert (Hend : Int64.sub (Int64.add (Z.of_nat i * q) q) 1
                   = Z.of_nat i * q + q - 1).
    { unfold Int64.sub, Int64.add.
      rewrite (Int64_wrap_id (Z.of_nat i * q + q))
        by (unfold Int64.in_range, Int64.min_signed, Int64.max_signed in *; nia).
      apply Int64_wrap_id.
      unfold Int64.in_range, Int64.min_signed, Int64.max_signed in *. nia. }
    rewrite Hlast, Hend in Hi.
    destruct (decide (i = (4 - 1)%nat)) as [Hi3|Hne];
      injection Hi as <-; simpl; lia. }
  split; [done|]. split; [done|].
  intros c p Hin [H1 H2]. specialize (Hspan c Hin). lia.
Qed.

Lemma planned_spans_without_length_witness :
  length (planChunks (-1)) = 4%nat /\
  (forall c, c ∈ planChunks (-1) -> End c < Start c) /\
  (forall c p, c ∈ planChunks (-1) -> ~ in_chunk p c).
Proof.
  apply (planned_spans_without_length (-1)).
  unfold Int64.min_signed. simpl. lia.
Defined.

(** ** The two models of the fetchers agree *)

Lemma runFetchers_is_a_schedule_witness :
  exists s,
    Coordination.exec 4 (fetchOutcome failingWorld sampleURL "file.bin.tmp" ""
                           (planChunks 8))
      (Coordination.sequentialSchedule 4
         (fetchOutcome failingWorld sampleURL "file.bin.tmp" "" (planChunks 8))
         [2; 0; 3; 1]%nat)
      (Coordination.init 4) = Some s /\
    Coordination.main s
    = Coordination.MEvaluate
        (runFetchers failingWorld sampleURL "file.bin.tmp" "" (planChunks 8)
           [2; 0; 3; 1]%nat None tmpState).1.
Proof.
  apply (runFetchers_is_a_schedule failingWorld sampleURL "file.bin.tmp" ""
           (planChunks 8) [2; 0; 3; 1]%nat tmpState).
  - apply (bool_decide_unpack _). vm_compute. reflexivity.
  - intros i. change (length (planChunks 8)) with 4%nat.
    rewrite !elem_of_cons, elem_of_nil. lia.
Defined.
